(** * pactools: dehumming, AR estimation, whitening and decimation

    A shallow embedding of [pactools/utils/dehumming.py],
    [pactools/utils/arma.py] and of [whiten] and [decimate] in
    [pactools/preprocess.py].

    Conventions of the embedding.
    - Python [int]s are [Z]; [//] and [%] are [Z.div] and [Z.modulo] (both
      languages round towards minus infinity).
    - Python and numpy floats are idealised as real numbers ([R]); rounding is
      not modelled.  Where the source can produce a value that is not a real
      number (the square root of a negative noise variance, a division by
      zero) the model says so.
    - Library functions (numpy, scipy) are given their documented meaning in
      exact arithmetic.
    - A one-dimensional numpy array is a [list R]; a matrix is the list of its
      rows.  Slicing, index normalisation, broadcasting and the shape errors of
      numpy are written out.
    - Exceptions are values of [outcome]; an exception raised by a library call
      propagates, since the source has no [try].
    - The interpreter is CPython 3. *)

From Stdlib Require Import Reals ZArith List Bool Lia Lra.
From Stdlib Require Import ClassicalDescription IndefiniteDescription.
Import ListNotations.

(* ================================================================= *)
(** * Part I: definitions *)
(* ================================================================= *)

(** ** Python values, exceptions, ranges, indices and slices *)

Module Py.

Inductive exn : Type :=
| ValueError
| ZeroDivisionError
| IndexError
| LinAlgError
| AttributeError
| NotImplementedError.

Inductive outcome (A : Type) : Type :=
| Return (a : A)
| Raise (e : exn).

Arguments Return {A} a.
Arguments Raise {A} e.

Definition bind {A B : Type} (m : outcome A) (k : A -> outcome B) : outcome B :=
  match m with
  | Return a => k a
  | Raise e => Raise e
  end.

Notation "'let!' x ':=' m 'in' k" := (bind m (fun x => k))
  (at level 10, x pattern, m at level 100, k at level 200).

(** [int(x)] on a float: truncation towards zero. *)
Definition py_int (x : R) : Z :=
  if Rle_dec 0 x then Int_part x else (- Int_part (- x))%Z.

(** [range(start, stop, step)]; a zero step is a [ValueError]. *)
Definition py_range (start stop step : Z) : outcome (list Z) :=
  if (step =? 0)%Z then Raise ValueError
  else
    let n := if (0 <? step)%Z
             then ((stop - start + step - 1) / step)%Z
             else ((start - stop - step - 1) / (- step))%Z in
    Return (map (fun i => (start + Z.of_nat i * step)%Z) (seq 0 (Z.to_nat n))).

(** Normalisation of a slice bound against a sequence of length [len]:
    negative bounds count from the end, and the result is clamped. *)
Definition py_norm (len i : Z) : Z :=
  if (i <? 0)%Z then Z.max (i + len) 0 else Z.min i len.

Definition slice_lo {A : Type} (l : list A) (start : Z) : nat :=
  Z.to_nat (py_norm (Z.of_nat (length l)) start).

Definition slice_len {A : Type} (l : list A) (start stop : Z) : nat :=
  let len := Z.of_nat (length l) in
  Z.to_nat (py_norm len stop - py_norm len start).

(** [l[start:stop]] *)
Definition py_slice {A : Type} (l : list A) (start stop : Z) : list A :=
  firstn (slice_len l start stop) (skipn (slice_lo l start) l).

(** [l[i]] with Python's negative indices. *)
Definition py_index {A : Type} (l : list A) (i : Z) : outcome A :=
  let len := Z.of_nat (length l) in
  let j := if (i <? 0)%Z then (i + len)%Z else i in
  if (j <? 0)%Z then Raise IndexError
  else match nth_error l (Z.to_nat j) with
       | Some x => Return x
       | None => Raise IndexError
       end.

(** [l[i] = v] *)
Definition py_setitem {A : Type} (l : list A) (i : Z) (v : A) : outcome (list A) :=
  let len := Z.of_nat (length l) in
  let j := if (i <? 0)%Z then (i + len)%Z else i in
  if ((j <? 0) || (len <=? j))%Z then Raise IndexError
  else Return (firstn (Z.to_nat j) l ++ v :: skipn (S (Z.to_nat j)) l).

(** A [for] loop whose body may raise. *)
Fixpoint for_each {A S : Type} (body : S -> A -> outcome S) (l : list A) (s : S)
  : outcome S :=
  match l with
  | [] => Return s
  | x :: l' => let! s' := body s x in for_each body l' s'
  end.

End Py.

Export Py.

(** ** Iteration order of a small [set] of floats

    Line 70 of [dehumming.py] iterates over the set literal [{0.1, 0.01}].
    The order in which a [set] yields its elements is the order of the slots
    of its hash table.  This is the table of CPython 3 on a 64-bit platform:
    eight slots while the set has fewer than five elements, slot
    [hash & 7] tried first, and on a collision the next slot given by the
    perturbation recurrence. *)

Module PySet.

Open Scope Z_scope.

(** A finite binary64 value [mant * 2 ^ expo]. *)
Record pyfloat : Type := mkFloat { mant : Z; expo : Z }.

Definition value (x : pyfloat) : R := (IZR (mant x) * powerRZ 2 (expo x))%R.

Definition pyfloat_eqb (x y : pyfloat) : bool :=
  (mant x =? mant y) && (expo x =? expo y).

(** [hash(x)] for a float: the value reduced modulo the Mersenne prime
    [2^61 - 1] (where [2^61 = 1]), with the sign of [x]; [-1] is replaced by
    [-2]. *)
Definition hash_modulus : Z := 2 ^ 61 - 1.

Definition py_hash (x : pyfloat) : Z :=
  let r := (Z.abs (mant x) * 2 ^ (expo x mod 61)) mod hash_modulus in
  let h := if mant x <? 0 then - r else r in
  if h =? -1 then -2 else h.

Definition table : Type := list (option pyfloat).

Definition set_minsize : nat := 8.
Definition set_mask : Z := 7.
Definition perturb_shift : Z := 5.

(** The probe sequence of [set_add_entry] for the eight-slot table (no linear
    probing happens in a table this small). *)
Fixpoint set_probe (fuel : nat) (t : table) (key : pyfloat) (i perturb : Z) : table :=
  match fuel with
  | O => t
  | S fuel' =>
      match nth (Z.to_nat i) t None with
      | None => firstn (Z.to_nat i) t ++ Some key :: skipn (S (Z.to_nat i)) t
      | Some k =>
          if pyfloat_eqb k key then t
          else
            let perturb' := Z.shiftr perturb perturb_shift in
            set_probe fuel' t key (Z.land (i * 5 + 1 + perturb') set_mask) perturb'
      end
  end.

Definition set_add (t : table) (key : pyfloat) : table :=
  let h := py_hash key in
  set_probe 32 t key (Z.land h set_mask) (h mod 2 ^ 64).

(** The elements of the set display [{x1, ..., xn}] (n < 5), in iteration
    order. *)
Definition set_iter (elements : list pyfloat) : list pyfloat :=
  let t := fold_left set_add elements (repeat None set_minsize) in
  flat_map (fun slot => match slot with Some k => [k] | None => [] end) t.

(** The doubles denoted by the literals [0.1] and [0.01]. *)
Definition lit_0_1 : pyfloat := mkFloat 3602879701896397 (-55).
Definition lit_0_01 : pyfloat := mkFloat 5764607523034235 (-59).

End PySet.

(** ** numpy arrays *)

Module Np.

Open Scope R_scope.

Fixpoint map2 {A B C : Type} (f : A -> B -> C) (a : list A) (b : list B) : list C :=
  match a, b with
  | x :: a', y :: b' => f x y :: map2 f a' b'
  | _, _ => []
  end.

(** An elementwise binary operation on two one-dimensional arrays, with
    numpy's broadcasting: equal lengths, or one operand of length one. *)
Definition binop (f : R -> R -> R) (a b : list R) : outcome (list R) :=
  if (length a =? length b)%nat then Return (map2 f a b)
  else match a, b with
       | [x], _ => Return (map (f x) b)
       | _, [y] => Return (map (fun x => f x y) a)
       | _, _ => Raise ValueError
       end.

(** The value assigned to a slice of [n] elements must have [n] elements or
    one element. *)
Definition broadcast_to (src : list R) (n : nat) : outcome (list R) :=
  if (length src =? n)%nat then Return src
  else match src with
       | [x] => Return (repeat x n)
       | _ => Raise ValueError
       end.

(** [l[start:stop] = src] *)
Definition slice_assign (l : list R) (start stop : Z) (src : list R)
  : outcome (list R) :=
  let lo := slice_lo l start in
  let n := slice_len l start stop in
  let! v := broadcast_to src n in
  Return (firstn lo l ++ v ++ skipn (lo + n) l).

(** [l[start:stop] op= v]: the result of the operation must have the shape of
    the slice it is stored into. *)
Definition slice_iop (f : R -> R -> R) (l : list R) (start stop : Z) (v : list R)
  : outcome (list R) :=
  let s := py_slice l start stop in
  let! r := binop f s v in
  if (length r =? length s)%nat then slice_assign l start stop r
  else Raise ValueError.

Definition zeros (n : nat) : list R := repeat 0 n.

(** [np.dot] of two one-dimensional arrays. *)
Fixpoint sum (l : list R) : R :=
  match l with
  | [] => 0
  | x :: l' => x + sum l'
  end.

Definition dot (a b : list R) : outcome R :=
  if (length a =? length b)%nat then Return (sum (map2 Rmult a b))
  else Raise ValueError.

(** [np.hamming(M)]: empty for [M < 1], [[1.0]] for [M = 1], and otherwise
    [0.54 - 0.46 cos(2 pi n / (M - 1))] for [n = 0 .. M-1]. *)
Definition hamming_at (M : Z) (n : nat) : R :=
  0.54 - 0.46 * cos (2 * PI * INR n / IZR (M - 1)).

Definition hamming (M : Z) : list R :=
  if (M <? 1)%Z then []
  else if (M =? 1)%Z then [1]
  else map (hamming_at M) (seq 0 (Z.to_nat M)).

(** [np.arange(start, stop, step)] on integers, for a non-zero [step]. *)
Definition arange (start stop step : Z) : list Z :=
  let n := if (0 <? step)%Z
           then ((stop - start + step - 1) / step)%Z
           else ((start - stop - step - 1) / (- step))%Z in
  map (fun i => (start + Z.of_nat i * step)%Z) (seq 0 (Z.to_nat n)).

(** [a[idx]] for an array of indices. *)
Fixpoint take (a : list R) (idx : list Z) : outcome (list R) :=
  match idx with
  | [] => Return []
  | i :: idx' =>
      let! x := py_index a i in
      let! xs := take a idx' in
      Return (x :: xs)
  end.

(** [np.linspace(start, stop, num, endpoint=False)] *)
Definition linspace (start stop : R) (num : Z) : outcome (list R) :=
  if (num <? 0)%Z then Raise ValueError
  else
    let step := (stop - start) / IZR num in
    Return (map (fun i => INR i * step + start) (seq 0 (Z.to_nat num))).

(** A float that may be the result of an invalid operation. *)
Inductive npfloat : Type :=
| Real (x : R)
| NaN.

(** [np.sqrt] of a scalar: NaN (and a warning, no exception) below zero. *)
Definition np_sqrt (x : R) : npfloat :=
  if Rlt_dec x 0 then NaN else Real (sqrt x).

(** [np.mean] and [np.std] of a non-empty array. *)
Definition mean (x : list R) : R := sum x / INR (length x).

Definition std (x : list R) : R :=
  sqrt (mean (map (fun v => (v - mean x) * (v - mean x)) x)).

(** [scipy.fftpack.ifft(x, n).real] for a real [x]: [x] is truncated or
    padded with zeros to [n] points; [n < 1] is a [ValueError]. *)
Definition ifft_real (x : list R) (n : Z) : outcome (list R) :=
  if (n <? 1)%Z then Raise ValueError
  else
    let N := Z.to_nat n in
    let xs := firstn N x ++ zeros (N - length x) in
    Return (map (fun k =>
                   sum (map2 (fun j xj => xj * cos (2 * PI * INR j * INR k / INR N))
                             (seq 0 N) xs) / INR N)
                (seq 0 N)).

(** [scipy.signal.fftconvolve(a, b, 'same')]: the full linear convolution,
    cropped around its centre to the length of [a]. *)
Definition convolve_full (a b : list R) : list R :=
  match a, b with
  | [], _ | _, [] => []
  | _, _ =>
      map (fun k => sum (map (fun j => nth j a 0 * nth (k - j) b 0) (seq 0 (S k))))
          (seq 0 (length a + length b - 1))
  end.

Definition convolve_same (a b : list R) : list R :=
  let full := convolve_full a b in
  firstn (length a) (skipn ((length full - length a) / 2) full).

End Np.

(** ** Matrices and [scipy.linalg] *)

Module Linalg.

Open Scope R_scope.

Definition vec : Type := list R.
Definition matrix : Type := list (list R).

(** [np.dot(A, x)] for a matrix and a vector. *)
Definition matvec (A : matrix) (x : vec) : vec :=
  map (fun row => Np.sum (Np.map2 Rmult row x)) A.

(** [A.T] for a matrix with [ncols] columns. *)
Definition transpose (ncols : nat) (A : matrix) : matrix :=
  map (fun j => map (fun row => nth j row 0) A) (seq 0 ncols).

(** [np.dot(A, B)] for two matrices, [B] with [ncols] columns. *)
Definition matmul (ncols : nat) (A B : matrix) : matrix :=
  map (matvec (transpose ncols B)) A.

Definition squareb (A : matrix) : bool :=
  forallb (fun row => (length row =? length A)%nat) A.

Definition nonsingular (A : matrix) : Prop :=
  forall v : vec,
    length v = length A -> matvec A v = Np.zeros (length A) ->
    v = Np.zeros (length A).

Definition solves (A : matrix) (b x : vec) : Prop :=
  length x = length A /\ matvec A x = b.

(** [scipy.linalg.solve(A, b)] in exact arithmetic: [ValueError] unless [A] is
    square and [b] has as many entries as [A] has rows, [LinAlgError] when [A]
    is singular, and otherwise the solution of [A x = b] (a non-singular
    square system has one, so the inner [right] branch is never taken). *)
Definition solve (A : matrix) (b : vec) : outcome vec :=
  if negb (squareb A) then Raise ValueError
  else if negb (length b =? length A)%nat then Raise ValueError
  else if excluded_middle_informative (nonsingular A) then
    match excluded_middle_informative (exists x, solves A b x) with
    | left H => Return (proj1_sig (constructive_indefinite_description _ H))
    | right _ => Raise LinAlgError
    end
  else Raise LinAlgError.

(** [scipy.linalg.toeplitz(c, r)]: first column [c], first row [r] (whose
    first entry is ignored). *)
Definition toeplitz (c r : vec) : matrix :=
  map (fun i =>
         map (fun j => if (j <=? i)%nat then nth (i - j) c 0 else nth (j - i) r 0)
             (seq 0 (length r)))
      (seq 0 (length c)).

End Linalg.

(** ** [pactools/utils/dehumming.py] *)

Module Dehumming.

Open Scope R_scope.

(** Lines 32-36: the overlap-add window. *)
Definition make_window (blklen : Z) : outcome (list R) :=
  let blklen_o2 := (blklen / 2)%Z in
  let window := Np.hamming blklen in
  let! den := Np.binop Rplus (py_slice window 0 blklen_o2)
                             (py_slice window blklen_o2 blklen) in
  let! window := Np.slice_iop Rdiv window 0 blklen_o2 den in
  Np.slice_assign window blklen_o2 blklen (rev (py_slice window 0 blklen_o2)).

(** Lines 50-62: the bounds of the block centred at [tmid], as
    [(tstart, tstop, wstart, wstop)]. *)
Definition block_bounds (tmax blklen tmid : Z) : Z * Z * Z * Z :=
  let blklen_o2 := (blklen / 2)%Z in
  let tstart := (tmid - blklen_o2)%Z in
  let '(wstart, tstart) :=
    if (tstart <? 0)%Z then ((- tstart)%Z, 0%Z) else (0%Z, tstart) in
  let tstop := (tmid + blklen_o2)%Z in
  let '(wstop, tstop) :=
    if (tmax <? tstop)%Z then ((blklen + tmax - tstop)%Z, tmax) else (blklen, tstop) in
  (tstart, tstop, wstart, wstop).

(** Line 44: the length of the preallocated frequency track
    ([2 + 2 * tmax // blklen] parses as [2 + ((2 * tmax) // blklen)]). *)
Definition freq_len (tmax blklen : Z) : Z := (2 + 2 * tmax / blklen)%Z.

(** Line 49: the block centres. *)
Definition block_centres (tmax blklen : Z) : outcome (list Z) :=
  let blklen_o2 := (blklen / 2)%Z in
  py_range 0 (tmax + blklen_o2) blklen_o2.

(** [single_estimate] (lines 122-148): the least-squares fit of [hmax]
    harmonics of [f] to [sigin].  [np.empty((len(sigin), hmax))] rejects a
    negative [hmax], and the division by [fs] a zero [fs]. *)
Definition single_estimate (sigin : list R) (f fs : R) (hmax : Z)
  : outcome (list R) :=
  if (hmax <? 0)%Z then Raise ValueError
  else if Req_dec_T fs 0 then Raise ZeroDivisionError
  else
    let n := length sigin in
    let h := Z.to_nat hmax in
    let fact := map (fun k => 2 * PI * f / fs * INR k) (seq 1 h) in
    let p := map INR (seq 0 n) in
    let X := map (fun a => map (fun t => a * t) p) fact in
    let X := X ++ map (map (fun x => x + PI / 2)) X in
    let X := Linalg.transpose n X in
    let X := map (map cos) X in
    let XT := Linalg.transpose (h + h) X in
    let XX := Linalg.matmul (h + h) XT X in
    let Xy := Linalg.matvec XT sigin in
    let! theta := Linalg.solve XX Xy in
    Return (Linalg.matvec X theta).

(** The state of the search of lines 64-85, with the list of the frequencies
    handed to [single_estimate] so far (one regression solve each). *)
Record search_state : Type := mkSearch {
  best_f : R;
  best_sigout : list R;
  best_energy : R;
  tried : list R
}.

(** Lines 66-69 and 77-79: the residual of the block at frequency [f] and its
    energy. *)
Definition residual (blk : list R) (f fs : R) (hmax : Z) : outcome (list R * R) :=
  let! sigenf := single_estimate blk f fs hmax in
  let! sigout := Np.binop Rminus blk sigenf in
  let! energy := Np.dot sigout sigout in
  Return (sigout, energy).

(** Lines 71-73. *)
Definition shifts_for (delta : PySet.pyfloat) : list Z :=
  let shift_max := if PySet.pyfloat_eqb delta PySet.lit_0_01 then 9%Z else 9%Z in
  let shifts := Np.arange 1 (shift_max + 1) 1 in
  map Z.opp (rev shifts) ++ shifts.

(** Lines 76-84: one candidate frequency. *)
Definition try_shift (blk : list R) (fs : R) (hmax : Z) (f0 delta : R)
  (s : search_state) (shift : Z) : outcome search_state :=
  let f := f0 + IZR shift * delta in
  let! (sigout, energy) := residual blk f fs hmax in
  if Rlt_dec energy (best_energy s)
  then Return (mkSearch f sigout energy (tried s ++ [f]))
  else Return (mkSearch (best_f s) (best_sigout s) (best_energy s) (tried s ++ [f])).

(** Lines 71-85: one step size; [f0] is the best frequency found so far. *)
Definition refine (blk : list R) (fs : R) (hmax : Z)
  (s : search_state) (delta : PySet.pyfloat) : outcome search_state :=
  let f0 := best_f s in
  for_each (try_shift blk fs hmax f0 (PySet.value delta)) (shifts_for delta) s.

(** Line 70: the step sizes, in the iteration order of the set. *)
Definition deltas : list PySet.pyfloat :=
  PySet.set_iter [PySet.lit_0_1; PySet.lit_0_01].

(** Lines 64-85: the search for the frequency of one block. *)
Definition search (blk : list R) (fs enf : R) (hmax : Z) : outcome search_state :=
  let f0 := enf in
  let! (sigout, energy) := residual blk f0 fs hmax in
  for_each (refine blk fs hmax) deltas (mkSearch f0 sigout energy [f0]).

(** The local state of [dehummer]: the output buffer, the frequency track,
    its write index, and for every block processed so far the frequencies
    handed to [single_estimate]. *)
Record dehum_state : Type := mkDehum {
  result : list R;
  freq : list R;
  kf : Z;
  solves : list (list R)
}.

(** Lines 50-95: one block. *)
Definition process_block (sig window : list R) (fs enf : R) (hmax blklen : Z)
  (st : dehum_state) (tmid : Z) : outcome dehum_state :=
  let tmax := Z.of_nat (length sig) in
  let '(tstart, tstop, wstart, wstop) := block_bounds tmax blklen tmid in
  let! s := search (py_slice sig tstart tstop) fs enf hmax in
  let! weighted := Np.binop Rmult (best_sigout s) (py_slice window wstart wstop) in
  let! result' := Np.slice_iop Rplus (result st) tstart tstop weighted in
  let! freq' := py_setitem (freq st) (kf st) (best_f s) in
  Return (mkDehum result' freq' (kf st + 1) (solves st ++ [tried s])).

(** [dehummer] (lines 18-119) without its plots and progress bar.  The
    division of line 30 is one of Python floats.  The function returns
    [result]; the other fields of the state are its locals at that point.  On
    the early return of line 39 the frequency track has not been allocated. *)
Definition dehummer (sig : list R) (fs enf : R) (hmax blklen : Z)
  : outcome dehum_state :=
  if Req_dec_T enf 0 then Raise ZeroDivisionError
  else
    let hmax := Z.min hmax (py_int (0.5 * fs / enf)) in
    let! window := make_window blklen in
    if (hmax =? 0)%Z then Return (mkDehum sig [] 0 [])
    else
      let tmax := Z.of_nat (length sig) in
      if (blklen =? 0)%Z then Raise ZeroDivisionError
      else if (freq_len tmax blklen <? 0)%Z then Raise ValueError
      else
        let freq := Np.zeros (Z.to_nat (freq_len tmax blklen)) in
        let! centres := block_centres tmax blklen in
        for_each (process_block sig window fs enf hmax blklen) centres
                 (mkDehum (Np.zeros (length sig)) freq 0 []).

End Dehumming.

(** ** [pactools/utils/arma.py] *)

Module Arma.

Open Scope R_scope.

(** The estimator: the orders, and of the [Spectrum] it derives from the
    transform length and the history of PSD estimates (each a two-dimensional
    array with one row).  [AR_] and [MA] do not exist before the first
    [estimate]. *)
Record t : Type := mkArma {
  ordar : Z;
  ordma : Z;
  fftlen : Z;
  psd : list Linalg.matrix;
  AR_ : option (list R);
  MA : option (list Np.npfloat)
}.

Definition set_AR_ (self : t) (AR : list R) : t :=
  mkArma (ordar self) (ordma self) (fftlen self) (psd self) (Some AR) (MA self).

Definition set_MA (self : t) (ma : list Np.npfloat) : t :=
  mkArma (ordar self) (ordma self) (fftlen self) (psd self) (AR_ self) (Some ma).

(** Line 42: the correlation estimated from the PSD number [numpsd]. *)
Definition correlation (self : t) (numpsd : Z) : outcome (list R) :=
  let! p := py_index (psd self) numpsd in
  let! p0 := py_index p 0 in
  Np.ifft_real p0 (fftlen self).

(** Lines 45-50: the Toeplitz matrix and the right-hand side. *)
Definition yule_walker (self : t) (nbcorr : Z) (correl : list R)
  : outcome (Linalg.matrix * list R) :=
  let col1 := py_slice correl (ordma self) (ordma self + nbcorr) in
  let! row1 := Np.take correl
                 (map Z.abs (Np.arange (ordma self) (ordma self - ordar self) (-1))) in
  let R := Linalg.toeplitz col1 row1 in
  let r := map Ropp (py_slice correl (ordma self + 1) (ordma self + nbcorr + 1)) in
  Return (R, r).

(** Lines 38-51: the correlation and the AR part.  [nbcorr] is [None] for the
    default [np.nan]. *)
Definition estimate_ar (self : t) (nbcorr : option Z) (numpsd : Z)
  : outcome (list R * list R) :=
  let nbcorr := match nbcorr with None => ordar self | Some n => n end in
  let! correl := correlation self numpsd in
  let! (R, r) := yule_walker self nbcorr correl in
  let! AR := Linalg.solve R r in
  Return (correl, AR).

(** Line 58. *)
Definition noise_variance (self : t) (correl AR : list R) : outcome R :=
  let! c0 := py_index correl 0 in
  let! d := Np.dot AR (py_slice correl 1 (ordar self + 1)) in
  Return (c0 + d).

(** [Arma.estimate] (lines 37-62): the estimator afterwards, and whether the
    call returned or raised. *)
Definition estimate (self : t) (nbcorr : option Z) (numpsd : Z) : t * outcome unit :=
  match estimate_ar self nbcorr numpsd with
  | Raise e => (self, Raise e)
  | Return (correl, AR) =>
      let self := set_AR_ self AR in
      if (ordma self =? 0)%Z then
        match noise_variance self correl AR with
        | Raise e => (self, Raise e)
        | Return sigma2 => (set_MA self [Np.np_sqrt sigma2], Return tt)
        end
      else (self, Raise NotImplementedError)
  end.

(** [Arma.inverse] (lines 76-85) *)
Definition inverse (self : t) (sigin : list R) : outcome (list R) :=
  match AR_ self with
  | None => Raise AttributeError
  | Some AR => Return (Np.convolve_same sigin (1 :: AR))
  end.

(** The three steps of the specification of the estimator, for [ordma = 0]:
    (1) the autocorrelation is the real part of the inverse Fourier transform
    of the PSD; (2) the Toeplitz matrix of the lags [0 .. ordar-1] against the
    negated lags [1 .. ordar] gives the AR coefficients; (3) the gain is the
    square root of the driving-noise variance
    [correl[0] + sum_i AR[i] * correl[i+1]]. *)
Definition spec_correl (self : t) : outcome (list R) :=
  let! p := py_index (psd self) (-1) in
  let! p0 := py_index p 0 in
  Np.ifft_real p0 (fftlen self).

Definition spec_matrix (p : nat) (correl : list R) : Linalg.matrix :=
  map (fun i => map (fun j => nth (if (j <=? i)%nat then i - j else j - i)%nat correl 0)
                    (seq 0 p))
      (seq 0 p).

Definition spec_rhs (p : nat) (correl : list R) : list R :=
  map (fun i => - nth (S i) correl 0) (seq 0 p).

Definition spec_variance (correl AR : list R) : R :=
  nth 0 correl 0 +
  Np.sum (map (fun i => nth i AR 0 * nth (S i) correl 0) (seq 0 (length AR))).

Definition spec_estimate (self : t) : outcome (list R * Np.npfloat) :=
  let! correl := spec_correl self in
  let p := Z.to_nat (ordar self) in
  let! AR := Linalg.solve (spec_matrix p correl) (spec_rhs p correl) in
  Return (AR, Np.np_sqrt (spec_variance correl AR)).

End Arma.

(** ** [Arma.arma2psd] in [pactools/utils/arma.py] *)

Module Psd.

Import Np Linalg Arma.
Open Scope R_scope.

(** [np.abs] of the complex number [re + i im]. *)
Definition np_abs (re im : R) : R := sqrt (re * re + im * im).

(** [np.abs(scipy.fftpack.fft(x, n)) ** 2] for a real [x]: [x] is truncated or
    padded with zeros to [n] points; [n < 1] is a [ValueError]. *)
Definition fft_power (x : list R) (n : Z) : outcome (list R) :=
  if (n <? 1)%Z then Raise ValueError
  else
    let N := Z.to_nat n in
    let xs := firstn N x ++ zeros (N - length x) in
    Return (map (fun k =>
                   let re :=
                     sum (map2 (fun j xj => xj * cos (2 * PI * INR j * INR k / INR N))
                               (seq 0 N) xs) in
                   let im :=
                     - sum (map2 (fun j xj => xj * sin (2 * PI * INR j * INR k / INR N))
                                 (seq 0 N) xs) in
                   np_abs re im * np_abs re im)
                (seq 0 N)).

(** The real numbers of an array without NaN. *)
Fixpoint reals (x : list npfloat) : option (list R) :=
  match x with
  | [] => Some []
  | Real v :: x' => option_map (cons v) (reals x')
  | NaN :: _ => None
  end.

(** What [arma2psd] leaves behind: the estimator with its new PSD, or a PSD
    that holds infinities or NaNs (a NaN gain, or a division by zero on line
    71; numpy warns and goes on). *)
Inductive psd_update : Type :=
| Updated (self : t)
| PsdNotFinite.

(** [Arma.arma2psd] (lines 64-74). *)
Definition arma2psd (self : t) (hold : bool) : outcome psd_update :=
  match AR_ self with
  | None => Raise AttributeError
  | Some AR =>
      let arpart := 1 :: AR in
      let! psdar := fft_power arpart (fftlen self) in
      match MA self with
      | None => Raise AttributeError
      | Some ma =>
          match reals (firstn (Z.to_nat (fftlen self)) ma) with
          | None => Return PsdNotFinite
          | Some b =>
              let! psdma := fft_power b (fftlen self) in
              if existsb (fun d => if Req_dec_T d 0 then true else false) psdar
              then Return PsdNotFinite
              else
                let psd := map2 Rdiv psdma psdar in
                let history := if hold then Arma.psd self else [] in
                Return (Updated (mkArma (ordar self) (ordma self) (fftlen self)
                                        (history ++ [[psd]]) (AR_ self) (MA self)))
          end
      end
  end.

End Psd.

(** ** [ai2ki] and [ki2ai] in [pactools/utils/arma.py] *)

Module Levinson.

Import Np Linalg.
Open Scope R_scope.

(** The two functions take a two-dimensional array of floats, one model per
    column; it is the list of its rows, each row a list over the models.

    What [ai2ki] returns: an array of real numbers, or an array that holds
    infinities or NaNs after the division of line 102 by zero (numpy warns
    and goes on). *)
Inductive parcors : Type :=
| Finite (parcor : matrix)
| ParcorNotFinite.

(** [rows op= k * np.flipud(rows)] for a block of rows and the row [k]; the
    right-hand side is computed from the rows as they are before the update. *)
Definition flipud_update (op : R -> R -> R) (k : list R) (rows : matrix) : matrix :=
  map2 (fun row flipped => map2 op row (map2 Rmult k flipped)) rows (rev rows).

(** Line 101, [parcor[0:i, :] -= parcor[i:i + 1, :] * np.flipud(parcor[0:i, :])]. *)
Definition ai2ki_subtract (parcor : matrix) (i : nat) : matrix :=
  let k := nth i parcor [] in
  flipud_update Rminus k (firstn i parcor) ++ skipn i parcor.

(** [rows *= factor] for a block of rows and a row of factors. *)
Definition scale_rows (factor : list R) (rows : matrix) : matrix :=
  map (fun row => map2 Rmult row factor) rows.

(** Line 102, [parcor[0:i, :] *= 1.0 / (1.0 - parcor[i:i + 1, :] ** 2)]. *)
Definition ai2ki_scale (parcor : matrix) (i : nat) : parcors :=
  let k := nth i parcor [] in
  let den := map (fun x => 1 - x * x) k in
  if existsb (fun d => if Req_dec_T d 0 then true else false) den
  then ParcorNotFinite
  else
    Finite (scale_rows (map (fun d => 1 / d) den) (firstn i parcor)
            ++ skipn i parcor).

(** Lines 100-102. *)
Definition ai2ki_step (parcor : matrix) (i : nat) : parcors :=
  if (0 <? i)%nat then ai2ki_scale (ai2ki_subtract parcor i) i
  else Finite parcor.

Fixpoint ai2ki_loop (parcor : matrix) (l : list nat) : parcors :=
  match l with
  | [] => Finite parcor
  | i :: l' =>
      match ai2ki_step parcor i with
      | Finite parcor' => ai2ki_loop parcor' l'
      | ParcorNotFinite => ParcorNotFinite
      end
  end.

(** [ai2ki] (lines 88-103); [range(ordar - 1, -1, -1)] is [ordar-1, ..., 0]. *)
Definition ai2ki (ar : matrix) : parcors :=
  let parcor := ar in
  let ordar := length ar in
  ai2ki_loop parcor (rev (seq 0 ordar)).

(** Lines 118-120. *)
Definition ki2ai_step (parcor : matrix) (ar : matrix) (i : nat) : matrix :=
  let k := nth i parcor [] in
  let ar :=
    if (0 <? i)%nat then flipud_update Rplus k (firstn i ar) ++ skipn i ar
    else ar in
  firstn i ar ++ k :: skipn (S i) ar.

(** [ki2ai] (lines 106-123). *)
Definition ki2ai (parcor : matrix) : matrix :=
  let ar := map (map (fun _ => 0)) parcor in
  let ordar := length parcor in
  fold_left (ki2ai_step parcor) (seq 0 ordar) ar.

End Levinson.

(** ** [whiten] in [pactools/preprocess.py] *)

Module Preprocess.

Open Scope R_scope.

(** Lines 206-218: the notch of harmonic [k] in the row [row] of the PSD. *)
Definition notch_bounds (fftlen : Z) (fs enf d_enf : R) (k : Z) : Z * Z :=
  let fmin := IZR k * (enf - d_enf) in
  let fmax := IZR k * (enf + d_enf) in
  let kmin := Z.max 0 (py_int (IZR fftlen * fmin / fs)) in
  let kmax := Z.min (fftlen / 2) (py_int (IZR fftlen * fmax / fs) + 1) in
  (kmin, kmax).

Definition interpolation (Amin Amax : R) (n : Z) : outcome (list R) :=
  let! down := Np.linspace 1 0 n in
  let! up := Np.linspace 0 1 n in
  Np.binop Rplus (map (Rmult Amin) down) (map (Rmult Amax) up).

Definition notch_row (fftlen : Z) (fs enf d_enf : R) (k : Z) (row : list R)
  : outcome (list R) :=
  let '(kmin, kmax) := notch_bounds fftlen fs enf d_enf k in
  let! Amin := py_index row kmin in
  let! Amax := py_index row kmax in
  let! interpol := interpolation Amin Amax (kmax - kmin) in
  let! row := Np.slice_assign row kmin kmax interpol in
  Np.slice_assign row (- kmax) (- kmin) (rev interpol).

(** The same on the two-dimensional array [ar.psd[-1]], of which the source
    addresses row 0. *)
Definition notch (fftlen : Z) (fs enf d_enf : R) (k : Z) (P : Linalg.matrix)
  : outcome Linalg.matrix :=
  if Req_dec_T fs 0 then Raise ZeroDivisionError
  else
    match P with
    | [] => Raise IndexError
    | row :: rows =>
        let! row' := notch_row fftlen fs enf d_enf k row in
        Return (row' :: rows)
    end.

(** Lines 203-220: the loop over the harmonics.  The loop need not end (it
    does not when [enf <= d_enf] and [0 < fs]); [None] is returned when
    [fuel] iterations were not enough. *)
Fixpoint notch_loop (fuel : nat) (fftlen : Z) (fs enf d_enf : R) (k : Z)
  (P : Linalg.matrix) : option (outcome Linalg.matrix) :=
  if Rlt_dec (IZR k * (enf - d_enf)) (fs / 2) then
    match fuel with
    | O => None
    | S fuel' =>
        match notch fftlen fs enf d_enf k P with
        | Raise e => Some (Raise e)
        | Return P' => notch_loop fuel' fftlen fs enf d_enf (k + 1) P'
        end
    end
  else Some (Return P).

(** What [whiten] returns: an array of real samples, or an array of
    infinities and NaNs when the gain of line 238 is a division by zero. *)
Inductive whitened : Type :=
| Signal (s : list R)
| NotFinite.

(** Lines 238-239. *)
Definition rescale (sig sigout : list R) : whitened :=
  match sigout with
  | [] => Signal []
  | _ =>
      if Req_dec_T (Np.std sigout) 0 then NotFinite
      else
        let gain := Np.std sig / Np.std sigout in
        Signal (map (fun x => x * gain) sigout)
  end.

(** Lines 229-236. *)
Definition apply_inverse (ar : Arma.t) (zero_phase : bool) (sig : list R)
  : outcome (list R) :=
  if zero_phase then
    let! sigout := Arma.inverse ar sig in
    let sigout := rev sigout in
    let! sigout := Arma.inverse ar sigout in
    Return (rev sigout)
  else Arma.inverse ar sig.

(** Lines 222-239, given the PSD [P] of the first [periodogram] call and the
    PSD [Plast] that the second call appended and the loop may have notched.
    Line 224 takes the square root of entries that are squared magnitudes or
    interpolations between two of them. *)
Definition whiten_fit (sig : list R) (ordar : Z) (zero_phase : bool)
  (fftlen : Z) (P Plast : Linalg.matrix) : outcome whitened :=
  let Plast := if zero_phase then map (map sqrt) Plast else Plast in
  let ar := Arma.mkArma ordar 0 fftlen [P; Plast] None None in
  match Arma.estimate ar None (-1) with
  | (_, Raise e) => Raise e
  | (ar, Return _) =>
      let! sigout := apply_inverse ar zero_phase sig in
      Return (rescale sig sigout)
  end.

Section Whiten.

(** The [Spectrum] class is not part of the sources at hand.  Of an estimator
    [Arma(ordar, ordma=0, fs=fs)], [periodogram fs sig] is the transform length
    [fftlen] and the PSD estimate (a two-dimensional array with one row of
    non-negative entries) that [ar.periodogram(sig)] computes. *)
Variable periodogram : R -> list R -> outcome (Z * Linalg.matrix).

(** [whiten] (lines 179-251) without its plots. *)
Definition whiten (fuel : nat) (sig : list R) (fs : R) (ordar : Z)
  (enf d_enf : R) (zero_phase : bool) : option (outcome whitened) :=
  match periodogram fs sig with
  | Raise e => Some (Raise e)
  | Return (fftlen, P) =>
      match notch_loop fuel fftlen fs enf d_enf 1 P with
      | None => None
      | Some (Raise e) => Some (Raise e)
      | Some (Return Plast) => Some (whiten_fit sig ordar zero_phase fftlen P Plast)
      end
  end.

(** Whitening without the notches: the model is fitted to the periodogram as
    it is. *)
Definition plain_whiten (sig : list R) (fs : R) (ordar : Z) (zero_phase : bool)
  : outcome whitened :=
  let! (fftlen, P) := periodogram fs sig in
  whiten_fit sig ordar zero_phase fftlen P P.

End Whiten.

End Preprocess.

(** ** [decimate] in [pactools/preprocess.py] *)

Module Decimation.

Import Np.
Open Scope R_scope.

(** What a call can raise besides the exceptions of [exn]: the statement
    [raise(ValueError, msg)] of line 67 has a tuple for operand, and Python 3
    answers it with a [TypeError] (exceptions must derive from
    BaseException). *)
Inductive raised : Type :=
| Builtin (e : exn)
| TypeError.

Inductive attempt (A : Type) : Type :=
| Done (a : A)
| Raised (r : raised).

Arguments Done {A} a.
Arguments Raised {A} r.

Definition lift {A : Type} (m : outcome A) : attempt A :=
  match m with
  | Return a => Done a
  | Raise e => Raised (Builtin e)
  end.

Definition and_then {A B : Type} (m : attempt A) (k : A -> attempt B) : attempt B :=
  match m with
  | Done a => k a
  | Raised r => Raised r
  end.

Notation "'let?' x ':=' m 'in' k" := (and_then m (fun x => k))
  (at level 10, x pattern, m at level 100, k at level 200).

(** [y[::q]]: every [q]th element from the first one on, every [-q]th element
    from the last one back for a negative [q]; a zero step is a
    [ValueError]. *)
Definition py_stride (y : list R) (q : Z) : outcome (list R) :=
  if (q =? 0)%Z then Raise ValueError
  else
    let n := Z.of_nat (length y) in
    let count := Z.to_nat ((n + Z.abs q - 1) / Z.abs q) in
    let src := if (0 <? q)%Z then y else rev y in
    Return (map (fun i => nth (i * Z.to_nat (Z.abs q)) src 0) (seq 0 count)).

(** Lines 60-63. *)
Definition dec_1st : list Z :=
  [0; 0; 2; 3; 4; 5; 6; 7; 2; 3; 2; 0; 3; 0; 2; 3; 4; 0; 3; 0; 4;
   3; 0; 0; 4; 5; 0; 3; 4; 0; 5]%Z.

Definition dec_2nd : list Z :=
  [0; 0; 0; 0; 0; 0; 0; 0; 4; 3; 5; 0; 4; 0; 7; 5; 4; 0; 6; 0; 5;
   7; 0; 0; 6; 5; 0; 9; 7; 0; 6]%Z.

Section Decimate.

(** Neither scipy's filters nor single-precision rounding are modelled:
    [lowpass q x] is [signal.filtfilt(b, a, x)] for the filter [(b, a)] that
    [cheby1(16, 0.025, 0.98 / q)] designs (lines 35-37), and [float32 v] is
    the single-precision number nearest to [v] (lines 70 and 74). *)
Variable lowpass : Z -> list R -> outcome (list R).
Variable float32 : R -> R.

(** [_decimate] (lines 16-41) for a one-dimensional [x].  [q] is an [int], so
    line 33 is not reached; the list of slices of lines 39-41 is read as a
    tuple (as numpy did up to version 1.22), which gives [y[::q]]. *)
Definition _decimate (x : list R) (q : Z) : outcome (list R) :=
  let! y := lowpass q x in
  py_stride y q.

(** [decimate] (lines 44-79); the factor is an [int], and the quotient of
    line 76 is one of floats. *)
Definition decimate (sig : list R) (fs : R) (decimation_factor : Z)
  : attempt (list R * R) :=
  let sig := map (fun v => v - mean sig) sig in
  let? d1 := lift (py_index dec_1st decimation_factor) in
  if (d1 =? 0)%Z then Raised TypeError
  else
    let? sig := lift (_decimate sig d1) in
    let sig := map float32 sig in
    let? d2 := lift (py_index dec_2nd decimation_factor) in
    let? sig :=
      if (0 <? d2)%Z then
        let? sig := lift (_decimate sig d2) in
        Done (map float32 sig)
      else Done sig in
    let fs := fs / IZR decimation_factor in
    Done (sig, fs).

End Decimate.

End Decimation.

(** ** Vocabulary of the statements *)

Module Terms.

Import Dehumming.
Open Scope R_scope.

(** The integer shifts -9 .. -1, 1 .. 9, in the order of line 73. *)
Definition shifts : list Z :=
  [-9; -8; -7; -6; -5; -4; -3; -2; -1; 1; 2; 3; 4; 5; 6; 7; 8; 9]%Z.

(** The candidate frequencies around [f0] for the step size [delta]. *)
Definition candidates_at (f0 : R) (delta : PySet.pyfloat) : list R :=
  map (fun shift => f0 + IZR shift * PySet.value delta) shifts.

(** The residual energy of a block at the frequency [f], when the regression
    at [f] can be solved. *)
Definition energy_at (blk : list R) (fs : R) (hmax : Z) (f : R) : option R :=
  match residual blk f fs hmax with
  | Return (_, energy) => Some energy
  | Raise _ => None
  end.

(** [f] is one of the frequencies [fs_tried], and none of them leaves less
    residual energy. *)
Definition minimises (blk : list R) (fs : R) (hmax : Z) (f : R)
  (fs_tried : list R) : Prop :=
  In f fs_tried /\
  exists e, energy_at blk fs hmax f = Some e /\
    forall f', In f' fs_tried ->
      exists e', energy_at blk fs hmax f' = Some e' /\ e <= e'.

(** The invariant of the loops of lines 70-85: the best frequency is one of
    those tried, its energy is recorded, and no frequency tried has less. *)
Definition search_inv (blk : list R) (fs : R) (hmax : Z) (s : search_state) : Prop :=
  In (best_f s) (tried s) /\
  energy_at blk fs hmax (best_f s) = Some (best_energy s) /\
  forall f', In f' (tried s) ->
    exists e', energy_at blk fs hmax f' = Some e' /\ best_energy s <= e'.

(** All the frequencies that the search of a block tries when no candidate
    improves on the nominal frequency [enf]. *)
Definition candidates (enf : R) : list R :=
  [enf] ++ candidates_at enf PySet.lit_0_1 ++ candidates_at enf PySet.lit_0_01.

(** The lengths of the blocks of a signal of [tmax] samples. *)
Definition block_lengths (tmax blklen : Z) : list nat :=
  match block_centres tmax blklen with
  | Return centres =>
      map (fun tmid =>
             let '(tstart, tstop, _, _) := block_bounds tmax blklen tmid in
             Z.to_nat (tstop - tstart))
          centres
  | Raise _ => []
  end.

(** Every regression that [dehummer] solves on an all-zero signal has a
    solution: no block leads to a singular system. *)
Definition regressions_solvable (tmax blklen : Z) (fs enf : R) (hmax : Z) : Prop :=
  forall n f,
    In n (block_lengths tmax blklen) -> In f (candidates enf) ->
    exists v, single_estimate (Np.zeros n) f fs hmax = Return v.

(** The state of [dehummer] on an all-zero signal of [tmax] samples after
    [k] blocks, for a frequency track of [len] entries. *)
Definition zero_state (tmax : nat) (enf : R) (len k : nat) : dehum_state :=
  mkDehum (Np.zeros tmax) (repeat enf k ++ Np.zeros (len - k)) (Z.of_nat k)
          (repeat (candidates enf) k).

(** Three estimators of order one: one with a moving-average order, on the
    PSD of a constant signal; one on a sequence that is not a PSD, whose
    implied noise variance is negative; and one on an identically-zero PSD. *)
Definition ma_example : Arma.t :=
  Arma.mkArma 1 1 4 [[[4; 0; 0; 0]]] None None.

Definition negative_example : Arma.t :=
  Arma.mkArma 1 0 2 [[[-1; 3]]] None None.

Definition zero_example : Arma.t :=
  Arma.mkArma 1 0 2 [[[0; 0]]] None None.

(** An estimator as [whiten] creates it, and a stand-in for [periodogram]
    that answers with the four-bin PSD of a constant signal. *)
Definition dc_psd : Linalg.matrix := [[4; 0; 0; 0]].

Definition dc_example : Arma.t := Arma.mkArma 1 0 4 [dc_psd; dc_psd] None None.

Definition periodogram_dc (fs : R) (sig : list R) : outcome (Z * Linalg.matrix) :=
  Return (4%Z, dc_psd).

(** The interpolation of lines 213-214 over [n] bins, between the values
    [Amin] and [Amax]. *)
Definition interpolated (Amin Amax : R) (n : Z) : list R :=
  map (fun i => Amin * (INR i * ((0 - 1) / IZR n) + 1) +
                Amax * (INR i * ((1 - 0) / IZR n) + 0))
      (seq 0 (Z.to_nat n)).

(** The half of the overlap-add window of lines 34-35 for the block length
    [blklen = 2 h]. *)
Definition half_window (blklen : Z) (h : nat) : list R :=
  map (fun i => Np.hamming_at blklen i /
                (Np.hamming_at blklen i + Np.hamming_at blklen (h + i)))
      (seq 0 h).

End Terms.

(** ** More vocabulary *)

Module Notions.

Import Np Linalg Dehumming Arma Levinson Terms.
Open Scope R_scope.

(** The search of every block of [sig] ends with a cleaned block that is the
    corresponding part of one signal [r]. *)
Definition blocks_clean_to (sig r : list R) (fs enf : R) (hmax blklen : Z) : Prop :=
  let tmax := Z.of_nat (length sig) in
  forall centres tmid,
    block_centres tmax blklen = Return centres -> In tmid centres ->
    let '(tstart, tstop, _, _) := block_bounds tmax blklen tmid in
    exists s,
      search (py_slice sig tstart tstop) fs enf hmax = Return s /\
      best_sigout s = py_slice r tstart tstop.

(** The weight that sample [t] has received from the window after [k] blocks
    of half length [h]. *)
Definition overlap_weight (window : list R) (h k t : nat) : R :=
  if (k =? 0)%nat then 0
  else if (t <? (k - 1) * h)%nat then 1
  else if (t <? k * h)%nat then nth (h + (t - (k - 1) * h)) window 0
  else 0.

(** The state of the block loop after [k] blocks, when the cleaned blocks are
    the parts of [r]. *)
Definition overlap_inv (r window : list R) (h L k : nat) (st : dehum_state) : Prop :=
  length (result st) = length r /\
  kf st = Z.of_nat k /\
  length (freq st) = L /\
  forall t, (t < length r)%nat ->
    nth t (result st) 0 = nth t r 0 * overlap_weight window h k t.

(** The block and the energy that the search keeps are those of the frequency
    that it keeps. *)
Definition kept_residual (blk : list R) (fs : R) (hmax : Z) (s : search_state) : Prop :=
  residual blk (best_f s) fs hmax = Return (best_sigout s, best_energy s).

(** An array of [m] columns. *)
Definition rect (m : nat) (P : matrix) : Prop := Forall (fun row => length row = m) P.

(** Lines 101-102 on the rows above row [i], whose reflection coefficients
    are [k]. *)
Definition step_down (k : list R) (rows : matrix) : matrix :=
  scale_rows (map (fun d => 1 / d) (map (fun x => 1 - x * x) k))
             (flipud_update Rminus k rows).

(** The rows [t] put back below a result of [ai2ki]. *)
Definition lift_app (p : parcors) (t : matrix) : parcors :=
  match p with
  | Finite K => Finite (K ++ t)
  | ParcorNotFinite => ParcorNotFinite
  end.

(** An estimator of order zero with the gain 2, before and after
    [arma2psd]. *)
Definition order0_example : Arma.t :=
  mkArma 0 0 4 [dc_psd] (Some []) (Some [Real 2]).

Definition order0_after : Arma.t :=
  mkArma 0 0 4 ([dc_psd] ++ [[map2 Rdiv (repeat (2 * 2) 4) (repeat (1 * 1) 4)]])
         (Some []) (Some [Real 2]).

(** An estimator of order two on a white spectrum. *)
Definition white_example : Arma.t :=
  mkArma 2 0 4 [[[3; 3; 3; 3]]] None None.

(** An array times a scalar, and the same under [outcome]. *)
Definition scaled (a : R) (x : list R) : list R := map (fun v => a * v) x.

Definition scaled_outcome (a : R) (m : outcome (list R)) : outcome (list R) :=
  match m with
  | Return x => Return (scaled a x)
  | Raise e => Raise e
  end.

(** The state of the search, and of [dehummer], for a signal [a] times as
    large. *)
Definition scaled_search (a : R) (s : search_state) : search_state :=
  mkSearch (best_f s) (scaled a (best_sigout s)) (a * a * best_energy s) (tried s).

Definition scaled_state (a : R) (st : dehum_state) : dehum_state :=
  mkDehum (scaled a (result st)) (freq st) (kf st) (Dehumming.solves st).

Definition scaled_run {St : Type} (f : St -> St) (m : outcome St)
  : outcome St :=
  match m with
  | Return s => Return (f s)
  | Raise e => Raise e
  end.

(** A PSD (a two-dimensional array) times a scalar, a gain times a scalar, and
    a lookup under [outcome]. *)
Definition scaled_rows (a : R) (P : matrix) : matrix := map (scaled a) P.

Definition scaled_gain (g : R) (x : npfloat) : npfloat :=
  match x with
  | Real v => Real (g * v)
  | NaN => NaN
  end.

Definition on_return {A B : Type} (f : A -> B) (m : outcome A) : outcome B :=
  match m with
  | Return x => Return (f x)
  | Raise e => Raise e
  end.

(** The estimator with every PSD of its history multiplied by [a]. *)
Definition scaled_psd (a : R) (self : Arma.t) : Arma.t :=
  mkArma (ordar self) (ordma self) (fftlen self)
         (map (scaled_rows a) (Arma.psd self)) (AR_ self) (MA self).

(** A periodogram whose PSD is [a] times that of [periodogram]. *)
Definition scaled_periodogram (a : R)
  (periodogram : R -> list R -> outcome (Z * matrix))
  : R -> list R -> outcome (Z * matrix) :=
  fun fs sig => on_return (fun '(n, P) => (n, scaled_rows a P)) (periodogram fs sig).

(** What [whiten] returns, times a scalar. *)
Definition scaled_whitened (c : R) (w : Preprocess.whitened)
  : Preprocess.whitened :=
  match w with
  | Preprocess.Signal s => Preprocess.Signal (scaled c s)
  | Preprocess.NotFinite => Preprocess.NotFinite
  end.

(** A stand-in for [periodogram] that answers with a flat four-bin PSD at the
    energy of the signal. *)
Definition energy_periodogram (fs : R) (sig : list R) : outcome (Z * matrix) :=
  Return (4%Z, [repeat (sum (map2 Rmult sig sig)) 4]).

End Notions.

(* ================================================================= *)
(** * Part II: theorems *)
(* ================================================================= *)


Section BlockBounds.

Import Dehumming.
Open Scope Z_scope.

Lemma py_range_pos (start stop step : Z) :
  0 < step ->
  py_range start stop step =
  Return (map (fun i => start + Z.of_nat i * step)
              (seq 0 (Z.to_nat ((stop - start + step - 1) / step)))).
Proof.
  intros Hs. unfold py_range.
  destruct (Z.eqb_spec step 0) as [E|_]; [lia|].
  destruct (Z.ltb_spec 0 step) as [_|E]; [reflexivity|lia].
Qed.

Lemma in_py_range_pos (start stop step x : Z) (l : list Z) :
  0 < step -> py_range start stop step = Return l -> In x l ->
  exists i, 0 <= i /\ x = start + i * step /\ x < stop.
Proof.
  intros Hs Hr Hin. rewrite py_range_pos in Hr by assumption.
  injection Hr as <-. apply in_map_iff in Hin as (i & <- & Hi).
  apply in_seq in Hi. exists (Z.of_nat i). split; [lia|]. split; [reflexivity|].
  set (n := (stop - start + step - 1) / step) in *.
  assert (Hn : step * n <= stop - start + step - 1)
    by (apply Z.mul_div_le; assumption).
  assert (Z.of_nat i < n) by lia. nia.
Qed.

Lemma block_bounds_ok (tmax blklen : Z) :
  0 <= tmax -> 2 <= blklen -> blklen mod 2 = 0 ->
  exists centres,
    block_centres tmax blklen = Return centres /\
    Z.of_nat (length centres) <= freq_len tmax blklen /\
    forall tmid, In tmid centres ->
      let '(tstart, tstop, wstart, wstop) := block_bounds tmax blklen tmid in
      0 <= tstart <= tstop /\ tstop <= tmax /\
      tstop - tstart = wstop - wstart /\
      0 <= wstart <= wstop /\ wstop <= blklen.
Proof.
  intros Ht Hb Heven.
  assert (Hh : blklen = 2 * (blklen / 2))
    by (rewrite (Z.div_mod blklen 2) at 1 by lia; lia).
  set (h := blklen / 2) in *.
  assert (Hhpos : 0 < h) by lia.
  unfold block_centres. fold h.
  eexists. split; [apply py_range_pos; assumption|]. split.
  - rewrite length_map, length_seq. unfold freq_len.
    replace (tmax + h - 0 + h - 1) with ((tmax - 1) + 2 * h) by lia.
    rewrite Z.div_add by lia.
    replace (2 * tmax / blklen) with (tmax / h).
    2:{ rewrite Hh. rewrite Z.div_mul_cancel_l by lia. reflexivity. }
    assert (-1 <= (tmax - 1) / h) by (apply Z.div_le_lower_bound; lia).
    assert ((tmax - 1) / h <= tmax / h) by (apply Z.div_le_mono; lia).
    lia.
  - intros tmid Hin.
    destruct (in_py_range_pos 0 (tmax + h) h tmid _ Hhpos
                (py_range_pos 0 (tmax + h) h Hhpos) Hin) as (i & Hi & -> & Hlt).
    assert (Hih : 0 <= i * h) by nia.
    unfold block_bounds. fold h.
    generalize dependent (i * h). intros c Hin Hlt Hc.
    destruct (Z.ltb_spec (0 + c - h) 0);
      destruct (Z.ltb_spec tmax (0 + c + h)); lia.
Qed.

(** C10: in every iteration of the block loop the truncated indices are
    ordered and within the signal, the slice of the signal and the slice of
    the window have the same length, and there are no more blocks than
    entries in the frequency track. *)
Theorem block_bounds_safe (tmax blklen : Z) :
  1 <= tmax -> 2 <= blklen -> blklen mod 2 = 0 ->
  exists centres,
    block_centres tmax blklen = Return centres /\
    Z.of_nat (length centres) <= freq_len tmax blklen /\
    freq_len tmax blklen = 2 + 2 * tmax / blklen /\
    forall tmid, In tmid centres ->
      let '(tstart, tstop, wstart, wstop) := block_bounds tmax blklen tmid in
      0 <= tstart <= tstop /\ tstop <= tmax /\
      tstop - tstart = wstop - wstart /\
      0 <= wstart <= wstop /\ wstop <= blklen.
Proof.
  intros Ht Hb Heven.
  destruct (block_bounds_ok tmax blklen) as (centres & Hc & Hlen & Hall);
    try assumption; [lia|].
  exists centres. repeat split; try assumption; apply Hall; assumption.
Qed.

Lemma block_bounds_safe_witness :
  exists centres,
    block_centres 5 4 = Return centres /\
    Z.of_nat (length centres) <= freq_len 5 4 /\
    freq_len 5 4 = 2 + 2 * 5 / 4 /\
    forall tmid, In tmid centres ->
      let '(tstart, tstop, wstart, wstop) := block_bounds 5 4 tmid in
      0 <= tstart <= tstop /\ tstop <= 5 /\
      tstop - tstart = wstop - wstart /\
      0 <= wstart <= wstop /\ wstop <= 4.
Proof.
  apply (block_bounds_safe 5 4); [lia|lia|reflexivity].
Defined.

End BlockBounds.

(** ** Slices and elementwise operations *)

Section SliceFacts.

Context {A : Type}.

Lemma py_norm_in_range (len i : Z) :
  (0 <= i <= len)%Z -> py_norm len i = i.
Proof.
  intros H. unfold py_norm.
  destruct (Z.ltb_spec i 0); lia.
Qed.

Lemma py_slice_in_range (l : list A) (a b : Z) :
  (0 <= a <= b)%Z -> (b <= Z.of_nat (length l))%Z ->
  py_slice l a b = firstn (Z.to_nat (b - a)) (skipn (Z.to_nat a) l).
Proof.
  intros Hab Hb. unfold py_slice, slice_len, slice_lo.
  rewrite !py_norm_in_range by lia. reflexivity.
Qed.

Lemma length_py_slice_in_range (l : list A) (a b : Z) :
  (0 <= a <= b)%Z -> (b <= Z.of_nat (length l))%Z ->
  length (py_slice l a b) = Z.to_nat (b - a).
Proof.
  intros Hab Hb. rewrite py_slice_in_range by assumption.
  rewrite length_firstn, length_skipn. lia.
Qed.

End SliceFacts.

Section NumpyFacts.

Import Np.

Lemma length_map2 {A B C : Type} (f : A -> B -> C) (a : list A) (b : list B) :
  length (map2 f a b) = Nat.min (length a) (length b).
Proof.
  revert b. induction a as [|x a IH]; intros [|y b]; simpl; auto.
Qed.

Lemma nth_map2 {A B C : Type} (f : A -> B -> C) (a : list A) (b : list B)
  (i : nat) (da : A) (db : B) (dc : C) :
  (i < length a)%nat -> (i < length b)%nat ->
  nth i (map2 f a b) dc = f (nth i a da) (nth i b db).
Proof.
  revert b i. induction a as [|x a IH]; intros [|y b] [|i]; simpl; intros Ha Hb;
    try lia; auto.
  apply IH; lia.
Qed.

Lemma binop_same_length (f : R -> R -> R) (a b : list R) :
  length a = length b -> binop f a b = Return (map2 f a b).
Proof.
  intros H. unfold binop. rewrite H, Nat.eqb_refl. reflexivity.
Qed.

Lemma broadcast_to_same_length (src : list R) (n : nat) :
  length src = n -> broadcast_to src n = Return src.
Proof.
  intros H. unfold broadcast_to. rewrite H, Nat.eqb_refl. reflexivity.
Qed.

Lemma slice_assign_in_range (l : list R) (a b : Z) (src : list R) :
  (0 <= a <= b)%Z -> (b <= Z.of_nat (length l))%Z ->
  length src = Z.to_nat (b - a) ->
  slice_assign l a b src =
  Return (firstn (Z.to_nat a) l ++ src ++ skipn (Z.to_nat b) l).
Proof.
  intros Hab Hb Hs. unfold slice_assign, slice_len, slice_lo.
  rewrite !py_norm_in_range by lia.
  rewrite broadcast_to_same_length by assumption. cbn [bind].
  do 4 f_equal. lia.
Qed.

Lemma slice_iop_in_range (f : R -> R -> R) (l : list R) (a b : Z) (v : list R) :
  (0 <= a <= b)%Z -> (b <= Z.of_nat (length l))%Z ->
  length v = Z.to_nat (b - a) ->
  slice_iop f l a b v =
  Return (firstn (Z.to_nat a) l ++ map2 f (py_slice l a b) v ++ skipn (Z.to_nat b) l).
Proof.
  intros Hab Hb Hv. unfold slice_iop.
  pose proof (length_py_slice_in_range l a b Hab Hb) as Hs.
  rewrite binop_same_length by lia. cbn [bind].
  rewrite length_map2, Hs, Hv, Nat.min_id, Nat.eqb_refl.
  apply slice_assign_in_range; try assumption.
  rewrite length_map2. lia.
Qed.

Lemma sum_zeros (n : nat) : sum (zeros n) = 0%R.
Proof.
  induction n as [|n IH]; simpl; [reflexivity|].
  unfold zeros in IH. rewrite IH. lra.
Qed.

End NumpyFacts.

(** ** The overlap-add window *)

Section Window.

Import Np Dehumming Terms.
Open Scope R_scope.

Lemma hamming_at_pos (M : Z) (n : nat) : 0 < hamming_at M n.
Proof.
  unfold hamming_at.
  pose proof (COS_bound (2 * PI * INR n / IZR (M - 1))) as [_ Hc]. lra.
Qed.

Lemma hamming_at_sym (M : Z) (n : nat) :
  (2 <= M)%Z -> (n < Z.to_nat M)%nat ->
  hamming_at M (Z.to_nat M - 1 - n) = hamming_at M n.
Proof.
  intros HM Hn. unfold hamming_at. do 2 f_equal.
  assert (HK : IZR (M - 1) <> 0) by (apply not_0_IZR; lia).
  replace (INR (Z.to_nat M - 1 - n)) with (IZR (M - 1) - INR n).
  2:{ rewrite !INR_IZR_INZ, <- minus_IZR. f_equal. lia. }
  replace (2 * PI * (IZR (M - 1) - INR n) / IZR (M - 1))
    with (- (2 * PI * INR n / IZR (M - 1)) + 2 * INR 1 * PI)
    by (simpl; field; assumption).
  rewrite cos_period. apply cos_neg.
Qed.

Lemma nth_map_seq {B : Type} (g : nat -> B) (a n i : nat) (d : B) :
  (i < n)%nat -> nth i (map g (seq a n)) d = g (a + i)%nat.
Proof.
  intros H. rewrite (nth_indep _ d (g 0%nat)) by (rewrite length_map, length_seq; lia).
  rewrite map_nth, seq_nth by lia. reflexivity.
Qed.

Lemma firstn_map_seq {B : Type} (g : nat -> B) (a n k : nat) :
  (k <= n)%nat -> firstn k (map g (seq a n)) = map g (seq a k).
Proof.
  intros H. rewrite firstn_map. f_equal.
  replace n with (k + (n - k))%nat by lia.
  rewrite seq_app, firstn_app, length_seq, Nat.sub_diag, firstn_O, app_nil_r.
  apply firstn_all2. rewrite length_seq. lia.
Qed.

Lemma skipn_map_seq {B : Type} (g : nat -> B) (a n k : nat) :
  (k <= n)%nat -> skipn k (map g (seq a n)) = map g (seq (a + k) (n - k)).
Proof.
  intros H. rewrite skipn_map. f_equal.
  replace n with (k + (n - k))%nat at 1 by lia.
  rewrite seq_app, skipn_app, length_seq, Nat.sub_diag, skipn_O.
  rewrite skipn_all2 by (rewrite length_seq; lia). reflexivity.
Qed.

(** The window of lines 32-36 for an even block length [2 h]: the first half
    is the Hamming window divided by the sum of its two halves, the second
    half is the first half reversed. *)
Lemma make_window_even (blklen : Z) :
  (2 <= blklen)%Z -> (blklen mod 2 = 0)%Z ->
  let h := Z.to_nat (blklen / 2) in
  make_window blklen = Return (half_window blklen h ++ rev (half_window blklen h)).
Proof.
  intros Hb Heven h.
  assert (Hh : blklen = (2 * (blklen / 2))%Z)
    by (rewrite (Z.div_mod blklen 2) at 1 by lia; lia).
  assert (Hhz : (blklen / 2)%Z = Z.of_nat h) by (unfold h; lia).
  assert (Hlen : Z.to_nat blklen = (h + h)%nat) by lia.
  unfold make_window, hamming.
  destruct (Z.ltb_spec blklen 1) as [?|_]; [lia|].
  destruct (Z.eqb_spec blklen 1) as [?|_]; [lia|].
  set (g := hamming_at blklen).
  set (w := map g (seq 0 (Z.to_nat blklen))).
  assert (Hw : length w = (h + h)%nat)
    by (unfold w; rewrite length_map, length_seq; exact Hlen).
  assert (E1 : py_slice w 0 (blklen / 2) = map g (seq 0 h)).
  { rewrite py_slice_in_range by lia. rewrite Z.sub_0_r, skipn_O.
    unfold w. rewrite firstn_map_seq by lia. reflexivity. }
  assert (E2 : py_slice w (blklen / 2) blklen = map g (seq h h)).
  { rewrite py_slice_in_range by lia.
    unfold w. rewrite skipn_map_seq by lia.
    rewrite firstn_map_seq by lia. f_equal. f_equal; lia. }
  rewrite E1, E2.
  rewrite binop_same_length by (rewrite !length_map, !length_seq; reflexivity).
  cbn [bind].
  rewrite slice_iop_in_range;
    [ | lia | lia
      | rewrite length_map2, !length_map, !length_seq; lia ].
  cbn [bind]. rewrite E1. cbn [Z.to_nat firstn app].
  set (A := map2 Rdiv (map g (seq 0 h)) (map2 Rplus (map g (seq 0 h)) (map g (seq h h)))).
  assert (HA : A = half_window blklen h).
  { unfold A, half_window. fold g.
    apply nth_ext with (d := 0) (d' := 0).
    - rewrite !length_map2, !length_map, !length_seq. lia.
    - intros i Hi.
      rewrite !length_map2, !length_map, !length_seq in Hi.
      rewrite (nth_map2 _ _ _ i 0 0 0)
        by (rewrite ?length_map2, ?length_map, ?length_seq; lia).
      rewrite (nth_map2 _ _ _ i 0 0 0)
        by (rewrite ?length_map, ?length_seq; lia).
      rewrite !nth_map_seq by lia. reflexivity. }
  rewrite HA.
  assert (HlA : length (half_window blklen h) = h)
    by (unfold half_window; rewrite length_map, length_seq; reflexivity).
  set (w1 := half_window blklen h ++ skipn (Z.to_nat (blklen / 2)) w).
  assert (Hw1 : length w1 = (h + h)%nat).
  { unfold w1. rewrite length_app, length_skipn, HlA, Hw. lia. }
  assert (E3 : py_slice w1 0 (blklen / 2) = half_window blklen h).
  { rewrite py_slice_in_range by lia. rewrite Z.sub_0_r, skipn_O.
    unfold w1. rewrite firstn_app, HlA.
    replace (Z.to_nat (blklen / 2) - h)%nat with 0%nat by lia.
    rewrite firstn_O, app_nil_r. apply firstn_all2. lia. }
  rewrite E3.
  rewrite slice_assign_in_range;
    [ | lia | lia | rewrite length_rev, HlA; lia ].
  f_equal.
  rewrite (skipn_all2 w1) by lia. rewrite app_nil_r.
  f_equal. unfold w1. rewrite firstn_app, HlA.
  replace (Z.to_nat (blklen / 2) - h)%nat with 0%nat by lia.
  rewrite firstn_O, app_nil_r. apply firstn_all2. lia.
Qed.

(** C1: for every even block length [blklen >= 2], the window that lines 32-36
    build has [blklen] entries, and each entry of its first half and the entry
    half a block later sum to one. *)
Theorem window_halves_sum_to_one (blklen : Z) :
  (2 <= blklen)%Z -> (blklen mod 2 = 0)%Z ->
  exists window,
    make_window blklen = Return window /\
    length window = Z.to_nat blklen /\
    forall i, (i < Z.to_nat (blklen / 2))%nat ->
      nth i window 0 + nth (i + Z.to_nat (blklen / 2)) window 0 = 1.
Proof.
  intros Hb Heven.
  assert (Hh : blklen = (2 * (blklen / 2))%Z)
    by (rewrite (Z.div_mod blklen 2) at 1 by lia; lia).
  set (h := Z.to_nat (blklen / 2)).
  assert (Hlen : Z.to_nat blklen = (h + h)%nat) by (unfold h; lia).
  assert (HlA : length (half_window blklen h) = h)
    by (unfold half_window; rewrite length_map, length_seq; reflexivity).
  eexists. split; [apply make_window_even; assumption|]. fold h.
  split; [rewrite length_app, length_rev, HlA; lia|].
  intros i Hi.
  rewrite app_nth1 by lia.
  rewrite app_nth2 by lia. rewrite HlA.
  replace (i + h - h)%nat with i by lia.
  rewrite rev_nth by lia. rewrite HlA.
  set (g := hamming_at blklen).
  assert (Hnth : forall j, (j < h)%nat ->
            nth j (half_window blklen h) 0 = g j / (g j + g (h + j)%nat)).
  { intros j Hj. unfold half_window. fold g.
    rewrite nth_map_seq by lia. reflexivity. }
  rewrite !Hnth by lia.
  assert (S1 : g (h - S i)%nat = g (h + i)%nat).
  { unfold g. rewrite <- (hamming_at_sym blklen (h + i)) by lia.
    f_equal. lia. }
  assert (S2 : g (h + (h - S i))%nat = g i).
  { unfold g. rewrite <- (hamming_at_sym blklen i) by lia.
    f_equal. lia. }
  rewrite S1, S2.
  pose proof (hamming_at_pos blklen i).
  pose proof (hamming_at_pos blklen (h + i)).
  fold g in H, H0. field. lra.
Qed.

Lemma window_halves_sum_to_one_witness :
  exists window,
    make_window 4 = Return window /\
    length window = Z.to_nat 4 /\
    forall i, (i < Z.to_nat (4 / 2))%nat ->
      nth i window 0 + nth (i + Z.to_nat (4 / 2)) window 0 = 1.
Proof.
  apply (window_halves_sum_to_one 4); [lia|reflexivity].
Defined.

End Window.

(** ** Truncation of a float to an integer *)

Section PyInt.

Open Scope R_scope.

Lemma py_int_nonneg (x : R) (z : Z) :
  0 <= x -> IZR z <= x < IZR z + 1 -> py_int x = z.
Proof.
  intros Hx Hz. unfold py_int.
  destruct (Rle_dec 0 x) as [_|N]; [|contradiction].
  symmetry. apply Int_part_spec. lra.
Qed.

Lemma py_int_neg (x : R) (z : Z) :
  x < 0 -> IZR z - 1 < x <= IZR z -> py_int x = z.
Proof.
  intros Hx Hz. unfold py_int.
  destruct (Rle_dec 0 x) as [P|_]; [lra|].
  rewrite <- (Int_part_spec (- x) (- z)); [lia|].
  rewrite opp_IZR. lra.
Qed.

Lemma py_int_small (x : R) : -1 < x < 1 -> py_int x = 0%Z.
Proof.
  intros H. destruct (Rle_dec 0 x).
  - apply py_int_nonneg; simpl; lra.
  - apply py_int_neg; simpl; lra.
Qed.

Lemma py_int_IZR (z : Z) : py_int (IZR z) = z.
Proof.
  destruct (Z.le_gt_cases 0 z) as [H|H].
  - apply py_int_nonneg; [apply IZR_le in H; exact H | lra].
  - apply py_int_neg; [apply IZR_lt in H; exact H | lra].
Qed.

End PyInt.

(** ** The degenerate case of [dehummer] *)

Section NoHarmonic.

Import Np Dehumming.
Open Scope R_scope.

Lemma py_slice_nil {A : Type} (a b : Z) : py_slice (@nil A) a b = [].
Proof.
  unfold py_slice. rewrite skipn_nil. apply firstn_nil.
Qed.

Lemma slice_assign_nil (a b : Z) : slice_assign [] a b [] = Return [].
Proof.
  unfold slice_assign, slice_len, slice_lo, py_norm. cbn [length Z.of_nat].
  replace (Z.to_nat (_ - _)) with 0%nat
    by (destruct (Z.ltb_spec b 0); destruct (Z.ltb_spec a 0); lia).
  cbn [broadcast_to length Nat.eqb bind]. rewrite firstn_nil, skipn_nil.
  reflexivity.
Qed.

Lemma make_window_empty (blklen : Z) :
  (blklen < 1)%Z -> make_window blklen = Return [].
Proof.
  intros H. unfold make_window, hamming.
  destruct (Z.ltb_spec blklen 1) as [_|?]; [|lia].
  rewrite !py_slice_nil. cbn [binop length Nat.eqb map2 bind].
  unfold slice_iop. rewrite py_slice_nil.
  cbn [binop length Nat.eqb map2 bind]. rewrite slice_assign_nil.
  cbn [bind]. rewrite py_slice_nil. apply slice_assign_nil.
Qed.

Lemma make_window_returns (blklen : Z) :
  (blklen mod 2 = 0)%Z \/ (blklen < 1)%Z ->
  exists window, make_window blklen = Return window.
Proof.
  intros [Heven|Hlt].
  - destruct (Z.lt_ge_cases blklen 1) as [H|H].
    + eexists. apply make_window_empty. assumption.
    + assert (2 <= blklen)%Z.
      { destruct (Z.eq_dec blklen 1) as [->|]; [discriminate Heven | lia]. }
      eexists. apply make_window_even; assumption.
  - eexists. apply make_window_empty. assumption.
Qed.

(** C7, as the code has it: when the nominal frequency is not zero and the
    block length is even (or less than one), so that line 30 and the window of
    lines 34-36 do not fail, and the harmonic count
    [min(hmax, int(0.5 * fs / enf))] is zero (in particular when [hmax >= 0]
    and [-1 < 0.5 * fs / enf < 1]), [dehummer] returns the input signal as it
    is, without a regression solve and without an error. *)
Theorem dehummer_without_harmonics
  (sig : list R) (fs enf : R) (hmax blklen : Z) :
  enf <> 0 ->
  (blklen mod 2 = 0)%Z \/ (blklen < 1)%Z ->
  Z.min hmax (py_int (0.5 * fs / enf)) = 0%Z \/
  ((0 <= hmax)%Z /\ -1 < 0.5 * fs / enf < 1) ->
  dehummer sig fs enf hmax blklen = Return (mkDehum sig [] 0 []).
Proof.
  intros Henf Hblk Hh.
  assert (H0 : Z.min hmax (py_int (0.5 * fs / enf)) = 0%Z).
  { destruct Hh as [H|[Hm Hs]]; [exact H|].
    rewrite (py_int_small _ Hs). lia. }
  unfold dehummer.
  destruct (Req_dec_T enf 0) as [E|_]; [contradiction|].
  destruct (make_window_returns blklen Hblk) as [w ->]. cbn [bind].
  rewrite H0. reflexivity.
Qed.

Lemma dehummer_without_harmonics_witness :
  dehummer [1; 2; 3] 100 200 5 4 = Return (mkDehum [1; 2; 3] [] 0 []).
Proof.
  apply dehummer_without_harmonics.
  - lra.
  - left. reflexivity.
  - right. split; [lia | lra].
Defined.

(** An odd block length makes line 35 fail before the early return. *)
Lemma make_window_3 : make_window 3 = Raise ValueError.
Proof.
  unfold make_window, hamming. cbn [Z.ltb Z.eqb Z.compare Pos.compare Pos.compare_cont].
  reflexivity.
Qed.

Lemma dehummer_odd_block_raises :
  Z.min 5 (py_int (0.5 * 100 / 200)) = 0%Z /\
  dehummer [1; 2; 3] 100 200 5 3 = Raise ValueError.
Proof.
  split.
  - rewrite py_int_small by lra. reflexivity.
  - unfold dehummer.
    destruct (Req_dec_T 200 0) as [E|_]; [lra|].
    rewrite make_window_3. reflexivity.
Qed.

End NoHarmonic.

(** ** The linear solver *)

Section Solver.

Import Np Linalg.
Open Scope R_scope.

Lemma sum_map2_minus (row x y : list R) :
  length x = length row -> length y = length row ->
  sum (map2 Rmult row (map2 Rminus x y)) =
  sum (map2 Rmult row x) - sum (map2 Rmult row y).
Proof.
  revert x y. induction row as [|a row IH]; intros [|u x] [|v y] Hx Hy;
    simpl in *; try discriminate; [lra|].
  rewrite IH by lia. lra.
Qed.

Lemma sum_map2_zeros (row : list R) (n : nat) :
  sum (map2 Rmult row (zeros n)) = 0.
Proof.
  revert n. induction row as [|a row IH]; intros [|n]; simpl; try lra.
  unfold zeros in IH. rewrite IH. lra.
Qed.

Lemma matvec_zeros (A : matrix) (n : nat) :
  matvec A (zeros n) = zeros (length A).
Proof.
  unfold matvec. induction A as [|row A IH]; simpl; [reflexivity|].
  rewrite sum_map2_zeros. unfold zeros in *. rewrite IH. reflexivity.
Qed.

Lemma squareb_rows (A : matrix) :
  squareb A = true -> Forall (fun row => length row = length A) A.
Proof.
  unfold squareb. intros H. apply Forall_forall. intros row Hin.
  rewrite forallb_forall in H. apply Nat.eqb_eq. apply H. exact Hin.
Qed.

Lemma matvec_minus (A : matrix) (n : nat) (x y : vec) :
  Forall (fun row => length row = n) A ->
  length x = n -> length y = n ->
  matvec A (map2 Rminus x y) = map2 Rminus (matvec A x) (matvec A y).
Proof.
  intros HA Hx Hy. unfold matvec.
  induction HA as [|row A Hrow HA IH]; simpl; [reflexivity|].
  rewrite sum_map2_minus by congruence. rewrite IH. reflexivity.
Qed.

Lemma map2_minus_self (x : list R) : map2 Rminus x x = zeros (length x).
Proof.
  induction x as [|a x IH]; simpl; [reflexivity|].
  rewrite IH. unfold zeros. simpl. f_equal. lra.
Qed.

Lemma map2_minus_zeros (x y : list R) :
  length x = length y -> map2 Rminus x y = zeros (length x) -> x = y.
Proof.
  revert y. induction x as [|a x IH]; intros [|b y] Hl H; simpl in *;
    try discriminate; [reflexivity|].
  injection H as H1 H2. f_equal; [lra|]. apply IH; [lia|exact H2].
Qed.

Lemma nonsingular_unique (A : matrix) (b x y : vec) :
  squareb A = true -> nonsingular A ->
  solves A b x -> solves A b y -> x = y.
Proof.
  intros Hsq Hns [Hx Hbx] [Hy Hby].
  apply map2_minus_zeros; [congruence|].
  rewrite Hx. apply Hns.
  - rewrite length_map2. lia.
  - rewrite (matvec_minus A (length A)) by (auto using squareb_rows).
    rewrite Hbx, Hby, map2_minus_self. f_equal.
    rewrite <- Hbx. unfold matvec. apply length_map.
Qed.

Lemma solve_returns (A : matrix) (b x : vec) :
  squareb A = true -> length b = length A ->
  nonsingular A -> solves A b x ->
  solve A b = Return x.
Proof.
  intros Hsq Hb Hns Hx. unfold solve.
  rewrite Hsq, Hb, Nat.eqb_refl. cbn [negb].
  destruct (excluded_middle_informative (nonsingular A)) as [_|N];
    [|contradiction].
  destruct (excluded_middle_informative (exists x0, solves A b x0)) as [E|N].
  - f_equal.
    destruct (constructive_indefinite_description _ E) as [y Hy]. cbn [proj1_sig].
    apply (nonsingular_unique A b); assumption.
  - exfalso. apply N. exists x. exact Hx.
Qed.

Lemma solve_singular (A : matrix) (b : vec) :
  squareb A = true -> length b = length A ->
  ~ nonsingular A -> solve A b = Raise LinAlgError.
Proof.
  intros Hsq Hb N. unfold solve.
  rewrite Hsq, Hb, Nat.eqb_refl. cbn [negb].
  destruct (excluded_middle_informative (nonsingular A)); [contradiction|].
  reflexivity.
Qed.

Lemma solve_inv (A : matrix) (b x : vec) :
  solve A b = Return x ->
  squareb A = true /\ length b = length A /\ nonsingular A /\ solves A b x.
Proof.
  unfold solve.
  destruct (squareb A); cbn [negb]; [|discriminate].
  destruct (Nat.eqb_spec (length b) (length A)) as [Hb|]; cbn [negb];
    [|discriminate].
  destruct (excluded_middle_informative (nonsingular A)) as [Hns|];
    [|discriminate].
  destruct (excluded_middle_informative (exists x0, solves A b x0)) as [E|];
    [|discriminate].
  destruct (constructive_indefinite_description _ E) as [y Hy]. cbn [proj1_sig].
  intros [= <-]. auto.
Qed.

(** A homogeneous system that the solver accepts has the zero solution. *)
Lemma solve_homogeneous (A : matrix) (n : nat) (x : vec) :
  solve A (zeros n) = Return x -> x = zeros (length A).
Proof.
  intros H. apply solve_inv in H as (Hsq & Hb & Hns & Hx & Hm).
  apply Hns; [exact Hx|].
  rewrite Hm. f_equal. unfold zeros in Hb. rewrite repeat_length in Hb. exact Hb.
Qed.

Lemma solve_outcome (A : matrix) (b : vec) :
  (exists x, solve A b = Return x) \/ solve A b = Raise ValueError \/
  solve A b = Raise LinAlgError.
Proof.
  unfold solve.
  destruct (squareb A); cbn [negb]; [|auto].
  destruct (length b =? length A)%nat; cbn [negb]; [|auto].
  destruct (excluded_middle_informative (nonsingular A)); [|auto].
  destruct (excluded_middle_informative (exists x0, solves A b x0)); eauto.
Qed.

End Solver.

(** ** The search for the frequency of a block *)

Section Search.

Import Np Dehumming Terms.
Open Scope R_scope.

Variable blk : list R.
Variable fs : R.
Variable hmax : Z.

Lemma try_shift_inv (f0 delta : R) (s s' : search_state) (shift : Z) :
  try_shift blk fs hmax f0 delta s shift = Return s' ->
  search_inv blk fs hmax s ->
  search_inv blk fs hmax s' /\ tried s' = tried s ++ [f0 + IZR shift * delta].
Proof.
  unfold try_shift. intros H (Hin & He & Hall).
  destruct (residual blk (f0 + IZR shift * delta) fs hmax) as [[sigout energy]|e] eqn:Hr;
    cbn [bind] in H; [|discriminate].
  assert (Hnew : energy_at blk fs hmax (f0 + IZR shift * delta) = Some energy)
    by (unfold energy_at; rewrite Hr; reflexivity).
  destruct (Rlt_dec energy (best_energy s)) as [Hlt|Hge];
    injection H as <-; unfold search_inv; cbn [best_f best_energy tried];
    (split; [|reflexivity]).
  - split; [apply in_or_app; right; left; reflexivity|].
    split; [exact Hnew|].
    intros f' Hf'. apply in_app_or in Hf' as [Hf'|[<-|[]]].
    + destruct (Hall f' Hf') as (e' & E1 & E2). exists e'. split; [exact E1|lra].
    + exists energy. split; [exact Hnew|lra].
  - split; [apply in_or_app; left; exact Hin|].
    split; [exact He|].
    intros f' Hf'. apply in_app_or in Hf' as [Hf'|[<-|[]]].
    + exact (Hall f' Hf').
    + exists energy. split; [exact Hnew|lra].
Qed.

Lemma try_shifts_inv (f0 delta : R) (l : list Z) (s s' : search_state) :
  for_each (try_shift blk fs hmax f0 delta) l s = Return s' ->
  search_inv blk fs hmax s ->
  search_inv blk fs hmax s' /\
  tried s' = tried s ++ map (fun shift => f0 + IZR shift * delta) l.
Proof.
  revert s. induction l as [|shift l IH]; intros s H Hinv; cbn [for_each] in H.
  - injection H as <-. split; [exact Hinv|]. cbn [map]. now rewrite app_nil_r.
  - destruct (try_shift blk fs hmax f0 delta s shift) as [s1|e] eqn:H1;
      cbn [bind] in H; [|discriminate].
    destruct (try_shift_inv _ _ _ _ _ H1 Hinv) as [Hinv1 Ht1].
    destruct (IH s1 H Hinv1) as [Hinv' Ht'].
    split; [exact Hinv'|]. rewrite Ht', Ht1, <- app_assoc. reflexivity.
Qed.

Lemma shifts_for_shifts (delta : PySet.pyfloat) : shifts_for delta = shifts.
Proof.
  unfold shifts_for. destruct (PySet.pyfloat_eqb delta PySet.lit_0_01); reflexivity.
Qed.

Lemma refine_inv (s s' : search_state) (delta : PySet.pyfloat) :
  refine blk fs hmax s delta = Return s' ->
  search_inv blk fs hmax s ->
  search_inv blk fs hmax s' /\ tried s' = tried s ++ candidates_at (best_f s) delta.
Proof.
  unfold refine. rewrite shifts_for_shifts. apply try_shifts_inv.
Qed.

Lemma deltas_coarse_to_fine : deltas = [PySet.lit_0_1; PySet.lit_0_01].
Proof. vm_compute. reflexivity. Qed.

Lemma search_inv_minimises (s : search_state) :
  search_inv blk fs hmax s -> minimises blk fs hmax (best_f s) (tried s).
Proof.
  intros (Hin & He & Hall). split; [exact Hin|].
  exists (best_energy s). split; [exact He|exact Hall].
Qed.

Lemma powerRZ_2_neg (p : positive) : powerRZ 2 (Z.neg p) = / IZR (2 ^ Z.pos p).
Proof.
  cbn [powerRZ]. f_equal. rewrite <- (positive_nat_Z p) at 1.
  rewrite <- pow_IZR. reflexivity.
Qed.

Lemma value_lit_0_1 : Rabs (PySet.value PySet.lit_0_1 - 0.1) < 1 / 10 ^ 17.
Proof.
  unfold PySet.value, PySet.lit_0_1. cbn [PySet.mant PySet.expo].
  rewrite powerRZ_2_neg.
  replace (2 ^ 55)%Z with 36028797018963968%Z by reflexivity.
  apply Rabs_def1; lra.
Qed.

Lemma value_lit_0_01 : Rabs (PySet.value PySet.lit_0_01 - 0.01) < 1 / 10 ^ 17.
Proof.
  unfold PySet.value, PySet.lit_0_01. cbn [PySet.mant PySet.expo].
  rewrite powerRZ_2_neg.
  replace (2 ^ 59)%Z with 576460752303423488%Z by reflexivity.
  apply Rabs_def1; lra.
Qed.

Lemma search_inv_steps (enf : R) (s : search_state) :
  search blk fs enf hmax = Return s ->
  exists s1,
    search_inv blk fs hmax s1 /\
    tried s1 = [enf] ++ candidates_at enf PySet.lit_0_1 /\
    search_inv blk fs hmax s /\
    tried s = tried s1 ++ candidates_at (best_f s1) PySet.lit_0_01.
Proof.
  unfold search. intros H.
  destruct (residual blk enf fs hmax) as [[sigout energy]|e] eqn:Hr;
    cbn [bind] in H; [|discriminate].
  rewrite deltas_coarse_to_fine in H. cbn [for_each] in H.
  set (s0 := mkSearch enf sigout energy [enf]) in H.
  assert (Hinv0 : search_inv blk fs hmax s0).
  { assert (He : energy_at blk fs hmax enf = Some energy)
      by (unfold energy_at; rewrite Hr; reflexivity).
    unfold search_inv, s0. cbn [best_f best_energy tried].
    split; [left; reflexivity|]. split; [exact He|].
    intros f' [<-|[]]. exists energy. split; [exact He|lra]. }
  destruct (refine blk fs hmax s0 PySet.lit_0_1) as [s1|e] eqn:H1;
    cbn [bind] in H; [|discriminate].
  destruct (refine blk fs hmax s1 PySet.lit_0_01) as [s2|e] eqn:H2;
    cbn [bind] in H; [|discriminate].
  injection H as <-.
  destruct (refine_inv _ _ _ H1 Hinv0) as [Hinv1 Ht1].
  destruct (refine_inv _ _ _ H2 Hinv1) as [Hinv2 Ht2].
  exists s1. repeat split; try assumption; apply Hinv1 || apply Hinv2.
Qed.

(** C2: the step sizes are tried in the order 0.1, 0.01; each step tries the
    18 shifted candidates around the best frequency so far, which has the
    least residual energy of all the frequencies tried before; the
    refinement of a block solves 2 x 18 regressions. *)
Theorem search_coarse_to_fine (enf : R) (s : search_state) :
  search blk fs enf hmax = Return s ->
  deltas = [PySet.lit_0_1; PySet.lit_0_01] /\
  Rabs (PySet.value PySet.lit_0_1 - 0.1) < 1 / 10 ^ 17 /\
  Rabs (PySet.value PySet.lit_0_01 - 0.01) < 1 / 10 ^ 17 /\
  exists f1,
    tried s = [enf] ++ candidates_at enf PySet.lit_0_1
                    ++ candidates_at f1 PySet.lit_0_01 /\
    minimises blk fs hmax f1 ([enf] ++ candidates_at enf PySet.lit_0_1) /\
    minimises blk fs hmax (best_f s) (tried s) /\
    length (candidates_at enf PySet.lit_0_1 ++ candidates_at f1 PySet.lit_0_01)
    = (2 * 18)%nat.
Proof.
  intros H. split; [exact deltas_coarse_to_fine|].
  split; [exact value_lit_0_1|]. split; [exact value_lit_0_01|].
  destruct (search_inv_steps enf s H) as (s1 & Hinv1 & Ht1 & Hinv & Ht).
  exists (best_f s1). split.
  - rewrite Ht, Ht1, <- app_assoc. reflexivity.
  - split; [rewrite <- Ht1; apply search_inv_minimises; exact Hinv1|].
    split; [apply search_inv_minimises; exact Hinv|].
    reflexivity.
Qed.

End Search.

(** ** An all-zero signal *)

Section ZeroSignal.

Import Np Linalg Dehumming Terms.
Open Scope R_scope.

Lemma firstn_zeros (k n : nat) : firstn k (zeros n) = zeros (Nat.min k n).
Proof.
  unfold zeros. revert n. induction k as [|k IH]; intros [|n]; simpl; auto.
  now rewrite IH.
Qed.

Lemma skipn_zeros (k n : nat) : skipn k (zeros n) = zeros (n - k).
Proof.
  unfold zeros. revert n. induction k as [|k IH]; intros [|n]; simpl; auto.
Qed.

Lemma zeros_app (m n : nat) : zeros m ++ zeros n = zeros (m + n).
Proof. unfold zeros. symmetry. apply repeat_app. Qed.

Lemma length_zeros (n : nat) : length (zeros n) = n.
Proof. apply repeat_length. Qed.

Lemma py_slice_zeros (n : nat) (a b : Z) :
  (0 <= a <= b)%Z -> (b <= Z.of_nat n)%Z ->
  py_slice (zeros n) a b = zeros (Z.to_nat (b - a)).
Proof.
  intros Hab Hb. rewrite py_slice_in_range by (rewrite ?length_zeros; lia).
  rewrite skipn_zeros, firstn_zeros. f_equal. lia.
Qed.

Lemma map2_zeros_l (f : R -> R -> R) (n : nat) (w : list R) :
  (forall y, f 0 y = 0) -> map2 f (zeros n) w = zeros (Nat.min n (length w)).
Proof.
  intros Hf. unfold zeros. revert w.
  induction n as [|n IH]; intros [|y w]; simpl; auto.
  now rewrite IH, Hf.
Qed.

Lemma map2_zeros_zeros (f : R -> R -> R) (n : nat) :
  f 0 0 = 0 -> map2 f (zeros n) (zeros n) = zeros n.
Proof.
  intros Hf. unfold zeros. induction n as [|n IH]; simpl; auto.
  now rewrite IH, Hf.
Qed.

Lemma length_transpose (ncols : nat) (A : matrix) :
  length (transpose ncols A) = ncols.
Proof. unfold transpose. now rewrite length_map, length_seq. Qed.

(** The fit to an all-zero block is all-zero, whenever the system can be
    solved. *)
Lemma single_estimate_zeros (n : nat) (f fs : R) (hmax : Z) (v : list R) :
  single_estimate (zeros n) f fs hmax = Return v -> v = zeros n.
Proof.
  unfold single_estimate.
  destruct (hmax <? 0)%Z; [discriminate|].
  destruct (Req_dec_T fs 0); [discriminate|].
  rewrite length_zeros.
  set (h := Z.to_nat hmax).
  set (X := map (map cos) (transpose n _)).
  set (XT := transpose (h + h) X).
  rewrite matvec_zeros.
  destruct (solve (matmul (h + h) XT X) (zeros (length XT))) as [theta|e] eqn:Hs;
    cbn [bind]; [|discriminate].
  intros [= <-].
  apply solve_homogeneous in Hs. rewrite Hs, matvec_zeros.
  f_equal. unfold X. rewrite length_map. apply length_transpose.
Qed.

Lemma residual_zeros (n : nat) (f fs : R) (hmax : Z) (v : list R) :
  single_estimate (zeros n) f fs hmax = Return v ->
  residual (zeros n) f fs hmax = Return (zeros n, 0).
Proof.
  intros H. unfold residual. rewrite H. cbn [bind].
  apply single_estimate_zeros in H. subst v.
  rewrite binop_same_length by reflexivity. cbn [bind].
  rewrite map2_zeros_zeros by lra.
  unfold dot. rewrite Nat.eqb_refl. cbn [bind].
  rewrite sum_map2_zeros. reflexivity.
Qed.

Lemma try_shifts_zeros (n : nat) (fs : R) (hmax : Z) (enf f0 delta : R)
  (l : list Z) (tr : list R) :
  (forall shift, In shift l ->
     exists v, single_estimate (zeros n) (f0 + IZR shift * delta) fs hmax = Return v) ->
  for_each (try_shift (zeros n) fs hmax f0 delta) l (mkSearch enf (zeros n) 0 tr) =
  Return (mkSearch enf (zeros n) 0
            (tr ++ map (fun shift => f0 + IZR shift * delta) l)).
Proof.
  revert tr. induction l as [|shift l IH]; intros tr H; cbn [for_each map].
  - now rewrite app_nil_r.
  - destruct (H shift (or_introl eq_refl)) as [v Hv].
    unfold try_shift at 1. rewrite (residual_zeros _ _ _ _ _ Hv).
    cbn [bind best_energy best_f best_sigout tried].
    destruct (Rlt_dec 0 0) as [?|_]; [lra|]. cbn [bind].
    rewrite IH by (intros; apply H; right; assumption).
    rewrite <- app_assoc. reflexivity.
Qed.

(** On an all-zero block no candidate has strictly less energy than the
    nominal frequency, which stays the best. *)
Lemma search_zeros (n : nat) (fs enf : R) (hmax : Z) :
  (forall f, In f (candidates enf) ->
     exists v, single_estimate (zeros n) f fs hmax = Return v) ->
  search (zeros n) fs enf hmax =
  Return (mkSearch enf (zeros n) 0 (candidates enf)).
Proof.
  intros H. unfold search.
  destruct (H enf (or_introl eq_refl)) as [v Hv].
  rewrite (residual_zeros _ _ _ _ _ Hv). cbn [bind].
  rewrite deltas_coarse_to_fine. cbn [for_each].
  unfold refine at 1. rewrite shifts_for_shifts. cbn [best_f].
  rewrite try_shifts_zeros.
  2:{ intros shift Hs. apply H. unfold candidates.
      apply in_or_app. right. apply in_or_app. left.
      unfold candidates_at. apply in_map_iff. exists shift. auto. }
  cbn [bind]. unfold refine. rewrite shifts_for_shifts. cbn [best_f].
  rewrite try_shifts_zeros.
  2:{ intros shift Hs. apply H. unfold candidates.
      apply in_or_app. right. apply in_or_app. right.
      unfold candidates_at. apply in_map_iff. exists shift. auto. }
  cbn [bind]. unfold candidates, candidates_at. rewrite <- app_assoc. reflexivity.
Qed.

Lemma py_setitem_zero_state (enf : R) (len k : nat) :
  (k < len)%nat ->
  py_setitem (repeat enf k ++ zeros (len - k)) (Z.of_nat k) enf =
  Return (repeat enf (S k) ++ zeros (len - S k)).
Proof.
  intros Hk. unfold py_setitem. cbv zeta.
  rewrite length_app, repeat_length, length_zeros.
  destruct (Z.ltb_spec (Z.of_nat k) 0) as [?|_]; [lia|].
  destruct (Z.ltb_spec (Z.of_nat k) 0) as [?|_]; [lia|].
  destruct (Z.leb_spec (Z.of_nat (k + (len - k))) (Z.of_nat k)) as [?|_]; [lia|].
  cbn [orb]. rewrite Nat2Z.id. f_equal.
  rewrite firstn_app, repeat_length, Nat.sub_diag, firstn_O, app_nil_r.
  rewrite firstn_all2 by (rewrite repeat_length; lia).
  rewrite skipn_app, repeat_length.
  rewrite skipn_all2 by (rewrite repeat_length; lia).
  replace (S k - k)%nat with 1%nat by lia.
  replace (len - k)%nat with (S (len - S k)) by lia.
  cbn [zeros repeat skipn app].
  rewrite app_comm_cons, repeat_cons, <- app_assoc. reflexivity.
Qed.

Lemma process_block_zeros (tmax : nat) (window : list R) (fs enf : R)
  (hmax blklen : Z) (len k : nat) (tmid : Z) :
  Z.of_nat (length window) = blklen ->
  (k < len)%nat ->
  (let '(tstart, tstop, wstart, wstop) :=
     block_bounds (Z.of_nat tmax) blklen tmid in
   (0 <= tstart <= tstop)%Z /\ (tstop <= Z.of_nat tmax)%Z /\
   (tstop - tstart = wstop - wstart)%Z /\
   (0 <= wstart <= wstop)%Z /\ (wstop <= blklen)%Z /\
   forall f, In f (candidates enf) ->
     exists v, single_estimate (zeros (Z.to_nat (tstop - tstart))) f fs hmax
               = Return v) ->
  process_block (zeros tmax) window fs enf hmax blklen
                (zero_state tmax enf len k) tmid =
  Return (zero_state tmax enf len (S k)).
Proof.
  intros Hw Hk. unfold process_block. rewrite length_zeros.
  destruct (block_bounds (Z.of_nat tmax) blklen tmid)
    as [[[tstart tstop] wstart] wstop].
  intros (Ht1 & Ht2 & Heq & Hw1 & Hw2 & Hsolv).
  rewrite py_slice_zeros by lia.
  rewrite (search_zeros _ _ _ _ Hsolv). cbn [bind best_sigout best_f tried].
  assert (Hlw : length (py_slice window wstart wstop) = Z.to_nat (tstop - tstart)).
  { rewrite length_py_slice_in_range by lia. f_equal. lia. }
  rewrite binop_same_length by (rewrite length_zeros, Hlw; reflexivity).
  cbn [bind]. rewrite map2_zeros_l by (intros; lra).
  rewrite Hlw, Nat.min_id.
  unfold zero_state. cbn [result freq kf solves].
  rewrite slice_iop_in_range
    by (rewrite ?length_zeros; lia).
  cbn [bind]. rewrite py_slice_zeros by lia.
  rewrite map2_zeros_zeros by lra.
  rewrite firstn_zeros, skipn_zeros, !zeros_app.
  rewrite py_setitem_zero_state by assumption. cbn [bind].
  f_equal. f_equal.
  - f_equal. lia.
  - lia.
  - symmetry. apply repeat_cons.
Qed.

Lemma block_loop_zeros (tmax : nat) (window : list R) (fs enf : R)
  (hmax blklen : Z) (len : nat) (centres : list Z) (k : nat) :
  Z.of_nat (length window) = blklen ->
  (k + length centres <= len)%nat ->
  (forall tmid, In tmid centres ->
     let '(tstart, tstop, wstart, wstop) :=
       block_bounds (Z.of_nat tmax) blklen tmid in
     (0 <= tstart <= tstop)%Z /\ (tstop <= Z.of_nat tmax)%Z /\
     (tstop - tstart = wstop - wstart)%Z /\
     (0 <= wstart <= wstop)%Z /\ (wstop <= blklen)%Z /\
     forall f, In f (candidates enf) ->
       exists v, single_estimate (zeros (Z.to_nat (tstop - tstart))) f fs hmax
                 = Return v) ->
  for_each (process_block (zeros tmax) window fs enf hmax blklen) centres
           (zero_state tmax enf len k) =
  Return (zero_state tmax enf len (k + length centres)).
Proof.
  intros Hw. revert k.
  induction centres as [|tmid centres IH]; intros k Hk H; cbn [for_each length].
  - now rewrite Nat.add_0_r.
  - cbn [length] in Hk.
    rewrite process_block_zeros; [|assumption|lia|apply H; left; reflexivity].
    cbn [bind]. rewrite IH; [|lia|intros; apply H; right; assumption].
    f_equal. f_equal. lia.
Qed.

Lemma zero_state_0 (tmax : nat) (enf : R) (len : nat) :
  zero_state tmax enf len 0 = mkDehum (zeros tmax) (zeros len) 0 [].
Proof.
  unfold zero_state. cbn [repeat app Z.of_nat]. now rewrite Nat.sub_0_r.
Qed.

Lemma py_index_repeat_app (x : R) (k : nat) (l : list R) (i : Z) :
  (0 <= i < Z.of_nat k)%Z -> py_index (repeat x k ++ l) i = Return x.
Proof.
  intros Hi. unfold py_index.
  destruct (Z.ltb_spec i 0) as [?|_]; [lia|].
  destruct (Z.ltb_spec i 0) as [?|_]; [lia|].
  rewrite nth_error_app1 by (rewrite repeat_length; lia).
  rewrite nth_error_repeat by lia. reflexivity.
Qed.

(** C9, as the code has it: for an even block length of two or more and a
    harmonic count of one or more, if the regression of every block can be
    solved at every frequency tried, then [dehummer] returns an all-zero
    signal for an all-zero signal, has written the nominal frequency for
    every block, and has tried only the candidates around the nominal
    frequency: a tie in residual energy does not displace it. *)
Theorem dehummer_zero_signal (tmax : nat) (fs enf : R) (hmax blklen : Z) :
  enf <> 0 -> (2 <= blklen)%Z -> (blklen mod 2 = 0)%Z ->
  (1 <= Z.min hmax (py_int (0.5 * fs / enf)))%Z ->
  regressions_solvable (Z.of_nat tmax) blklen fs enf
                       (Z.min hmax (py_int (0.5 * fs / enf))) ->
  exists st,
    dehummer (zeros tmax) fs enf hmax blklen = Return st /\
    result st = zeros tmax /\
    (kf st = Z.of_nat (length (block_lengths (Z.of_nat tmax) blklen)) /\
     forall i, (0 <= i < kf st)%Z -> py_index (freq st) i = Return enf) /\
    Forall (fun tr => tr = candidates enf) (solves st).
Proof.
  intros Henf Hb Heven Hh Hsolv.
  set (hmax' := Z.min hmax (py_int (0.5 * fs / enf))) in *.
  destruct (block_bounds_ok (Z.of_nat tmax) blklen) as (centres & Hc & Hlen & Hall);
    try assumption; [lia|].
  set (len := Z.to_nat (freq_len (Z.of_nat tmax) blklen)).
  exists (zero_state tmax enf len (length centres)).
  split; [|split; [reflexivity|split; [split|]]].
  - unfold dehummer.
    destruct (Req_dec_T enf 0) as [?|_]; [contradiction|].
    rewrite (make_window_even blklen Hb Heven). cbn [bind]. fold hmax'.
    destruct (Z.eqb_spec hmax' 0) as [?|_]; [lia|].
    rewrite length_zeros.
    destruct (Z.eqb_spec blklen 0) as [?|_]; [lia|].
    destruct (Z.ltb_spec (freq_len (Z.of_nat tmax) blklen) 0) as [?|_]; [lia|].
    rewrite Hc. cbn [bind]. fold len.
    rewrite <- (zero_state_0 tmax enf len).
    rewrite block_loop_zeros; [reflexivity| | |].
    + rewrite length_app, length_rev.
      unfold half_window. rewrite length_map, length_seq.
      assert (blklen = (2 * (blklen / 2))%Z)
        by (rewrite (Z.div_mod blklen 2) at 1 by lia; lia).
      lia.
    + unfold len. lia.
    + intros tmid Hin. specialize (Hall tmid Hin).
      destruct (block_bounds (Z.of_nat tmax) blklen tmid)
        as [[[tstart tstop] wstart] wstop] eqn:Hbb.
      destruct Hall as (H1 & H2 & H3 & H4 & H5).
      repeat split; try lia.
      intros f Hf. apply Hsolv; [|exact Hf].
      unfold block_lengths. rewrite Hc. apply in_map_iff.
      exists tmid. rewrite Hbb. split; [reflexivity|exact Hin].
  - cbn [zero_state kf]. unfold block_lengths. rewrite Hc, length_map. reflexivity.
  - cbn [zero_state kf freq]. intros i Hi. apply py_index_repeat_app. exact Hi.
  - cbn [zero_state solves]. apply Forall_forall. intros tr Hin.
    apply repeat_spec in Hin. exact Hin.
Qed.

End ZeroSignal.

(** ** Blocks of one and of two samples *)

Section SmallBlocks.

Import Np Linalg Dehumming Terms.
Open Scope R_scope.

(** A block of one sample cannot determine the two coefficients of a
    harmonic: the system of line 147 is singular. *)
Lemma single_estimate_one_sample (y f fs : R) :
  fs <> 0 -> single_estimate [y] f fs 1 = Raise LinAlgError.
Proof.
  intros Hfs. unfold single_estimate.
  cbn [Z.ltb Z.compare]. destruct (Req_dec_T fs 0) as [?|_]; [contradiction|].
  change (Z.to_nat 1) with 1%nat.
  cbn [length Nat.add seq map app transpose nth matmul matvec map2 sum].
  rewrite solve_singular; [reflexivity|reflexivity|reflexivity|].
  intros Hns.
  specialize (Hns [0; 1] eq_refl).
  cbn [length matvec map map2 sum zeros repeat] in Hns.
  assert (Hq : cos (2 * PI * f / fs * INR 1 * INR 0 + PI / 2) = 0).
  { cbn [INR]. rewrite Rmult_0_r, Rplus_0_l. apply cos_PI2. }
  rewrite Hq in Hns.
  assert (E : [0; 1] = [0; 0]) by (apply Hns; f_equal; [lra|f_equal; lra]).
  injection E as E. lra.
Qed.

(** An empty block gives the zero matrix, in floating point as well. *)
Lemma single_estimate_no_sample (f fs : R) :
  fs <> 0 -> single_estimate [] f fs 1 = Raise LinAlgError.
Proof.
  intros Hfs. unfold single_estimate.
  cbn [Z.ltb Z.compare]. destruct (Req_dec_T fs 0) as [?|_]; [contradiction|].
  change (Z.to_nat 1) with 1%nat.
  cbn [length Nat.add seq map app transpose nth matmul matvec map2 sum].
  rewrite solve_singular; [reflexivity|reflexivity|reflexivity|].
  intros Hns.
  specialize (Hns [0; 1] eq_refl).
  cbn [length matvec map map2 sum zeros repeat] in Hns.
  assert (E : [0; 1] = [0; 0]) by (apply Hns; f_equal; [lra|f_equal; lra]).
  injection E as E. lra.
Qed.

(** Two samples determine one harmonic whose frequency is neither zero nor
    the Nyquist frequency. *)
Lemma single_estimate_two_zeros (f fs : R) :
  fs <> 0 -> sin (2 * PI * f / fs) <> 0 ->
  exists v, single_estimate (zeros 2) f fs 1 = Return v.
Proof.
  intros Hfs Hsin. unfold single_estimate.
  cbn [Z.ltb Z.compare]. destruct (Req_dec_T fs 0) as [?|_]; [contradiction|].
  change (Z.to_nat 1) with 1%nat.
  cbn [zeros repeat length Nat.add seq map app transpose nth].
  set (a := 2 * PI * f / fs * INR 1).
  assert (Ha : a = 2 * PI * f / fs) by (unfold a; cbn [INR]; lra).
  assert (Hp : cos (a * INR 0) = 1) by (cbn [INR]; rewrite Rmult_0_r; apply cos_0).
  assert (Hq : cos (a * INR 0 + PI / 2) = 0)
    by (cbn [INR]; rewrite Rmult_0_r, Rplus_0_l; apply cos_PI2).
  assert (Hs : cos (a * INR 1 + PI / 2) = - sin (2 * PI * f / fs)).
  { cbn [INR]. rewrite Rmult_1_r, Ha, Rplus_comm. rewrite sin_cos. lra. }
  rewrite Hp, Hq, Hs.
  set (r := cos (a * INR 1)). set (s := sin (2 * PI * f / fs)) in *.
  cbn [matmul matvec transpose seq map nth map2 sum].
  exists (matvec [[1; 0]; [r; - s]] [0; 0]).
  rewrite (solve_returns _ _ [0; 0]); [reflexivity|reflexivity|reflexivity| |].
  - intros v Hv Hm. cbn [length] in Hv, Hm.
    destruct v as [|x [|y [|? ?]]]; try discriminate.
    cbn [matvec map map2 sum zeros repeat] in Hm |- *.
    injection Hm as H1 H2.
    assert (Hx : x * s = 0).
    { transitivity
        (s * ((1 * 1 + (r * r + 0)) * x + ((0 * 1 + (- s * r + 0)) * y + 0)) +
         r * ((1 * 0 + (r * - s + 0)) * x + ((0 * 0 + (- s * - s + 0)) * y + 0)));
        [ring | rewrite H1, H2; ring]. }
    apply Rmult_integral in Hx as [->|]; [|contradiction].
    assert (Hy : y * (s * s) = 0) by (rewrite <- H2; ring).
    apply Rmult_integral in Hy as [->|Hy]; [reflexivity|].
    apply Rmult_integral in Hy as [|]; contradiction.
  - split; [reflexivity|]. cbn [matvec map map2 sum]. f_equal; [lra|f_equal; lra].
Qed.

Lemma shifts_bounded (shift : Z) : In shift shifts -> (-9 <= shift <= 9)%Z.
Proof.
  unfold shifts. cbn [In]. intros H.
  repeat (destruct H as [<-|H]; [lia|]). contradiction.
Qed.

Lemma candidates_near (enf f : R) :
  In f (candidates enf) -> enf - 1 < f < enf + 1.
Proof.
  assert (Hs : forall shift d, In shift shifts -> Rabs (d - 0.1) < 1 / 10 ^ 17 \/
              Rabs (d - 0.01) < 1 / 10 ^ 17 -> -1 < IZR shift * d < 1).
  { intros shift d Hin Hd. apply shifts_bounded in Hin as [H1 H2].
    apply IZR_le in H1, H2.
    assert (0 < d < 0.11).
    { destruct Hd as [Hd|Hd]; apply Rabs_def2 in Hd; lra. }
    nra. }
  unfold candidates. intros Hin.
  apply in_app_or in Hin as [Hin|Hin].
  { destruct Hin as [<-|[]]. lra. }
  apply in_app_or in Hin as [Hin|Hin]; unfold candidates_at in Hin;
    apply in_map_iff in Hin as (shift & <- & Hin).
  - pose proof (Hs shift _ Hin (or_introl value_lit_0_1)). lra.
  - pose proof (Hs shift _ Hin (or_intror value_lit_0_01)). lra.
Qed.

Lemma two_sample_blocks_solvable (f : R) :
  In f (candidates 50) -> exists v, single_estimate (zeros 2) f 400 1 = Return v.
Proof.
  intros Hin. apply candidates_near in Hin.
  apply single_estimate_two_zeros; [lra|].
  apply Rgt_not_eq. apply sin_gt_0.
  - assert (0 < PI) by apply PI_RGT_0. nra.
  - assert (0 < PI) by apply PI_RGT_0. nra.
Qed.

Lemma search_coarse_to_fine_witness :
  search (zeros 2) 400 50 1 = Return (mkSearch 50 (zeros 2) 0 (candidates 50)) /\
  deltas = [PySet.lit_0_1; PySet.lit_0_01] /\
  exists f1,
    candidates 50 = [50] ++ candidates_at 50 PySet.lit_0_1
                         ++ candidates_at f1 PySet.lit_0_01 /\
    minimises (zeros 2) 400 1 50 (candidates 50).
Proof.
  assert (H : search (zeros 2) 400 50 1 =
              Return (mkSearch 50 (zeros 2) 0 (candidates 50)))
    by (apply search_zeros; exact two_sample_blocks_solvable).
  split; [exact H|].
  destruct (search_coarse_to_fine (zeros 2) 400 1 50 _ H)
    as (Hd & _ & _ & f1 & Ht & _ & Hmin & _).
  split; [exact Hd|]. exists f1. split; [exact Ht|exact Hmin].
Defined.

Lemma py_int_4 : py_int (0.5 * 400 / 50) = 4%Z.
Proof. apply py_int_nonneg; [lra|simpl; lra]. Qed.

Lemma dehummer_zero_signal_witness :
  exists st,
    dehummer (zeros 2) 400 50 1 4 = Return st /\
    result st = zeros 2 /\
    (kf st = 2%Z /\
     forall i, (0 <= i < kf st)%Z -> py_index (freq st) i = Return 50) /\
    Forall (fun tr => tr = candidates 50) (solves st).
Proof.
  apply (dehummer_zero_signal 2 400 50 1 4).
  - lra.
  - lia.
  - reflexivity.
  - rewrite py_int_4. lia.
  - rewrite py_int_4. intros n f Hn Hf.
    cbn in Hn. destruct Hn as [<-|[<-|[]]]; apply two_sample_blocks_solvable; exact Hf.
Defined.

Lemma dehummer_first_block_raises (sig : list R) (tstop wstart wstop : Z)
  (later : list Z) :
  block_centres (Z.of_nat (length sig)) 2 = Return (0%Z :: later) ->
  block_bounds (Z.of_nat (length sig)) 2 0 = (0%Z, tstop, wstart, wstop) ->
  single_estimate (py_slice sig 0 tstop) 50 400 1 = Raise LinAlgError ->
  dehummer sig 400 50 1 2 = Raise LinAlgError.
Proof.
  intros Hc Hb Hs. unfold dehummer.
  destruct (Req_dec_T 50 0) as [?|_]; [lra|].
  rewrite make_window_even by (lia || reflexivity). cbn [bind].
  rewrite py_int_4.
  change (Z.min 1 4 =? 0)%Z with false. cbv iota.
  change (2 =? 0)%Z with false. cbv iota.
  destruct (Z.ltb_spec (freq_len (Z.of_nat (length sig)) 2) 0) as [Hneg|_].
  { unfold freq_len in Hneg.
    assert (0 <= 2 * Z.of_nat (length sig) / 2)%Z by (apply Z.div_pos; lia). lia. }
  rewrite Hc. cbn [bind for_each].
  unfold process_block at 1. rewrite Hb. cbv beta iota.
  change (Z.min 1 4) with 1%Z.
  unfold search, residual. rewrite Hs. reflexivity.
Qed.

(** The empty signal and a signal of one sample: the first block has no
    sample, or one, and line 147 raises. *)
Lemma dehummer_short_zero_signal_raises :
  (1 <= Z.min 1 (py_int (0.5 * 400 / 50)))%Z /\
  dehummer (zeros 0) 400 50 1 2 = Raise LinAlgError /\
  dehummer (zeros 1) 400 50 1 2 = Raise LinAlgError.
Proof.
  split; [rewrite py_int_4; lia|]. split.
  - apply (dehummer_first_block_raises (zeros 0) 0 1 1 []);
      [reflexivity|reflexivity|].
    apply single_estimate_no_sample. lra.
  - apply (dehummer_first_block_raises (zeros 1) 1 1 2 [1%Z]);
      [reflexivity|reflexivity|].
    apply single_estimate_one_sample. lra.
Qed.

End SmallBlocks.

(** ** The estimation of the AR model *)

Section Estimate.

Import Np Linalg Arma Terms.
Open Scope R_scope.

Lemma estimate_raises (self : Arma.t) (nbcorr : option Z) (numpsd : Z) (e : exn) :
  estimate_ar self nbcorr numpsd = Raise e ->
  estimate self nbcorr numpsd = (self, Raise e).
Proof. intros H. unfold estimate. rewrite H. reflexivity. Qed.

Lemma estimate_ma_part (self : Arma.t) (nbcorr : option Z) (numpsd : Z)
  (correl AR : list R) :
  estimate_ar self nbcorr numpsd = Return (correl, AR) ->
  ordma self <> 0%Z ->
  estimate self nbcorr numpsd = (set_AR_ self AR, Raise NotImplementedError).
Proof.
  intros H Hma. unfold estimate. rewrite H.
  change (ordma (set_AR_ self AR)) with (ordma self).
  destruct (Z.eqb_spec (ordma self) 0); [contradiction|reflexivity].
Qed.

Lemma estimate_returns (self : Arma.t) (nbcorr : option Z) (numpsd : Z)
  (correl AR : list R) (sigma2 : R) :
  estimate_ar self nbcorr numpsd = Return (correl, AR) ->
  ordma self = 0%Z ->
  noise_variance self correl AR = Return sigma2 ->
  estimate self nbcorr numpsd =
  (set_MA (set_AR_ self AR) [np_sqrt sigma2], Return tt).
Proof.
  intros H Hma Hv. unfold estimate. rewrite H.
  change (ordma (set_AR_ self AR)) with (ordma self). rewrite Hma. cbn [Z.eqb].
  change (noise_variance (set_AR_ self AR) correl AR)
    with (noise_variance self correl AR).
  rewrite Hv. reflexivity.
Qed.

(** C8, as the code has it: with a moving-average order other than zero the
    call never returns; it raises NotImplementedError after it has stored the
    AR coefficients, or the error of the AR part with the estimator
    unchanged. *)
Theorem estimate_with_ma_order (self : Arma.t) (nbcorr : option Z) (numpsd : Z) :
  ordma self <> 0%Z ->
  (exists e,
      estimate_ar self nbcorr numpsd = Raise e /\
      estimate self nbcorr numpsd = (self, Raise e)) \/
  (exists correl AR,
      estimate_ar self nbcorr numpsd = Return (correl, AR) /\
      estimate self nbcorr numpsd =
      (set_AR_ self AR, Raise NotImplementedError)).
Proof.
  intros Hma.
  destruct (estimate_ar self nbcorr numpsd) as [[correl AR]|e] eqn:H.
  - right. exists correl, AR. split; [reflexivity|].
    apply (estimate_ma_part _ _ _ correl AR); assumption.
  - left. exists e. split; [reflexivity|].
    apply estimate_raises; assumption.
Qed.

(** A one-by-one system. *)
Lemma solve_1x1 (a b : R) : a <> 0 -> solve [[a]] [b] = Return [b / a].
Proof.
  intros Ha. apply solve_returns; try reflexivity.
  - intros v Hv Hm. destruct v as [|x [|? ?]]; try discriminate.
    cbn [matvec map map2 sum length zeros repeat] in Hm |- *.
    injection Hm as Hm. f_equal.
    assert (Hx : a * x = 0) by lra.
    apply Rmult_integral in Hx as [|]; [contradiction|assumption].
  - split; [reflexivity|]. cbn [matvec map map2 sum]. f_equal. field. exact Ha.
Qed.

(** The PSD of a constant signal over four bins: all the lags of the
    correlation are equal. *)
Lemma ifft_real_dc : ifft_real [4; 0; 0; 0] 4 = Return [1; 1; 1; 1].
Proof.
  unfold ifft_real. cbn [Z.ltb Z.compare Pos.compare Pos.compare_cont].
  change (Z.to_nat 4) with 4%nat.
  cbn [length Nat.sub firstn zeros repeat app seq map map2 sum].
  assert (H0 : forall k, cos (2 * PI * INR 0 * INR k / INR 4) = 1).
  { intros k. replace (2 * PI * INR 0 * INR k / INR 4) with 0
      by (cbn [INR]; field). apply cos_0. }
  rewrite !H0. cbn [INR]. repeat f_equal; field.
Qed.

Lemma estimate_ar_ma_example :
  estimate_ar ma_example None (-1) = Return ([1; 1; 1; 1], [-1]).
Proof.
  unfold estimate_ar, correlation, ma_example.
  cbn [psd fftlen ordar ordma].
  change (py_index [[[4; 0; 0; 0]]] (-1)) with (Return [[4; 0; 0; 0]]).
  cbn [bind].
  change (py_index [[4; 0; 0; 0]] 0) with (Return [4; 0; 0; 0]).
  cbn [bind]. rewrite ifft_real_dc. cbn [bind].
  unfold yule_walker. cbn [ordar ordma].
  change (map Z.abs (arange 1 (1 - 1) (-1))) with [1%Z].
  change (take [1; 1; 1; 1] [1%Z]) with (Return [1]).
  cbn [bind].
  change (py_slice [1; 1; 1; 1] 1 (1 + 1)) with [1].
  change (py_slice [1; 1; 1; 1] (1 + 1) (1 + 1 + 1)) with [1].
  change (toeplitz [1] [1]) with [[1]].
  cbn [map]. rewrite solve_1x1 by lra. cbn [bind].
  repeat f_equal. field.
Qed.

(** The failed call is not a no-op: it has stored AR coefficients. *)
Lemma estimate_ma_example_changes_state :
  ordma ma_example <> 0%Z /\
  AR_ ma_example = None /\
  exists self',
    estimate ma_example None (-1) = (self', Raise NotImplementedError) /\
    AR_ self' = Some [-1].
Proof.
  split; [discriminate|]. split; [reflexivity|].
  exists (set_AR_ ma_example [-1]). split; [|reflexivity].
  apply (estimate_ma_part _ _ _ _ _ estimate_ar_ma_example). discriminate.
Qed.

Lemma estimate_with_ma_order_witness :
  (exists e,
      estimate_ar ma_example None (-1) = Raise e /\
      estimate ma_example None (-1) = (ma_example, Raise e)) \/
  (exists correl AR,
      estimate_ar ma_example None (-1) = Return (correl, AR) /\
      estimate ma_example None (-1) =
      (set_AR_ ma_example AR, Raise NotImplementedError)).
Proof.
  apply estimate_with_ma_order. discriminate.
Defined.

(** *** Singular systems and negative variances *)

Lemma np_sqrt_negative (x : R) : x < 0 -> np_sqrt x = NaN.
Proof.
  intros H. unfold np_sqrt. destruct (Rlt_dec x 0); [reflexivity|contradiction].
Qed.

Lemma estimate_ar_unfold (self : Arma.t) (correl : list R) (Rm : matrix) (r : vec) :
  correlation self (-1) = Return correl ->
  yule_walker self (ordar self) correl = Return (Rm, r) ->
  estimate_ar self None (-1) =
  (let! AR := solve Rm r in Return (correl, AR)).
Proof.
  intros Hc Hy. unfold estimate_ar. rewrite Hc. cbn [bind]. rewrite Hy.
  reflexivity.
Qed.

Lemma estimate_singular (self : Arma.t) (correl : list R) (Rm : matrix) (r : vec) :
  correlation self (-1) = Return correl ->
  yule_walker self (ordar self) correl = Return (Rm, r) ->
  squareb Rm = true -> length r = length Rm ->
  ~ nonsingular Rm ->
  estimate self None (-1) = (self, Raise LinAlgError).
Proof.
  intros Hc Hy Hsq Hlen Hsing. apply estimate_raises.
  rewrite (estimate_ar_unfold _ _ _ _ Hc Hy).
  rewrite solve_singular by assumption. reflexivity.
Qed.

Lemma estimate_negative (self : Arma.t) (correl : list R) (Rm : matrix) (r : vec)
  (AR : list R) (sigma2 : R) :
  ordma self = 0%Z ->
  correlation self (-1) = Return correl ->
  yule_walker self (ordar self) correl = Return (Rm, r) ->
  solve Rm r = Return AR ->
  noise_variance self correl AR = Return sigma2 ->
  sigma2 < 0 ->
  estimate self None (-1) = (set_MA (set_AR_ self AR) [NaN], Return tt).
Proof.
  intros Hma Hc Hy Hs Hv Hneg.
  rewrite <- (np_sqrt_negative sigma2 Hneg).
  apply (estimate_returns _ _ _ correl AR); try assumption.
  rewrite (estimate_ar_unfold _ _ _ _ Hc Hy), Hs. reflexivity.
Qed.

(** C3, as the code has it: a singular Toeplitz system makes the solver raise
    LinAlgError, which reaches the caller and leaves the estimator as it was;
    a negative noise variance raises nothing: the call returns with the AR
    coefficients stored and a gain that is not a number. *)
Theorem estimate_singular_or_negative
  (self : Arma.t) (correl : list R) (Rm : matrix) (r : vec) :
  ordma self = 0%Z ->
  correlation self (-1) = Return correl ->
  yule_walker self (ordar self) correl = Return (Rm, r) ->
  squareb Rm = true -> length r = length Rm ->
  (~ nonsingular Rm ->
   estimate self None (-1) = (self, Raise LinAlgError)) /\
  (forall AR sigma2,
      solve Rm r = Return AR ->
      noise_variance self correl AR = Return sigma2 ->
      sigma2 < 0 ->
      estimate self None (-1) = (set_MA (set_AR_ self AR) [NaN], Return tt)).
Proof.
  intros Hma Hc Hy Hsq Hlen. split.
  - apply (estimate_singular _ _ _ _ Hc Hy Hsq Hlen).
  - intros AR sigma2. apply (estimate_negative _ _ _ _ _ _ Hma Hc Hy).
Qed.

Lemma ifft_real_neg : ifft_real [-1; 3] 2 = Return [1; -2].
Proof.
  unfold ifft_real. cbn [Z.ltb Z.compare Pos.compare Pos.compare_cont].
  change (Z.to_nat 2) with 2%nat.
  cbn [length Nat.sub firstn zeros repeat app seq map map2 sum].
  assert (H0 : forall j k, (j * k = 0)%nat ->
            cos (2 * PI * INR j * INR k / INR 2) = 1).
  { intros j k Hjk. replace (2 * PI * INR j * INR k / INR 2) with 0.
    - apply cos_0.
    - apply Nat.eq_mul_0 in Hjk as [->| ->]; cbn [INR]; field. }
  assert (H1 : cos (2 * PI * INR 1 * INR 1 / INR 2) = -1).
  { replace (2 * PI * INR 1 * INR 1 / INR 2) with PI by (cbn [INR]; field).
    apply cos_PI. }
  rewrite !H0 by reflexivity. rewrite H1. cbn [INR]. repeat f_equal; field.
Qed.

Lemma negative_example_correlation :
  correlation negative_example (-1) = Return [1; -2].
Proof.
  unfold correlation, negative_example. cbn [psd fftlen].
  change (py_index [[[-1; 3]]] (-1)) with (Return [[-1; 3]]).
  cbn [bind].
  change (py_index [[-1; 3]] 0) with (Return [-1; 3]).
  cbn [bind]. apply ifft_real_neg.
Qed.

Lemma negative_example_system :
  yule_walker negative_example (ordar negative_example) [1; -2] =
  Return ([[1]], [- -2]).
Proof. reflexivity. Qed.

Lemma negative_example_variance :
  noise_variance negative_example [1; -2] [- -2 / 1] = Return (1 + (- -2 / 1 * -2 + 0)).
Proof. reflexivity. Qed.

(** A negative variance does not make [estimate] raise. *)
Lemma estimate_negative_variance_returns :
  exists AR sigma2,
    estimate_ar negative_example None (-1) = Return ([1; -2], AR) /\
    noise_variance negative_example [1; -2] AR = Return sigma2 /\
    sigma2 < 0 /\
    estimate negative_example None (-1) =
    (set_MA (set_AR_ negative_example AR) [NaN], Return tt).
Proof.
  exists [- -2 / 1], (1 + (- -2 / 1 * -2 + 0)).
  assert (Hs : solve [[1]] [- -2] = Return [- -2 / 1]) by (apply solve_1x1; lra).
  assert (Har : estimate_ar negative_example None (-1) =
                Return ([1; -2], [- -2 / 1])).
  { rewrite (estimate_ar_unfold _ _ _ _ negative_example_correlation
               negative_example_system), Hs. reflexivity. }
  split; [exact Har|]. split; [exact negative_example_variance|].
  split; [lra|].
  rewrite <- (np_sqrt_negative (1 + (- -2 / 1 * -2 + 0))) by lra.
  apply (estimate_returns _ _ _ _ _ _ Har eq_refl negative_example_variance).
Qed.

Lemma estimate_singular_or_negative_witness :
  (~ nonsingular [[1]] ->
   estimate negative_example None (-1) = (negative_example, Raise LinAlgError)) /\
  (forall AR sigma2,
      solve [[1]] [- -2] = Return AR ->
      noise_variance negative_example [1; -2] AR = Return sigma2 ->
      sigma2 < 0 ->
      estimate negative_example None (-1) =
      (set_MA (set_AR_ negative_example AR) [NaN], Return tt)).
Proof.
  apply (estimate_singular_or_negative negative_example [1; -2] [[1]] [- -2]).
  - reflexivity.
  - exact negative_example_correlation.
  - exact negative_example_system.
  - reflexivity.
  - reflexivity.
Defined.

(** An identically-zero PSD gives a singular system. *)
Lemma ifft_real_zero : ifft_real [0; 0] 2 = Return [0; 0].
Proof.
  unfold ifft_real. cbn [Z.ltb Z.compare Pos.compare Pos.compare_cont].
  change (Z.to_nat 2) with 2%nat.
  cbn [length Nat.sub firstn zeros repeat app seq map map2 sum].
  cbn [INR]. repeat f_equal; field.
Qed.

Lemma estimate_zero_psd :
  estimate zero_example None (-1) = (zero_example, Raise LinAlgError).
Proof.
  assert (Hc : correlation zero_example (-1) = Return [0; 0]).
  { unfold correlation, zero_example. cbn [psd fftlen].
    change (py_index [[[0; 0]]] (-1)) with (Return [[0; 0]]).
    cbn [bind].
    change (py_index [[0; 0]] 0) with (Return [0; 0]).
    cbn [bind]. apply ifft_real_zero. }
  assert (Hy : yule_walker zero_example (ordar zero_example) [0; 0] =
               Return ([[0]], [- 0])) by reflexivity.
  apply (estimate_singular zero_example [0; 0] [[0]] [- 0]);
    try reflexivity; try assumption.
  intros Hns. specialize (Hns [1] eq_refl).
  cbn [matvec map map2 sum length zeros repeat] in Hns.
  assert (E : [1] = [0]) by (apply Hns; f_equal; lra).
  injection E as E. lra.
Qed.

(** *** The estimator against its specification *)

Lemma length_ifft_real (x : list R) (n : Z) (correl : list R) :
  ifft_real x n = Return correl -> length correl = Z.to_nat n /\ (1 <= n)%Z.
Proof.
  unfold ifft_real. destruct (Z.ltb_spec n 1); [discriminate|].
  intros [= <-]. rewrite length_map, length_seq. split; [reflexivity|assumption].
Qed.

Lemma py_index_nth (l : list R) (i : nat) :
  (i < length l)%nat -> py_index l (Z.of_nat i) = Return (nth i l 0).
Proof.
  intros Hi. unfold py_index. cbv zeta.
  destruct (Z.ltb_spec (Z.of_nat i) 0) as [?|_]; [lia|].
  destruct (Z.ltb_spec (Z.of_nat i) 0) as [?|_]; [lia|].
  rewrite Nat2Z.id. rewrite (nth_error_nth' l 0 Hi). reflexivity.
Qed.

Lemma take_seq (l : list R) (a n : nat) :
  (a + n <= length l)%nat ->
  take l (map Z.of_nat (seq a n)) = Return (map (fun i => nth i l 0) (seq a n)).
Proof.
  revert a. induction n as [|n IH]; intros a H; cbn [seq map take].
  - reflexivity.
  - rewrite py_index_nth by lia. cbn [bind]. rewrite IH by lia. reflexivity.
Qed.

Lemma arange_backwards (p : nat) :
  map Z.abs (arange 0 (0 - Z.of_nat p) (-1)) = map Z.of_nat (seq 0 p).
Proof.
  unfold arange. cbn [Z.ltb Z.compare Z.opp].
  replace (Z.to_nat ((0 - (0 - Z.of_nat p) - -1 - 1) / 1)) with p
    by (rewrite Z.div_1_r; lia).
  rewrite map_map. apply map_ext. intros i. lia.
Qed.

Lemma nth_firstn_skipn (l : list R) (a n i : nat) :
  (i < n)%nat -> nth i (firstn n (skipn a l)) 0 = nth (a + i) l 0.
Proof.
  intros Hi. rewrite nth_firstn.
  destruct (Nat.ltb_spec i n); [|lia]. apply nth_skipn.
Qed.

Lemma yule_walker_spec (self : Arma.t) (correl : list R) :
  ordma self = 0%Z -> (0 <= ordar self)%Z ->
  (Z.to_nat (ordar self) < length correl)%nat ->
  yule_walker self (ordar self) correl =
  Return (spec_matrix (Z.to_nat (ordar self)) correl,
          spec_rhs (Z.to_nat (ordar self)) correl).
Proof.
  intros Hma Hp Hlen. unfold yule_walker. rewrite Hma.
  set (p := Z.to_nat (ordar self)) in *.
  replace (ordar self) with (Z.of_nat p) by (unfold p; lia).
  rewrite arange_backwards, take_seq by lia. cbn [bind].
  rewrite !py_slice_in_range by lia.
  replace (Z.to_nat (0 + Z.of_nat p - 0)) with p by lia.
  replace (Z.to_nat (0 + Z.of_nat p + 1 - (0 + 1))) with p by lia.
  change (Z.to_nat 0) with 0%nat. change (Z.to_nat (0 + 1)) with 1%nat.
  rewrite skipn_O. f_equal. f_equal.
  - unfold toeplitz, spec_matrix.
    rewrite length_firstn, length_map, length_seq.
    replace (Nat.min p (length correl)) with p by lia.
    apply map_ext_in. intros i Hi. apply in_seq in Hi.
    apply map_ext_in. intros j Hj. apply in_seq in Hj.
    destruct (Nat.leb_spec j i).
    + rewrite <- (skipn_O correl) at 1.
      rewrite nth_firstn_skipn by lia. reflexivity.
    + rewrite nth_map_seq by lia. reflexivity.
  - unfold spec_rhs.
    apply nth_ext with (d := - 0) (d' := - 0).
    + rewrite !length_map, length_firstn, length_skipn, length_seq. lia.
    + intros i Hi.
      rewrite length_map, length_firstn, length_skipn in Hi.
      rewrite map_nth, nth_firstn_skipn by lia.
      rewrite nth_map_seq by lia. reflexivity.
Qed.

Lemma sum_map2_nth (a b : list R) :
  length a = length b ->
  sum (map2 Rmult a b) =
  sum (map (fun i => nth i a 0 * nth i b 0) (seq 0 (length a))).
Proof.
  revert b. induction a as [|x a IH]; intros [|y b] H; try discriminate;
    cbn [map2 sum length seq map nth]; [reflexivity|].
  rewrite IH by (simpl in H; lia).
  rewrite <- seq_shift, map_map. reflexivity.
Qed.

Lemma noise_variance_spec (self : Arma.t) (correl AR : list R) :
  (0 <= ordar self)%Z -> (Z.to_nat (ordar self) < length correl)%nat ->
  length AR = Z.to_nat (ordar self) ->
  noise_variance self correl AR = Return (spec_variance correl AR).
Proof.
  intros Hp Hlen HAR. unfold noise_variance, spec_variance.
  assert (H0 : py_index correl 0 = Return (nth 0 correl 0))
    by (apply (py_index_nth correl 0); lia).
  rewrite H0. cbn [bind].
  rewrite py_slice_in_range by lia.
  replace (Z.to_nat (ordar self + 1 - 1)) with (length AR) by lia.
  change (Z.to_nat 1) with 1%nat.
  unfold dot. rewrite length_firstn, length_skipn.
  replace (Nat.min (length AR) (length correl - 1)) with (length AR) by lia.
  rewrite Nat.eqb_refl. cbn [bind]. do 2 f_equal.
  rewrite sum_map2_nth by (rewrite length_firstn, length_skipn; lia).
  f_equal. apply map_ext_in. intros i Hi. apply in_seq in Hi.
  rewrite nth_firstn_skipn by lia. reflexivity.
Qed.

(** C5: with [ordma = 0] and the lags [0 .. ordar] at hand, [estimate] is
    the three steps of the specification: it stores the AR coefficients and
    the gain that they give, or raises what they raise and stores nothing. *)
Theorem estimate_refines_spec (self : Arma.t) :
  ordma self = 0%Z -> (0 <= ordar self < fftlen self)%Z ->
  estimate self None (-1) =
  match spec_estimate self with
  | Return (AR, gain) => (set_MA (set_AR_ self AR) [gain], Return tt)
  | Raise e => (self, Raise e)
  end.
Proof.
  intros Hma Hp. unfold spec_estimate.
  change (spec_correl self) with (correlation self (-1)).
  destruct (correlation self (-1)) as [correl|e] eqn:Hc; cbn [bind].
  2:{ apply estimate_raises. unfold estimate_ar. rewrite Hc. reflexivity. }
  assert (Hlen : (Z.to_nat (ordar self) < length correl)%nat).
  { unfold correlation in Hc.
    destruct (py_index (psd self) (-1)) as [m|]; cbn [bind] in Hc; [|discriminate].
    destruct (py_index m 0) as [p0|]; cbn [bind] in Hc; [|discriminate].
    apply length_ifft_real in Hc as [Hc _]. lia. }
  pose proof (yule_walker_spec self correl Hma (proj1 Hp) Hlen) as Hy.
  pose proof (estimate_ar_unfold self correl _ _ Hc Hy) as Har.
  destruct (solve (spec_matrix (Z.to_nat (ordar self)) correl)
                  (spec_rhs (Z.to_nat (ordar self)) correl)) as [AR|e] eqn:Hs;
    cbn [bind] in Har |- *.
  - apply (estimate_returns _ _ _ correl AR); try assumption.
    apply noise_variance_spec; [lia|assumption|].
    apply solve_inv in Hs as (_ & _ & _ & Hx & _).
    rewrite Hx. unfold spec_matrix. now rewrite length_map, length_seq.
  - apply estimate_raises. exact Har.
Qed.

Lemma estimate_refines_spec_witness :
  estimate dc_example None (-1) =
  match spec_estimate dc_example with
  | Return (AR, gain) => (set_MA (set_AR_ dc_example AR) [gain], Return tt)
  | Raise e => (dc_example, Raise e)
  end.
Proof.
  apply estimate_refines_spec; [reflexivity|cbn; lia].
Defined.

End Estimate.

(** ** Whitening *)

Section Whitening.

Import Np Linalg Arma Preprocess Terms.
Open Scope R_scope.

(** *** The gain of lines 238-239 *)

Lemma sum_scale (g : R) (l : list R) :
  sum (map (fun x => x * g) l) = g * sum l.
Proof.
  induction l as [|x l IH]; cbn [map sum]; [lra|]. rewrite IH. lra.
Qed.

Lemma mean_scale (g : R) (l : list R) :
  mean (map (fun x => x * g) l) = g * mean l.
Proof.
  unfold mean. rewrite sum_scale, length_map. unfold Rdiv. ring.
Qed.

Lemma std_nonneg (l : list R) : 0 <= std l.
Proof. unfold std. apply sqrt_pos. Qed.

Lemma sum_squares_nonneg (c : R) (l : list R) :
  0 <= sum (map (fun v => (v - c) * (v - c)) l).
Proof.
  induction l as [|x l IH]; cbn [map sum]; [lra|].
  pose proof (Rle_0_sqr (x - c)) as H. unfold Rsqr in H. lra.
Qed.

Lemma std_scale (g : R) (l : list R) :
  0 <= g -> std (map (fun x => x * g) l) = g * std l.
Proof.
  intros Hg. unfold std. rewrite mean_scale.
  rewrite map_map.
  replace (map (fun x => (x * g - g * mean l) * (x * g - g * mean l)) l)
    with (map (fun x => x * (g * g))
              (map (fun v => (v - mean l) * (v - mean l)) l)).
  2:{ rewrite map_map. apply map_ext. intros x. ring. }
  rewrite mean_scale.
  rewrite sqrt_mult_alt by (apply Rmult_le_pos; assumption).
  rewrite sqrt_square by assumption. reflexivity.
Qed.

Lemma rescale_keeps_std (sig sigout out : list R) :
  rescale sig sigout = Signal out -> out <> [] -> std out = std sig.
Proof.
  unfold rescale. destruct sigout as [|y sigout].
  - intros [= <-] H. contradiction.
  - destruct (Req_dec_T (std (y :: sigout)) 0) as [|Hne]; [discriminate|].
    intros [= <-] _.
    change (std (map (fun x => x * (std sig / std (y :: sigout))) (y :: sigout))
            = std sig).
    rewrite std_scale.
    + field. exact Hne.
    + apply Rmult_le_pos; [apply std_nonneg|].
      apply Rlt_le, Rinv_0_lt_compat.
      pose proof (std_nonneg (y :: sigout)). lra.
Qed.

Lemma rescale_length (sig sigout out : list R) :
  rescale sig sigout = Signal out -> length out = length sigout.
Proof.
  unfold rescale. destruct sigout as [|y sigout].
  - intros [= <-]. reflexivity.
  - destruct (Req_dec_T (std (y :: sigout)) 0); [discriminate|].
    intros [= <-]. cbn [length map]. now rewrite length_map.
Qed.

Lemma length_convolve_same (a b : list R) :
  b <> [] -> length (convolve_same a b) = length a.
Proof.
  intros Hb. unfold convolve_same.
  destruct a as [|x a]; [reflexivity|].
  destruct b as [|y b]; [contradiction|].
  set (full := convolve_full (x :: a) (y :: b)).
  assert (Hf : length full = (length (x :: a) + length (y :: b) - 1)%nat).
  { unfold full, convolve_full. now rewrite length_map, length_seq. }
  rewrite length_firstn, length_skipn, Hf. cbn [length].
  assert ((S (length a) + S (length b) - 1 - S (length a)) / 2 <= length b)%nat.
  { replace (S (length a) + S (length b) - 1 - S (length a))%nat
      with (length b) by lia.
    apply Nat.Div0.div_le_upper_bound. lia. }
  lia.
Qed.

Lemma length_inverse (ar : Arma.t) (sig out : list R) :
  inverse ar sig = Return out -> length out = length sig.
Proof.
  unfold inverse. destruct (AR_ ar) as [AR|]; [|discriminate].
  intros [= <-]. apply length_convolve_same. discriminate.
Qed.

Lemma length_apply_inverse (ar : Arma.t) (zero_phase : bool) (sig out : list R) :
  apply_inverse ar zero_phase sig = Return out -> length out = length sig.
Proof.
  unfold apply_inverse. destruct zero_phase.
  - destruct (inverse ar sig) as [s1|] eqn:H1; cbn [bind]; [|discriminate].
    destruct (inverse ar (rev s1)) as [s2|] eqn:H2; cbn [bind]; [|discriminate].
    intros [= <-]. rewrite length_rev.
    apply length_inverse in H1, H2. rewrite length_rev in H2. lia.
  - apply length_inverse.
Qed.

Lemma std_nil : std [] = 0.
Proof.
  unfold std, mean. cbn [map sum length INR].
  unfold Rdiv. rewrite Rmult_0_l. apply sqrt_0.
Qed.

Lemma whiten_fit_keeps_std (sig : list R) (ordar : Z) (zero_phase : bool)
  (fftlen : Z) (P Plast : matrix) (out : list R) :
  whiten_fit sig ordar zero_phase fftlen P Plast = Return (Signal out) ->
  std sig <> 0 -> std out = std sig.
Proof.
  unfold whiten_fit.
  destruct (estimate _ None (-1)) as [ar [[]|e]]; [|discriminate].
  destruct (apply_inverse ar zero_phase sig) as [sigout|] eqn:Hi; cbn [bind];
    [|discriminate].
  intros [= Hr] Hstd.
  apply (rescale_keeps_std _ _ _ Hr).
  intros ->. apply rescale_length in Hr. apply length_apply_inverse in Hi.
  destruct sig; [apply Hstd, std_nil|]. cbn [length] in *. lia.
Qed.



Variable periodogram : R -> list R -> outcome (Z * matrix).


(** X23: with no harmonic below the Nyquist frequency the loop of lines
    205-220 does not run, and [whiten] fits the model to the periodogram as it
    is. *)
Lemma whiten_without_harmonic (fuel : nat) (sig : list R) (fs : R) (ordar : Z)
  (enf d_enf : R) (zero_phase : bool) :
  fs / 2 <= enf - d_enf ->
  whiten periodogram fuel sig fs ordar enf d_enf zero_phase =
  Some (plain_whiten periodogram sig fs ordar zero_phase).
Proof.
  intros H. unfold whiten, plain_whiten.
  destruct (periodogram fs sig) as [[fftlen P]|e]; [|reflexivity].
  cbn [bind].
  destruct fuel; cbn [notch_loop];
    (destruct (Rlt_dec (1 * (enf - d_enf)) (fs / 2)) as [Hlt|_]; [lra|reflexivity]).
Qed.

End Whitening.

Section WhiteningExamples.

Import Np Linalg Arma Preprocess Terms.
Open Scope R_scope.

Lemma estimate_dc_example :
  estimate dc_example None (-1) =
  (set_MA (set_AR_ dc_example [-1]) [np_sqrt (1 + (-1 * 1 + 0))], Return tt).
Proof.
  apply (estimate_returns _ _ _ [1; 1; 1; 1] [-1]).
  - unfold estimate_ar, correlation, dc_example. cbn [psd fftlen ordar ordma].
    change (py_index [dc_psd; dc_psd] (-1)) with (Return dc_psd).
    cbn [bind].
    change (py_index dc_psd 0) with (Return [4; 0; 0; 0]).
    cbn [bind]. rewrite ifft_real_dc. cbn [bind].
    unfold yule_walker. cbn [ordar ordma].
    change (map Z.abs (arange 0 (0 - 1) (-1))) with [0%Z].
    change (take [1; 1; 1; 1] [0%Z]) with (Return [1]).
    cbn [bind].
    change (py_slice [1; 1; 1; 1] 0 (0 + 1)) with [1].
    change (py_slice [1; 1; 1; 1] (0 + 1) (0 + 1 + 1)) with [1].
    change (toeplitz [1] [1]) with [[1]].
    cbn [map]. rewrite solve_1x1 by lra. cbn [bind].
    repeat f_equal. field.
  - reflexivity.
  - reflexivity.
Qed.


Lemma whiten_dc_example :
  whiten periodogram_dc 0 [1; 3; 2] 1 1 50 1 false =
  Some (Return (Signal (map (fun x => x * (std [1; 3; 2] / std [1; 2; -1]))
                            [1; 2; -1]))).
Proof.
  unfold whiten, periodogram_dc. cbn [notch_loop].
  destruct (Rlt_dec (1 * (50 - 1)) (1 / 2)) as [?|_]; [lra|].
  unfold whiten_fit. cbv beta zeta iota.
  change (estimate _ None (-1)) with (estimate dc_example None (-1)).
  rewrite estimate_dc_example.
  unfold apply_inverse, inverse. cbn [AR_ set_MA set_AR_ bind].
  assert (Hc : convolve_same [1; 3; 2] [1; -1] = [1; 2; -1]).
  { unfold convolve_same, convolve_full.
    cbn [length Nat.add Nat.sub seq map nth sum Nat.div Nat.divmod fst firstn skipn].
    repeat f_equal; lra. }
  rewrite Hc. unfold rescale.
  destruct (Req_dec_T (std [1; 2; -1]) 0) as [E|_]; [|reflexivity].
  exfalso. unfold std in E. apply sqrt_eq_0 in E.
  - unfold mean in E. cbn [map sum length INR] in E. lra.
  - unfold mean. cbn [map sum length INR]. lra.
Qed.



(** *** The notch of one harmonic *)

Lemma interpolation_interpolated (Amin Amax : R) (n : Z) :
  (0 <= n)%Z -> interpolation Amin Amax n = Return (interpolated Amin Amax n).
Proof.
  intros Hn. unfold interpolation, linspace.
  destruct (Z.ltb_spec n 0) as [?|_]; [lia|]. cbn [bind].
  rewrite binop_same_length by (rewrite !length_map; reflexivity).
  f_equal. unfold interpolated.
  apply nth_ext with (d := 0) (d' := 0).
  - rewrite length_map2, !length_map, length_seq. lia.
  - intros i Hi. rewrite length_map2, !length_map, length_seq in Hi.
    rewrite (nth_map2 _ _ _ i 0 0 0) by (rewrite !length_map, length_seq; lia).
    rewrite !map_map. rewrite !nth_map_seq by lia. reflexivity.
Qed.

Lemma length_interpolated (Amin Amax : R) (n : Z) :
  length (interpolated Amin Amax n) = Z.to_nat n.
Proof. unfold interpolated. now rewrite length_map, length_seq. Qed.

Lemma length_slice_assign (l : list R) (a b : Z) (src l' : list R) :
  (0 <= a <= b)%Z -> (b <= Z.of_nat (length l))%Z ->
  length src = Z.to_nat (b - a) ->
  slice_assign l a b src = Return l' -> length l' = length l.
Proof.
  intros Hab Hb Hs. rewrite slice_assign_in_range by assumption.
  intros [= <-]. rewrite !length_app, length_firstn, length_skipn. lia.
Qed.

(** When the notch starts at bin 0, the mirrored slice [psd[-kmax:-0]] is
    empty, and an interpolation of two or more bins does not fit into it. *)
Lemma notch_row_from_bin_0 (fftlen : Z) (fs enf d_enf : R) (k : Z)
  (row : list R) (kmax : Z) :
  notch_bounds fftlen fs enf d_enf k = (0%Z, kmax) ->
  (2 <= kmax)%Z -> (kmax < Z.of_nat (length row))%Z ->
  notch_row fftlen fs enf d_enf k row = Raise ValueError.
Proof.
  intros Hb Hk Hlen. unfold notch_row. rewrite Hb.
  assert (H0 : py_index row 0 = Return (nth 0 row 0))
    by (apply (py_index_nth row 0); lia).
  rewrite H0. cbn [bind].
  replace kmax with (Z.of_nat (Z.to_nat kmax)) at 1 by lia.
  rewrite py_index_nth by lia. cbn [bind].
  rewrite Z.sub_0_r, interpolation_interpolated by lia. cbn [bind].
  set (interpol := interpolated _ _ kmax).
  assert (Hi : length interpol = Z.to_nat kmax) by apply length_interpolated.
  rewrite slice_assign_in_range by (rewrite ?Z.sub_0_r; lia || assumption).
  cbn [bind].
  set (row1 := firstn _ row ++ interpol ++ skipn _ row).
  assert (H1 : length row1 = length row).
  { unfold row1. rewrite !length_app, length_firstn, length_skipn. lia. }
  unfold slice_assign, slice_len, slice_lo, py_norm. rewrite H1.
  destruct (Z.ltb_spec (- kmax) 0) as [_|?]; [|lia].
  destruct (Z.ltb_spec (- 0) 0) as [?|_]; [lia|].
  replace (Z.to_nat (Z.min (- 0) (Z.of_nat (length row)) -
                     Z.max (- kmax + Z.of_nat (length row)) 0)) with 0%nat by lia.
  unfold broadcast_to. rewrite length_rev, Hi.
  destruct (Nat.eqb_spec (Z.to_nat kmax) 0) as [?|_]; [lia|].
  destruct (rev interpol) as [|x [|y l]] eqn:Hr; try reflexivity.
  apply (f_equal (@length R)) in Hr. rewrite length_rev, Hi in Hr.
  cbn [length] in Hr. lia.
Qed.

(** A slice assignment, read back: the assigned slice holds the new values,
    and a slice before it holds what it held. *)
Lemma assigned_slice (l src : list R) (a b : nat) :
  (a <= b <= length l)%nat -> length src = (b - a)%nat ->
  firstn (b - a) (skipn a (firstn a l ++ src ++ skipn b l)) = src.
Proof.
  intros Hab Hs.
  rewrite skipn_app, length_firstn.
  replace (a - Nat.min a (length l))%nat with 0%nat by lia.
  rewrite skipn_all2 by (rewrite length_firstn; lia).
  cbn [skipn app]. rewrite firstn_app, Hs, Nat.sub_diag, firstn_O, app_nil_r.
  apply firstn_all2. lia.
Qed.

Lemma slice_before_assigned (l src : list R) (a b c d : nat) :
  (c <= d <= a)%nat -> (a <= length l)%nat ->
  firstn (d - c) (skipn c (firstn a l ++ src ++ skipn b l)) =
  firstn (d - c) (skipn c l).
Proof.
  intros Hcd Ha.
  rewrite skipn_app, length_firstn.
  replace (c - Nat.min a (length l))%nat with 0%nat by lia.
  cbn [skipn]. rewrite firstn_app, length_skipn, length_firstn.
  replace (d - c - (Nat.min a (length l) - c))%nat with 0%nat by lia.
  rewrite firstn_O, app_nil_r.
  rewrite skipn_firstn_comm, firstn_firstn. f_equal. lia.
Qed.

Lemma py_norm_mirror (len i : Z) :
  (1 <= i <= len)%Z -> py_norm len (- i) = (len - i)%Z.
Proof.
  intros H. unfold py_norm. destruct (Z.ltb_spec (- i) 0); lia.
Qed.

(** The notch of a harmonic whose first bin is not bin 0: the bins
    [kmin .. kmax-1] hold the interpolation between the values at [kmin] and
    at [kmax], and the slice [psd[-kmax:-kmin]] holds it reversed. *)
Lemma notch_row_mirrors (fftlen : Z) (fs enf d_enf : R) (k : Z)
  (row : list R) (kmin kmax : Z) :
  notch_bounds fftlen fs enf d_enf k = (kmin, kmax) ->
  (1 <= kmin <= kmax)%Z -> (2 * kmax <= Z.of_nat (length row))%Z ->
  exists row',
    notch_row fftlen fs enf d_enf k row = Return row' /\
    length row' = length row /\
    py_slice row' kmin kmax =
      interpolated (nth (Z.to_nat kmin) row 0) (nth (Z.to_nat kmax) row 0)
                   (kmax - kmin) /\
    py_slice row' (- kmax) (- kmin) =
      rev (interpolated (nth (Z.to_nat kmin) row 0) (nth (Z.to_nat kmax) row 0)
                        (kmax - kmin)).
Proof.
  intros Hb Hk Hlen. unfold notch_row. rewrite Hb. cbv beta iota.
  set (len := length row) in *.
  assert (Hmin : py_index row kmin = Return (nth (Z.to_nat kmin) row 0)).
  { rewrite <- (Z2Nat.id kmin) at 1 by lia. apply py_index_nth. fold len. lia. }
  assert (Hmax : py_index row kmax = Return (nth (Z.to_nat kmax) row 0)).
  { rewrite <- (Z2Nat.id kmax) at 1 by lia. apply py_index_nth. fold len. lia. }
  rewrite Hmin, Hmax. cbn [bind].
  rewrite interpolation_interpolated by lia. cbn [bind].
  set (interpol := interpolated _ _ (kmax - kmin)).
  assert (Hi : length interpol = Z.to_nat (kmax - kmin))
    by apply length_interpolated.
  rewrite slice_assign_in_range by (fold len; lia || assumption).
  cbn [bind].
  set (a := Z.to_nat kmin). set (b := Z.to_nat kmax).
  set (row1 := firstn a row ++ interpol ++ skipn b row).
  assert (H1 : length row1 = len).
  { unfold row1. rewrite !length_app, length_firstn, length_skipn. fold len. lia. }
  assert (Hassign : slice_assign row1 (- kmax) (- kmin) (rev interpol) =
            Return (firstn (len - b) row1 ++ rev interpol ++ skipn (len - a) row1)).
  { unfold slice_assign, slice_len, slice_lo. rewrite H1.
    rewrite !py_norm_mirror by lia.
    rewrite broadcast_to_same_length by (rewrite length_rev, Hi; lia).
    cbn [bind]. f_equal. f_equal; [f_equal; lia|]. f_equal. f_equal. lia. }
  rewrite Hassign.
  set (row2 := firstn (len - b) row1 ++ rev interpol ++ skipn (len - a) row1).
  assert (H2 : length row2 = len).
  { unfold row2. rewrite !length_app, length_firstn, length_skipn, length_rev, H1.
    lia. }
  exists row2. split; [reflexivity|]. split; [exact H2|]. split.
  - rewrite py_slice_in_range by lia.
    replace (Z.to_nat (kmax - kmin)) with (b - a)%nat by lia. fold a.
    unfold row2. rewrite slice_before_assigned by lia.
    unfold row1. apply assigned_slice; fold len; lia.
  - unfold py_slice, slice_len, slice_lo. rewrite H2.
    rewrite !py_norm_mirror by lia.
    replace (Z.to_nat (Z.of_nat len - kmin - (Z.of_nat len - kmax)))
      with ((len - a) - (len - b))%nat by lia.
    replace (Z.to_nat (Z.of_nat len - kmax)) with (len - b)%nat by lia.
    unfold row2. apply assigned_slice; rewrite ?H1, ?length_rev; lia.
Qed.

Lemma notch_bounds_high_rate : notch_bounds 1024 51200 50 1 1 = (0%Z, 2%Z).
Proof.
  unfold notch_bounds. f_equal.
  - rewrite py_int_small by lra. reflexivity.
  - rewrite (py_int_nonneg _ 1) by (simpl; lra). reflexivity.
Qed.

(** C6, where the code departs from it: for the first harmonic of the default
    50 Hz (tolerance 1 Hz) in a 1024-point spectrum of a signal sampled at
    51.2 kHz the notch starts at bin 0, the loop body runs, and line 218 stops
    [whiten] with a ValueError instead of writing the mirrored bins, whatever
    the PSD. *)
Theorem notch_high_rate_raises (fuel : nat) (row : list R) (rows : matrix) :
  length row = 1024%nat ->
  1 * (50 - 1) < 51200 / 2 /\
  notch_loop (S fuel) 1024 51200 50 1 1 (row :: rows) = Some (Raise ValueError).
Proof.
  intros Hlen. split; [lra|].
  cbn [notch_loop].
  destruct (Rlt_dec (1 * (50 - 1)) (51200 / 2)) as [_|N]; [|exfalso; lra].
  unfold notch. destruct (Req_dec_T 51200 0) as [?|_]; [lra|].
  rewrite (notch_row_from_bin_0 _ _ _ _ _ _ 2 notch_bounds_high_rate);
    [reflexivity|lia|rewrite Hlen; lia].
Qed.

Lemma notch_high_rate_raises_witness :
  1 * (50 - 1) < 51200 / 2 /\
  notch_loop 1 1024 51200 50 1 1 [repeat 1 1024] = Some (Raise ValueError).
Proof.
  apply (notch_high_rate_raises 0 (repeat 1 1024) []).
  apply repeat_length.
Defined.

End WhiteningExamples.

(** ** More on lists *)

Section ListFacts.

Lemma nth_map_in {A B : Type} (f : A -> B) (l : list A) (i : nat) (d : A) (d' : B) :
  (i < length l)%nat -> nth i (map f l) d' = f (nth i l d).
Proof.
  intros H. rewrite (nth_indep _ d' (f d)) by (rewrite length_map; exact H).
  apply map_nth.
Qed.

End ListFacts.

(** ** Odd block lengths *)

Section OddBlocks.

Import Np Dehumming.
Open Scope R_scope.

Lemma binop_mismatch (f : R -> R -> R) (a b : list R) :
  length a <> length b -> (2 <= length a)%nat -> (2 <= length b)%nat ->
  binop f a b = Raise ValueError.
Proof.
  intros Hne Ha Hb. unfold binop.
  destruct (Nat.eqb_spec (length a) (length b)) as [?|_]; [contradiction|].
  destruct a as [|x [|x' a]]; cbn [length] in Ha; try lia.
  destruct b as [|y [|y' b]]; cbn [length] in Hb; try lia.
  reflexivity.
Qed.

Lemma make_window_1 : make_window 1 = Raise ValueError.
Proof. reflexivity. Qed.

Lemma make_window_odd (blklen : Z) :
  (1 <= blklen)%Z -> (blklen mod 2 = 1)%Z -> make_window blklen = Raise ValueError.
Proof.
  intros Hb Hodd.
  assert (Hh : blklen = (2 * (blklen / 2) + 1)%Z)
    by (rewrite (Z.div_mod blklen 2) at 1 by lia; lia).
  destruct (Z.eq_dec blklen 1) as [->|N1]; [exact make_window_1|].
  destruct (Z.eq_dec blklen 3) as [->|N3]; [exact make_window_3|].
  set (h := Z.to_nat (blklen / 2)).
  assert (Hhz : (blklen / 2)%Z = Z.of_nat h) by (unfold h; lia).
  assert (Hlen : Z.to_nat blklen = (h + S h)%nat) by lia.
  unfold make_window, hamming.
  destruct (Z.ltb_spec blklen 1) as [?|_]; [lia|].
  destruct (Z.eqb_spec blklen 1) as [?|_]; [lia|].
  set (w := map (hamming_at blklen) (seq 0 (Z.to_nat blklen))).
  assert (Hw : length w = (h + S h)%nat)
    by (unfold w; rewrite length_map, length_seq; exact Hlen).
  rewrite binop_mismatch; [reflexivity| | |];
    rewrite !length_py_slice_in_range by lia; lia.
Qed.

(** X1: [dehummer] rejects every odd block length: the two halves of the
    window of lines 34-35 differ in length, and the [ValueError] comes before
    any test of the number of harmonics. *)
Theorem dehummer_odd_block_length (sig : list R) (fs enf : R) (hmax blklen : Z) :
  enf <> 0 -> (1 <= blklen)%Z -> (blklen mod 2 = 1)%Z ->
  dehummer sig fs enf hmax blklen = Raise ValueError.
Proof.
  intros Henf Hb Hodd. unfold dehummer.
  destruct (Req_dec_T enf 0) as [?|_]; [contradiction|].
  rewrite make_window_odd by assumption. reflexivity.
Qed.

Lemma dehummer_odd_block_length_witness :
  dehummer [1; 2; 3; 4; 5; 6] 400 50 5 5 = Raise ValueError.
Proof.
  apply dehummer_odd_block_length; [lra|lia|reflexivity].
Defined.

End OddBlocks.

(** ** Invariants of [for] loops *)

Section Loops.

Context {A St : Type}.

(** An invariant indexed by the number of iterations done. *)
Lemma for_each_invariant (body : St -> A -> outcome St) (I : nat -> St -> Prop)
  (l : list A) (s0 s : St) (k0 : nat) :
  for_each body l s0 = Return s ->
  I k0 s0 ->
  (forall k x s1 s2, nth_error l k = Some x -> I (k0 + k)%nat s1 ->
                     body s1 x = Return s2 -> I (S (k0 + k)) s2) ->
  I (k0 + length l)%nat s.
Proof.
  revert s0 k0. induction l as [|x l IH]; intros s0 k0 Hrun H0 Hstep.
  - injection Hrun as <-. rewrite Nat.add_0_r. exact H0.
  - cbn [for_each] in Hrun.
    destruct (body s0 x) as [s1|e] eqn:Hb; [|discriminate]. cbn [bind] in Hrun.
    cbn [length]. rewrite <- Nat.add_succ_comm.
    apply (IH s1 (S k0) Hrun).
    + specialize (Hstep 0%nat x s0 s1 eq_refl).
      rewrite Nat.add_0_r in Hstep. apply Hstep; assumption.
    + intros k y s2 s3 Hn Hi Hy.
      specialize (Hstep (S k) y s2 s3 Hn).
      rewrite <- Nat.add_succ_comm in Hstep. apply Hstep; assumption.
Qed.

Lemma for_each_progress (body : St -> A -> outcome St) (I : nat -> St -> Prop)
  (l : list A) (s0 : St) (k0 : nat) :
  I k0 s0 ->
  (forall k x s1, nth_error l k = Some x -> I (k0 + k)%nat s1 ->
                  exists s2, body s1 x = Return s2 /\ I (S (k0 + k)) s2) ->
  exists s, for_each body l s0 = Return s /\ I (k0 + length l)%nat s.
Proof.
  revert s0 k0. induction l as [|x l IH]; intros s0 k0 H0 Hstep.
  - exists s0. rewrite Nat.add_0_r. split; [reflexivity|exact H0].
  - destruct (Hstep 0%nat x s0 eq_refl) as (s1 & Hb & H1);
      [rewrite Nat.add_0_r; exact H0|].
    rewrite Nat.add_0_r in H1.
    destruct (IH s1 (S k0) H1) as (s & Hrun & Hs).
    + intros k y s2 Hn Hi.
      specialize (Hstep (S k) y s2 Hn).
      rewrite <- Nat.add_succ_comm in Hstep. apply Hstep. exact Hi.
    + exists s. cbn [for_each length]. rewrite Hb. cbn [bind].
      rewrite <- Nat.add_succ_comm. split; assumption.
Qed.

Lemma for_each_preserves (body : St -> A -> outcome St)
  (P : St -> Prop) (l : list A) (s0 s : St) :
  (forall x s1 s2, body s1 x = Return s2 -> P s1 -> P s2) ->
  for_each body l s0 = Return s -> P s0 -> P s.
Proof.
  intros Hstep. revert s0. induction l as [|x l IH]; intros s0 Hrun H0.
  - injection Hrun as <-. exact H0.
  - cbn [for_each] in Hrun.
    destruct (body s0 x) as [s1|e] eqn:Hb; [|discriminate]. cbn [bind] in Hrun.
    apply (IH s1 Hrun). eapply Hstep; eassumption.
Qed.

End Loops.

(** ** The length of the result of [dehummer] *)

Section Lengths.

Import Np Dehumming.
Open Scope R_scope.

Lemma py_norm_bounds (len i : Z) : (0 <= len -> 0 <= py_norm len i <= len)%Z.
Proof. intros H. unfold py_norm. destruct (Z.ltb_spec i 0); lia. Qed.

Lemma length_py_slice {A : Type} (l : list A) (a b : Z) :
  length (py_slice l a b) = slice_len l a b.
Proof.
  unfold py_slice, slice_len, slice_lo.
  pose proof (py_norm_bounds (Z.of_nat (length l)) a ltac:(lia)).
  pose proof (py_norm_bounds (Z.of_nat (length l)) b ltac:(lia)).
  rewrite length_firstn, length_skipn. lia.
Qed.

Lemma length_broadcast_to (src v : list R) (n : nat) :
  broadcast_to src n = Return v -> length v = n.
Proof.
  unfold broadcast_to.
  destruct (Nat.eqb_spec (length src) n) as [E|_]; [intros [= <-]; exact E|].
  destruct src as [|x [|? ?]]; try discriminate.
  intros [= <-]. apply repeat_length.
Qed.

(** An assignment to a slice never changes the length of the array. *)
Lemma length_slice_assign_any (l : list R) (a b : Z) (src l' : list R) :
  slice_assign l a b src = Return l' -> length l' = length l.
Proof.
  unfold slice_assign.
  destruct (broadcast_to src (slice_len l a b)) as [v|e] eqn:E; [|discriminate].
  cbn [bind]. intros [= <-]. apply length_broadcast_to in E.
  unfold slice_len, slice_lo in *.
  pose proof (py_norm_bounds (Z.of_nat (length l)) a ltac:(lia)).
  pose proof (py_norm_bounds (Z.of_nat (length l)) b ltac:(lia)).
  rewrite !length_app, length_firstn, length_skipn, E. lia.
Qed.

Lemma length_slice_iop (f : R -> R -> R) (l : list R) (a b : Z) (v l' : list R) :
  slice_iop f l a b v = Return l' -> length l' = length l.
Proof.
  unfold slice_iop.
  destruct (binop f (py_slice l a b) v) as [r|e]; [|discriminate]. cbn [bind].
  destruct (length r =? length (py_slice l a b))%nat; [|discriminate].
  apply length_slice_assign_any.
Qed.

Lemma length_replace_nth {A : Type} (l : list A) (n : nat) (v : A) :
  (n < length l)%nat -> length (firstn n l ++ v :: skipn (S n) l) = length l.
Proof.
  intros H. rewrite length_app, length_firstn.
  change (length (v :: skipn (S n) l)) with (S (length (skipn (S n) l))).
  rewrite length_skipn. lia.
Qed.

Lemma length_py_setitem {A : Type} (l : list A) (i : Z) (v : A) (l' : list A) :
  py_setitem l i v = Return l' -> length l' = length l.
Proof.
  unfold py_setitem.
  set (j := if (i <? 0)%Z then (i + Z.of_nat (length l))%Z else i).
  destruct ((j <? 0)%Z || (Z.of_nat (length l) <=? j)%Z) eqn:E; [discriminate|].
  apply orb_false_elim in E as [E1 E2].
  apply Z.ltb_ge in E1. apply Z.leb_gt in E2.
  intros [= <-]. apply length_replace_nth. lia.
Qed.

Lemma process_block_inv (sig window : list R) (fs enf : R) (hmax blklen : Z)
  (st st' : dehum_state) (tmid : Z) :
  process_block sig window fs enf hmax blklen st tmid = Return st' ->
  exists s,
    (let '(tstart, tstop, _, _) :=
       block_bounds (Z.of_nat (length sig)) blklen tmid in
     search (py_slice sig tstart tstop) fs enf hmax = Return s) /\
    length (result st') = length (result st) /\
    py_setitem (freq st) (kf st) (best_f s) = Return (freq st') /\
    kf st' = (kf st + 1)%Z /\
    solves st' = solves st ++ [tried s].
Proof.
  unfold process_block.
  destruct (block_bounds _ _ _) as [[[tstart tstop] wstart] wstop].
  destruct (search _ _ _ _) as [s|e]; [|discriminate]. cbn [bind].
  destruct (binop _ _ _) as [weighted|e]; [|discriminate]. cbn [bind].
  destruct (slice_iop _ _ _ _ _) as [result'|e] eqn:Hr; [|discriminate]. cbn [bind].
  destruct (py_setitem _ _ _) as [freq'|e] eqn:Hf; [|discriminate]. cbn [bind].
  intros [= <-]. exists s. cbn [result freq kf solves].
  split; [reflexivity|]. split; [eapply length_slice_iop; exact Hr|].
  split; [exact Hf|]. split; reflexivity.
Qed.

(** X2: whenever [dehummer] returns, the result has as many samples as the
    input, whatever the block length and the number of harmonics. *)
Theorem dehummer_keeps_length (sig : list R) (fs enf : R) (hmax blklen : Z)
  (st : dehum_state) :
  dehummer sig fs enf hmax blklen = Return st ->
  length (result st) = length sig.
Proof.
  unfold dehummer.
  destruct (Req_dec_T enf 0) as [?|_]; [discriminate|].
  destruct (make_window blklen) as [window|e]; [|discriminate]. cbn [bind].
  destruct (_ =? 0)%Z; [intros [= <-]; reflexivity|].
  destruct (blklen =? 0)%Z; [discriminate|].
  destruct (_ <? 0)%Z; [discriminate|].
  destruct (block_centres _ _) as [centres|e]; [|discriminate]. cbn [bind].
  intros Hrun.
  apply (for_each_invariant _ (fun _ s => length (result s) = length sig)
           _ _ _ 0%nat) in Hrun; [exact Hrun| |].
  - cbn [result]. apply repeat_length.
  - intros k x s1 s2 _ H1 Hb. apply process_block_inv in Hb as (s & _ & Hl & _).
    lia.
Qed.

End Lengths.

(** ** A complete run *)

Section Runs.

Import Np Dehumming Terms.
Open Scope R_scope.

(** A complete run on two zero samples with blocks of four. *)
Lemma dehummer_two_zeros :
  dehummer (zeros 2) 400 50 1 4 = Return (zero_state 2 50 3 2).
Proof.
  unfold dehummer.
  destruct (Req_dec_T 50 0) as [?|_]; [lra|].
  rewrite (make_window_even 4) by (lia || reflexivity). cbn [bind].
  rewrite py_int_4.
  change (Z.min 1 4 =? 0)%Z with false. cbv iota.
  change (4 =? 0)%Z with false. cbv iota.
  change (freq_len (Z.of_nat (length (zeros 2))) 4 <? 0)%Z with false. cbv iota.
  change (block_centres (Z.of_nat (length (zeros 2))) 4) with (Return [0%Z; 2%Z]).
  cbn [bind].
  change (Z.to_nat (freq_len (Z.of_nat (length (zeros 2))) 4)) with 3%nat.
  change (length (zeros 2)) with 2%nat.
  rewrite <- (zero_state_0 2 50 3).
  rewrite block_loop_zeros; [reflexivity| | |].
  - rewrite length_app, length_rev.
    unfold half_window. rewrite length_map, length_seq. reflexivity.
  - cbn [length]. lia.
  - intros tmid [<-|[<-|[]]]; cbn; (repeat split; try lia);
      intros f Hf; apply two_sample_blocks_solvable; exact Hf.
Qed.

Lemma dehummer_keeps_length_witness :
  length (result (zero_state 2 50 3 2)) = length (zeros 2).
Proof.
  apply (dehummer_keeps_length (zeros 2) 400 50 1 4). exact dehummer_two_zeros.
Defined.

End Runs.

(** ** The frequency track *)

Section FrequencyTrack.

Import Np Dehumming Terms.
Open Scope R_scope.

Lemma candidates_at_near (f0 f : R) (delta : PySet.pyfloat) (d : R) :
  Rabs (PySet.value delta - d) < 1 / 10 ^ 17 -> 0 < d ->
  In f (candidates_at f0 delta) -> Rabs (f - f0) <= 9 * (d + 1 / 10 ^ 17).
Proof.
  intros Hd Hpos Hin. unfold candidates_at in Hin.
  apply in_map_iff in Hin as (shift & <- & Hin).
  apply shifts_bounded in Hin as [H1 H2]. apply IZR_le in H1, H2.
  apply Rabs_def2 in Hd. apply Rabs_le.
  assert (0 < 1 / 10 ^ 17) by lra.
  set (v := PySet.value delta) in *. set (e := 1 / 10 ^ 17) in *.
  assert (- (d + e) < v < d + e) by lra.
  split; nra.
Qed.

(** The two refinements move the frequency by at most nine steps each. *)
Lemma search_near_nominal (blk : list R) (fs enf : R) (hmax : Z) (s : search_state) :
  search blk fs enf hmax = Return s -> Rabs (best_f s - enf) < 1.
Proof.
  intros Hs.
  destruct (search_inv_steps blk fs hmax enf s Hs) as (s1 & I1 & T1 & I & T).
  destruct I1 as (In1 & _). destruct I as (In2 & _).
  assert (B1 : forall f, In f (tried s1) -> Rabs (f - enf) <= 9 * (0.1 + 1 / 10 ^ 17)).
  { intros f Hf. rewrite T1 in Hf. apply in_app_or in Hf as [[<-|[]]|Hf].
    - replace (enf - enf) with 0 by ring. rewrite Rabs_R0. lra.
    - apply (candidates_at_near enf f PySet.lit_0_1 0.1);
        [exact value_lit_0_1|lra|exact Hf]. }
  rewrite T in In2. apply in_app_or in In2 as [Hf|Hf].
  - apply B1 in Hf. lra.
  - apply (candidates_at_near _ _ PySet.lit_0_01 0.01) in Hf;
      [|exact value_lit_0_01|lra].
    specialize (B1 _ In1).
    replace (best_f s - enf) with ((best_f s - best_f s1) + (best_f s1 - enf)) by ring.
    eapply Rle_lt_trans; [apply Rabs_triang|]. lra.
Qed.

(** X3: the frequency that the search of a block settles on is less than 1 Hz
    away from the nominal frequency. *)
Theorem search_stays_near (blk : list R) (fs enf : R) (hmax : Z) (s : search_state) :
  search blk fs enf hmax = Return s -> Rabs (best_f s - enf) < 1.
Proof. apply search_near_nominal. Qed.

Lemma search_stays_near_witness :
  Rabs (best_f (mkSearch 50 (zeros 2) 0 (candidates 50)) - 50) < 1.
Proof.
  apply (search_stays_near (zeros 2) 400 50 1).
  apply search_zeros. exact two_sample_blocks_solvable.
Defined.


Lemma py_setitem_inv {A : Type} (l : list A) (k : nat) (v : A) (l' : list A) :
  py_setitem l (Z.of_nat k) v = Return l' ->
  (k < length l)%nat /\ l' = firstn k l ++ v :: skipn (S k) l.
Proof.
  unfold py_setitem.
  destruct (Z.ltb_spec (Z.of_nat k) 0) as [?|_]; [lia|].
  destruct (Z.ltb_spec (Z.of_nat k) 0) as [?|_]; [lia|]. cbn [orb].
  destruct (Z.leb_spec (Z.of_nat (length l)) (Z.of_nat k)) as [?|Hk]; [discriminate|].
  rewrite Nat2Z.id. intros [= <-]. split; [lia|reflexivity].
Qed.

Lemma nth_replace_nth {A : Type} (l : list A) (k i : nat) (v d : A) :
  (k < length l)%nat ->
  nth i (firstn k l ++ v :: skipn (S k) l) d = if (i =? k)%nat then v else nth i l d.
Proof.
  intros Hk.
  assert (Hf : length (firstn k l) = k) by (rewrite length_firstn; lia).
  destruct (Nat.eqb_spec i k) as [->|Hne].
  - rewrite app_nth2 by lia. rewrite Hf, Nat.sub_diag. reflexivity.
  - destruct (Nat.lt_ge_cases i k) as [Hlt|Hge].
    + rewrite app_nth1 by lia. rewrite <- (firstn_skipn k l) at 2.
      rewrite app_nth1 by lia. reflexivity.
    + rewrite app_nth2 by lia. rewrite Hf.
      destruct (i - k)%nat as [|j] eqn:E; [lia|]. cbn [nth].
      rewrite nth_skipn. f_equal. lia.
Qed.

(** The number of blocks against the length of the frequency track. *)
Lemma block_count (tmax blklen : Z) (centres : list Z) :
  (0 <= tmax)%Z -> (2 <= blklen)%Z -> (blklen mod 2 = 0)%Z ->
  block_centres tmax blklen = Return centres ->
  Z.of_nat (length centres) =
  (if (tmax mod (blklen / 2) =? 0)%Z then freq_len tmax blklen - 1
   else freq_len tmax blklen)%Z.
Proof.
  intros Ht Hb Heven Hc.
  assert (Hh : blklen = (2 * (blklen / 2))%Z)
    by (rewrite (Z.div_mod blklen 2) at 1 by lia; lia).
  set (h := (blklen / 2)%Z) in *.
  assert (Hhpos : (0 < h)%Z) by lia.
  unfold block_centres in Hc. fold h in Hc.
  rewrite py_range_pos in Hc by assumption. injection Hc as <-.
  rewrite length_map, length_seq. unfold freq_len.
  replace (2 * tmax / blklen)%Z with (tmax / h)%Z.
  2:{ rewrite Hh. rewrite Z.div_mul_cancel_l by lia. reflexivity. }
  pose proof (Z.div_mod tmax h ltac:(lia)) as Hdm.
  pose proof (Z.mod_pos_bound tmax h Hhpos) as Hr.
  set (q := (tmax / h)%Z) in *. set (r := (tmax mod h)%Z) in *.
  assert (0 <= q)%Z by (apply Z.div_pos; lia).
  assert (E : ((tmax + h - 0 + h - 1) / h =
               if (r =? 0) then 2 + q - 1 else 2 + q)%Z).
  { destruct (Z.eqb_spec r 0) as [Hz|Hnz].
    - symmetry. apply (Z.div_unique _ _ _ (h - 1)); lia.
    - symmetry. apply (Z.div_unique _ _ _ (r - 1)); lia. }
  rewrite E. destruct (r =? 0)%Z; lia.
Qed.

(** X4: the frequency track of a complete run: one entry per block, each less
    than 1 Hz away from the nominal frequency; the track has one more entry,
    left at zero, exactly when half the block length divides the length of
    the signal. *)
Theorem dehummer_frequency_track (sig : list R) (fs enf : R) (hmax blklen : Z)
  (st : dehum_state) :
  dehummer sig fs enf hmax blklen = Return st ->
  Z.min hmax (py_int (0.5 * fs / enf)) <> 0%Z ->
  (2 <= blklen)%Z -> (blklen mod 2 = 0)%Z ->
  let tmax := Z.of_nat (length sig) in
  Z.of_nat (length (freq st)) = freq_len tmax blklen /\
  kf st = (if (tmax mod (blklen / 2) =? 0)%Z then freq_len tmax blklen - 1
           else freq_len tmax blklen)%Z /\
  (forall i, (0 <= i < kf st)%Z ->
     exists f, py_index (freq st) i = Return f /\ Rabs (f - enf) < 1) /\
  (forall i, (kf st <= i < freq_len tmax blklen)%Z ->
     py_index (freq st) i = Return 0).
Proof.
  intros Hrun Hh Hb Heven tmax. unfold dehummer in Hrun.
  destruct (Req_dec_T enf 0) as [?|_]; [discriminate|].
  destruct (make_window blklen) as [window|e]; [|discriminate]. cbn [bind] in Hrun.
  destruct (Z.eqb_spec (Z.min hmax (py_int (0.5 * fs / enf))) 0) as [?|_];
    [contradiction|].
  destruct (blklen =? 0)%Z; [discriminate|]. fold tmax in Hrun.
  destruct (Z.ltb_spec (freq_len tmax blklen) 0) as [?|Hlen]; [discriminate|].
  destruct (block_centres tmax blklen) as [centres|e] eqn:Hc; [|discriminate].
  cbn [bind] in Hrun.
  pose proof (block_count tmax blklen centres ltac:(lia) Hb Heven Hc) as Hcount.
  set (L := Z.to_nat (freq_len tmax blklen)) in *.
  apply (for_each_invariant _
           (fun k s =>
              kf s = Z.of_nat k /\ length (freq s) = L /\
              (forall i, (i < k)%nat -> Rabs (nth i (freq s) 0 - enf) < 1) /\
              (forall i, (k <= i)%nat -> nth i (freq s) 0 = 0))
           _ _ _ 0%nat) in Hrun.
  - cbn [plus] in Hrun. destruct Hrun as (Hk & HL & Hnear & Hzero).
    split; [rewrite HL; unfold L; lia|].
    split; [rewrite Hk; exact Hcount|].
    split.
    + intros i Hi. exists (nth (Z.to_nat i) (freq st) 0). split.
      * rewrite <- (Z2Nat.id i) at 1 by lia. apply py_index_nth.
        rewrite HL. unfold L.
        destruct (_ =? 0)%Z; lia.
      * apply Hnear. lia.
    + intros i Hi. rewrite <- (Z2Nat.id i) at 1 by lia.
      rewrite py_index_nth by (rewrite HL; unfold L; lia).
      f_equal. apply Hzero. lia.
  - cbn [kf freq]. split; [reflexivity|]. split; [apply repeat_length|].
    split; [intros i Hi; lia|].
    intros i _. unfold zeros.
    destruct (Nat.lt_ge_cases i L) as [Hi|Hi].
    + apply nth_repeat_lt. exact Hi.
    + apply nth_overflow. rewrite repeat_length. exact Hi.
  - cbn [plus]. intros k tmid s1 s2 _ (Hk & HL & Hnear & Hzero) Hblk.
    apply process_block_inv in Hblk as (s & Hs & _ & Hset & Hkf & _).
    destruct (block_bounds _ _ _) as [[[tstart tstop] ?] ?].
    apply search_near_nominal in Hs.
    rewrite Hk in Hset. apply py_setitem_inv in Hset as [Hlt ->].
    split; [lia|]. split; [rewrite length_replace_nth; assumption|].
    split.
    + intros i Hi. rewrite nth_replace_nth by exact Hlt.
      destruct (Nat.eqb_spec i k) as [->|Hne]; [exact Hs|].
      apply Hnear. lia.
    + intros i Hi. rewrite nth_replace_nth by exact Hlt.
      destruct (Nat.eqb_spec i k) as [->|Hne]; [lia|].
      apply Hzero. lia.
Qed.

End FrequencyTrack.

(** ** Overlap-add *)

Section OverlapAdd.

Import Np Dehumming Terms Notions.
Open Scope R_scope.

Lemma nth_slice_iop (l : list R) (a b : nat) (v : list R) (t : nat) :
  (a <= b <= length l)%nat -> length v = (b - a)%nat ->
  nth t (firstn a l ++ map2 Rplus (firstn (b - a) (skipn a l)) v ++ skipn b l) 0 =
  if ((a <=? t) && (t <? b))%nat then nth t l 0 + nth (t - a) v 0 else nth t l 0.
Proof.
  intros Hab Hv.
  assert (Hf : length (firstn a l) = a) by (rewrite length_firstn; lia).
  assert (Hs : length (firstn (b - a) (skipn a l)) = (b - a)%nat)
    by (rewrite length_firstn, length_skipn; lia).
  assert (Hm : length (map2 Rplus (firstn (b - a) (skipn a l)) v) = (b - a)%nat)
    by (rewrite length_map2; lia).
  destruct (Nat.leb_spec a t) as [Hat|Hat]; cbn [andb].
  - rewrite app_nth2 by lia. rewrite Hf.
    destruct (Nat.ltb_spec t b) as [Htb|Htb].
    + rewrite app_nth1 by lia.
      rewrite (nth_map2 _ _ _ _ 0 0 0) by lia.
      rewrite nth_firstn_skipn by lia. f_equal. f_equal. lia.
    + rewrite app_nth2 by lia. rewrite Hm, nth_skipn. f_equal. lia.
  - rewrite app_nth1 by lia.
    rewrite <- (firstn_skipn a l) at 2. rewrite app_nth1 by lia. reflexivity.
Qed.

Lemma half_window_halves (blklen : Z) (i : nat) :
  (2 <= blklen)%Z -> (blklen mod 2 = 0)%Z ->
  let h := Z.to_nat (blklen / 2) in
  let window := half_window blklen h ++ rev (half_window blklen h) in
  (i < h)%nat -> nth i window 0 + nth (h + i) window 0 = 1.
Proof.
  intros Hb Heven h window Hi. unfold window.
  assert (Hh : blklen = (2 * (blklen / 2))%Z)
    by (rewrite (Z.div_mod blklen 2) at 1 by lia; lia).
  assert (Hlen : Z.to_nat blklen = (h + h)%nat) by (unfold h; lia).
  assert (HlA : length (half_window blklen h) = h)
    by (unfold half_window; rewrite length_map, length_seq; reflexivity).
  rewrite app_nth1 by lia.
  rewrite app_nth2 by lia. rewrite HlA.
  replace (h + i - h)%nat with i by lia.
  rewrite rev_nth by lia. rewrite HlA.
  set (g := hamming_at blklen).
  assert (Hnth : forall j, (j < h)%nat ->
            nth j (half_window blklen h) 0 = g j / (g j + g (h + j)%nat)).
  { intros j Hj. unfold half_window. fold g.
    rewrite nth_map_seq by lia. reflexivity. }
  rewrite !Hnth by lia.
  assert (S1 : g (h - S i)%nat = g (h + i)%nat).
  { unfold g. rewrite <- (hamming_at_sym blklen (h + i)) by lia.
    f_equal. lia. }
  assert (S2 : g (h + (h - S i))%nat = g i).
  { unfold g. rewrite <- (hamming_at_sym blklen i) by lia.
    f_equal. lia. }
  rewrite S1, S2.
  pose proof (hamming_at_pos blklen i).
  pose proof (hamming_at_pos blklen (h + i)).
  fold g in H, H0. field. lra.
Qed.


Lemma overlap_weight_step (window : list R) (h tmax k t : nat) :
  (forall i, (i < h)%nat -> nth i window 0 + nth (h + i) window 0 = 1) ->
  (t < tmax)%nat ->
  let a := ((k - 1) * h)%nat in
  let b := Nat.min tmax ((k + 1) * h) in
  let ws := if (k =? 0)%nat then h else 0%nat in
  overlap_weight window h (S k) t =
  overlap_weight window h k t +
  (if ((a <=? t) && (t <? b))%nat then nth (ws + (t - a)) window 0 else 0).
Proof.
  intros Hw Ht a b ws. unfold overlap_weight, a, b, ws.
  destruct k as [|k].
  - cbn [Nat.eqb Nat.sub Nat.mul Nat.add].
    rewrite Nat.add_0_r, Nat.sub_0_r.
    destruct (Nat.ltb_spec t 0) as [?|_]; [lia|].
    destruct (Nat.leb_spec 0 t) as [_|?]; [|lia]. cbn [andb].
    destruct (Nat.ltb_spec t h), (Nat.ltb_spec t (Nat.min tmax h)); try lia; lra.
  - cbn [Nat.eqb]. replace (S (S k) - 1)%nat with (S k) by lia.
    replace (S k - 1)%nat with k by lia.
    replace ((S k + 1) * h)%nat with (h + (h + k * h))%nat by lia.
    replace (S (S k) * h)%nat with (h + (h + k * h))%nat by lia.
    replace (S k * h)%nat with (h + k * h)%nat by lia.
    generalize (k * h)%nat. intros p. cbn [Nat.add].
    destruct (Nat.ltb_spec t (h + p)) as [H1|H1].
    + destruct (Nat.ltb_spec t p) as [H0|H0].
      * destruct (Nat.leb_spec p t) as [?|_]; [lia|]. cbn [andb]. lra.
      * destruct (Nat.leb_spec p t) as [_|?]; [|lia].
        destruct (Nat.ltb_spec t (Nat.min tmax (h + (h + p)))) as [_|?]; [|lia].
        cbn [andb]. rewrite <- (Hw (t - p)%nat) by lia. lra.
    + destruct (Nat.ltb_spec t p) as [?|_]; [lia|].
      destruct (Nat.leb_spec p t) as [_|?]; [|lia]. cbn [andb].
      destruct (Nat.ltb_spec t (h + (h + p))) as [H2|H2];
        destruct (Nat.ltb_spec t (Nat.min tmax (h + (h + p)))) as [H3|H3]; try lia.
      * replace (t - p)%nat with (h + (t - (h + p)))%nat by lia. lra.
      * lra.
Qed.

Lemma block_bounds_at (tmax h k : nat) :
  (0 < h)%nat ->
  block_bounds (Z.of_nat tmax) (Z.of_nat (h + h)) (0 + Z.of_nat k * Z.of_nat h) =
  let a := ((k - 1) * h)%nat in
  let b := Nat.min tmax ((k + 1) * h) in
  let ws := if (k =? 0)%nat then h else 0%nat in
  (Z.of_nat a, Z.of_nat b, Z.of_nat ws,
   if (Z.of_nat tmax <? Z.of_nat ((k + 1) * h))%Z
   then (Z.of_nat (h + h) + Z.of_nat tmax - Z.of_nat ((k + 1) * h))%Z
   else Z.of_nat (h + h)).
Proof.
  intros Hh. unfold block_bounds.
  assert (E : (Z.of_nat (h + h) / 2 = Z.of_nat h)%Z).
  { rewrite Nat2Z.inj_add. symmetry. apply Z.div_unique_exact; lia. }
  rewrite E. cbv zeta.
  assert (Ek : (0 + Z.of_nat k * Z.of_nat h + Z.of_nat h = Z.of_nat ((k + 1) * h))%Z)
    by lia.
  rewrite Ek.
  destruct k as [|k].
  - cbn [Nat.eqb]. change (0 + Z.of_nat 0 * Z.of_nat h - Z.of_nat h <? 0)%Z
      with (0 + 0 * Z.of_nat h - Z.of_nat h <? 0)%Z.
    destruct (Z.ltb_spec (0 + 0 * Z.of_nat h - Z.of_nat h) 0) as [_|?]; [|lia].
    destruct (Z.ltb_spec (Z.of_nat tmax) (Z.of_nat ((0 + 1) * h))) as [H|H].
    + do 3 f_equal; lia.
    + do 3 f_equal; lia.
  - cbn [Nat.eqb].
    destruct (Z.ltb_spec (0 + Z.of_nat (S k) * Z.of_nat h - Z.of_nat h) 0) as [?|_];
      [lia|].
    destruct (Z.ltb_spec (Z.of_nat tmax) (Z.of_nat ((S k + 1) * h))) as [H|H].
    + do 3 f_equal; lia.
    + do 3 f_equal; lia.
Qed.


Lemma py_setitem_in_range {A : Type} (l : list A) (k : nat) (v : A) :
  (k < length l)%nat ->
  py_setitem l (Z.of_nat k) v = Return (firstn k l ++ v :: skipn (S k) l).
Proof.
  intros H. unfold py_setitem.
  destruct (Z.ltb_spec (Z.of_nat k) 0) as [?|_]; [lia|].
  destruct (Z.ltb_spec (Z.of_nat k) 0) as [?|_]; [lia|]. cbn [orb].
  destruct (Z.leb_spec (Z.of_nat (length l)) (Z.of_nat k)) as [?|_]; [lia|].
  rewrite Nat2Z.id. reflexivity.
Qed.

Lemma process_block_overlap (sig r window : list R) (fs enf : R) (hmax : Z)
  (h L k : nat) (st : dehum_state) :
  (0 < h)%nat -> length window = (h + h)%nat -> length r = length sig ->
  (forall i, (i < h)%nat -> nth i window 0 + nth (h + i) window 0 = 1) ->
  (k * h < length sig + h)%nat -> (k < L)%nat ->
  (exists s,
     search (py_slice sig (Z.of_nat ((k - 1) * h))
                      (Z.of_nat (Nat.min (length sig) ((k + 1) * h))))
            fs enf hmax = Return s /\
     best_sigout s = py_slice r (Z.of_nat ((k - 1) * h))
                              (Z.of_nat (Nat.min (length sig) ((k + 1) * h)))) ->
  overlap_inv r window h L k st ->
  exists st',
    process_block sig window fs enf hmax (Z.of_nat (h + h)) st
                  (0 + Z.of_nat k * Z.of_nat h) = Return st' /\
    overlap_inv r window h L (S k) st'.
Proof.
  intros Hh Hw Hr Hsum Hk HL (s & Hs & Hout) (Hres & Hkf & Hfreq & Hnth).
  unfold process_block. rewrite block_bounds_at by exact Hh. cbv zeta.
  set (tmax := length sig) in *.
  set (a := ((k - 1) * h)%nat) in *.
  set (b := Nat.min tmax ((k + 1) * h)) in *.
  set (ws := if (k =? 0)%nat then h else 0%nat).
  set (wstop := if (Z.of_nat tmax <? Z.of_nat ((k + 1) * h))%Z
                then (Z.of_nat (h + h) + Z.of_nat tmax - Z.of_nat ((k + 1) * h))%Z
                else Z.of_nat (h + h)).
  assert (Hab : (a <= b)%nat /\ (b <= tmax)%nat).
  { unfold a, b. destruct k as [|k]; [cbn; lia|].
    replace (S k - 1)%nat with k by lia. lia. }
  assert (Hwstop : wstop = Z.of_nat (ws + (b - a))).
  { unfold wstop, ws, a, b.
    destruct k as [|k].
    - cbn [Nat.eqb Nat.sub Nat.mul].
      destruct (Z.ltb_spec (Z.of_nat tmax) (Z.of_nat ((0 + 1) * h))); lia.
    - cbn [Nat.eqb]. replace (S k - 1)%nat with k by lia.
      destruct (Z.ltb_spec (Z.of_nat tmax) (Z.of_nat ((S k + 1) * h))); lia. }
  assert (Hws : (ws + (b - a) <= h + h)%nat).
  { unfold ws, a, b. destruct k as [|k].
    - cbn [Nat.eqb Nat.sub Nat.mul]. lia.
    - cbn [Nat.eqb]. replace (S k - 1)%nat with k by lia. lia. }
  rewrite Hwstop. rewrite Hs. cbn [bind]. rewrite Hout.
  assert (L1 : length (py_slice r (Z.of_nat a) (Z.of_nat b)) = (b - a)%nat)
    by (rewrite length_py_slice_in_range by lia; lia).
  assert (L2 : length (py_slice window (Z.of_nat ws) (Z.of_nat (ws + (b - a))))
               = (b - a)%nat)
    by (rewrite length_py_slice_in_range by lia; lia).
  rewrite binop_same_length by lia. cbn [bind].
  rewrite slice_iop_in_range;
    [ | lia | lia | rewrite length_map2; lia ].
  cbn [bind]. rewrite Hkf.
  rewrite py_setitem_in_range by lia. cbn [bind].
  eexists. split; [reflexivity|].
  unfold overlap_inv. cbn [result freq kf].
  rewrite (py_slice_in_range (result st)) by lia.
  rewrite !Nat2Z.id.
  replace (Z.to_nat (Z.of_nat b - Z.of_nat a)) with (b - a)%nat by lia.
  set (weighted := map2 Rmult (py_slice r (Z.of_nat a) (Z.of_nat b))
                        (py_slice window (Z.of_nat ws) (Z.of_nat (ws + (b - a))))).
  assert (Lw : length weighted = (b - a)%nat)
    by (unfold weighted; rewrite length_map2; lia).
  split.
  { rewrite !length_app, length_firstn, length_skipn, length_map2,
      length_firstn, length_skipn. lia. }
  split; [lia|].
  split; [rewrite length_replace_nth by lia; exact Hfreq|].
  intros t Ht.
  rewrite nth_slice_iop by lia.
  rewrite (overlap_weight_step window h tmax k t Hsum) by lia.
  fold a. fold b. fold ws.
  rewrite Hnth by exact Ht.
  destruct ((a <=? t)%nat && (t <? b)%nat) eqn:Hin; [|ring].
  apply andb_prop in Hin as [H1 H2].
  apply Nat.leb_le in H1. apply Nat.ltb_lt in H2.
  unfold weighted.
  rewrite (nth_map2 _ _ _ _ 0 0 0) by lia.
  rewrite !py_slice_in_range by lia.
  rewrite !Nat2Z.id.
  rewrite !nth_firstn_skipn by lia.
  replace (a + (t - a))%nat with t by lia. ring.
Qed.


Lemma overlap_weight_done (window : list R) (h tmax K t : nat) :
  (0 < h)%nat -> (t < tmax)%nat -> (tmax + h <= K * h)%nat ->
  overlap_weight window h K t = 1.
Proof.
  intros Hh Ht HK. unfold overlap_weight.
  destruct K as [|K]; [cbn in HK; lia|]. cbn [Nat.eqb].
  replace (S K - 1)%nat with K by lia.
  destruct (Nat.ltb_spec t (K * h)) as [_|H]; [reflexivity|]. lia.
Qed.

(** X5: overlap-add is exact.  When the cleaned blocks are the parts of one
    signal [r], [dehummer] returns [r], at the truncated first and last
    blocks as well. *)
Theorem dehummer_overlap_add (sig r : list R) (fs enf : R) (hmax blklen : Z) :
  enf <> 0 -> (2 <= blklen)%Z -> (blklen mod 2 = 0)%Z ->
  Z.min hmax (py_int (0.5 * fs / enf)) <> 0%Z ->
  length r = length sig ->
  blocks_clean_to sig r fs enf (Z.min hmax (py_int (0.5 * fs / enf))) blklen ->
  exists st, dehummer sig fs enf hmax blklen = Return st /\ result st = r.
Proof.
  intros Henf Hb Heven Hhm Hr Hclean.
  set (hmax' := Z.min hmax (py_int (0.5 * fs / enf))) in *.
  set (tmax := length sig) in *.
  destruct (block_bounds_ok (Z.of_nat tmax) blklen) as (centres & Hc & Hlen & _);
    try assumption; [lia|].
  assert (Hh : blklen = (2 * (blklen / 2))%Z)
    by (rewrite (Z.div_mod blklen 2) at 1 by lia; lia).
  set (h := Z.to_nat (blklen / 2)).
  assert (Hhz : (blklen / 2)%Z = Z.of_nat h) by (unfold h; lia).
  assert (Hhpos : (0 < h)%nat) by lia.
  assert (Hbl : blklen = Z.of_nat (h + h)) by lia.
  set (window := half_window blklen h ++ rev (half_window blklen h)).
  assert (Hw : length window = (h + h)%nat).
  { unfold window. rewrite length_app, length_rev.
    unfold half_window. rewrite length_map, length_seq. reflexivity. }
  assert (Hsum : forall i, (i < h)%nat ->
                   nth i window 0 + nth (h + i) window 0 = 1).
  { intros i Hi. apply (half_window_halves blklen i Hb Heven). exact Hi. }
  set (L := Z.to_nat (freq_len (Z.of_nat tmax) blklen)).
  pose proof Hc as Hc'. unfold block_centres in Hc'.
  rewrite py_range_pos in Hc' by lia. injection Hc' as Hcs.
  rewrite Hhz in Hcs.
  set (K := Z.to_nat ((Z.of_nat tmax + Z.of_nat h - 0 + Z.of_nat h - 1) / Z.of_nat h))
    in *.
  assert (HK : Z.of_nat K =
               ((Z.of_nat tmax + Z.of_nat h - 0 + Z.of_nat h - 1) / Z.of_nat h)%Z).
  { unfold K. rewrite Z2Nat.id; [reflexivity|]. apply Z.div_pos; lia. }
  assert (HK1 : (K * h <= tmax + h + h - 1)%nat).
  { pose proof (Z.mul_div_le (Z.of_nat tmax + Z.of_nat h - 0 + Z.of_nat h - 1)
                  (Z.of_nat h) ltac:(lia)) as Hle.
    rewrite <- HK in Hle. nia. }
  assert (HK2 : (tmax + h <= K * h)%nat).
  { pose proof (Z.mul_succ_div_gt (Z.of_nat tmax + Z.of_nat h - 0 + Z.of_nat h - 1)
                  (Z.of_nat h) ltac:(lia)) as Hgt.
    rewrite <- HK in Hgt. nia. }
  assert (HlenK : length centres = K) by (rewrite <- Hcs, length_map, length_seq; reflexivity).
  destruct (for_each_progress
              (process_block sig window fs enf hmax' blklen)
              (overlap_inv r window h L) centres
              (mkDehum (zeros (length sig)) (zeros L) 0 []) 0%nat)
    as (st & Hrun & Hinv).
  - unfold overlap_inv. cbn [result freq kf].
    split; [rewrite Hr; apply repeat_length|]. split; [reflexivity|].
    split; [apply repeat_length|].
    intros t Ht. unfold overlap_weight. cbn [Nat.eqb].
    unfold zeros. rewrite nth_repeat_lt by lia. ring.
  - cbn [plus]. intros k tmid s1 Hn Hi.
    assert (Hk : (k < K)%nat).
    { rewrite <- HlenK. apply nth_error_Some. rewrite Hn. discriminate. }
    assert (Htmid : tmid = (0 + Z.of_nat k * Z.of_nat h)%Z).
    { rewrite <- Hcs in Hn. rewrite nth_error_map in Hn.
      rewrite (nth_error_nth' _ 0%nat) in Hn by (rewrite length_seq; exact Hk).
      rewrite seq_nth in Hn by exact Hk. cbn [option_map plus] in Hn.
      injection Hn as <-. reflexivity. }
    subst tmid. rewrite Hbl.
    apply process_block_overlap; try assumption.
    + nia.
    + unfold L. lia.
    + specialize (Hclean centres (0 + Z.of_nat k * Z.of_nat h)%Z Hc
                    (nth_error_In _ _ Hn)).
      fold tmax in Hclean. rewrite Hbl in Hclean.
      rewrite block_bounds_at in Hclean by exact Hhpos. cbv zeta in Hclean.
      exact Hclean.
  - exists st. split.
    + unfold dehummer.
      destruct (Req_dec_T enf 0) as [?|_]; [contradiction|].
      rewrite (make_window_even blklen Hb Heven). cbn [bind]. fold hmax'.
      destruct (Z.eqb_spec hmax' 0) as [?|_]; [contradiction|].
      destruct (Z.eqb_spec blklen 0) as [?|_]; [lia|].
      fold tmax.
      destruct (Z.ltb_spec (freq_len (Z.of_nat tmax) blklen) 0) as [?|_]; [lia|].
      rewrite Hc. cbn [bind]. exact Hrun.
    + destruct Hinv as (Hres & _ & _ & Hnth). cbn [plus] in Hnth.
      apply nth_ext with (d := 0) (d' := 0); [exact Hres|].
      intros t Ht. rewrite Hres in Ht. rewrite Hnth by exact Ht.
      rewrite HlenK.
      rewrite (overlap_weight_done window h tmax K t) by lia. ring.
Qed.

End OverlapAdd.

(** ** The least-squares fit *)

Section LeastSquares.

Import Np Linalg Dehumming Terms Notions.
Open Scope R_scope.

Lemma sum_map_ext (f g : nat -> R) (l : list nat) :
  (forall i, In i l -> f i = g i) -> sum (map f l) = sum (map g l).
Proof.
  induction l as [|x l IH]; intros H; [reflexivity|].
  cbn [map sum]. rewrite (H x) by (left; reflexivity).
  rewrite IH; [reflexivity|]. intros i Hi. apply H. right. exact Hi.
Qed.

Lemma sum_map_plus (f g : nat -> R) (l : list nat) :
  sum (map (fun i => f i + g i) l) = sum (map f l) + sum (map g l).
Proof.
  induction l as [|x l IH]; cbn [map sum]; [lra|]. rewrite IH. lra.
Qed.

Lemma sum_map_scal (c : R) (f : nat -> R) (l : list nat) :
  sum (map (fun i => c * f i) l) = c * sum (map f l).
Proof.
  induction l as [|x l IH]; cbn [map sum]; [lra|]. rewrite IH. lra.
Qed.

Lemma sum_map_zero (l : list nat) : sum (map (fun _ => 0) l) = 0.
Proof.
  induction l as [|x l IH]; cbn [map sum]; [reflexivity|]. rewrite IH. lra.
Qed.

Lemma sum_map_swap (g : nat -> nat -> R) (l1 l2 : list nat) :
  sum (map (fun i => sum (map (fun j => g i j) l2)) l1) =
  sum (map (fun j => sum (map (fun i => g i j) l1)) l2).
Proof.
  induction l1 as [|x l1 IH]; cbn [map sum].
  - symmetry. apply sum_map_zero.
  - rewrite IH. symmetry. apply sum_map_plus.
Qed.

Lemma sum_squares_pos (l : list R) : 0 <= sum (map2 Rmult l l).
Proof.
  induction l as [|x l IH]; cbn [map2 sum]; [lra|]. nra.
Qed.

(** Entry [i] of [A x], and of the transpose. *)
Lemma nth_matvec (A : matrix) (x : vec) (m i : nat) :
  Forall (fun row => length row = m) A -> length x = m -> (i < length A)%nat ->
  nth i (matvec A x) 0 =
  sum (map (fun j => nth j (nth i A []) 0 * nth j x 0) (seq 0 m)).
Proof.
  intros HA Hx Hi. unfold matvec.
  rewrite (nth_indep _ 0 (sum (map2 Rmult [] x))) by (rewrite length_map; exact Hi).
  rewrite (map_nth (fun row => sum (map2 Rmult row x)) A [] i).
  assert (Hrow : length (nth i A []) = m).
  { rewrite Forall_forall in HA. apply HA. apply nth_In. exact Hi. }
  rewrite sum_map2_nth by lia. rewrite Hrow. reflexivity.
Qed.

Lemma nth_transpose (A : matrix) (m i t : nat) :
  (i < m)%nat -> (t < length A)%nat ->
  nth t (nth i (transpose m A) []) 0 = nth i (nth t A []) 0.
Proof.
  intros Hi Ht. unfold transpose.
  rewrite nth_map_seq by exact Hi. cbn [plus].
  rewrite (nth_indep _ 0 (nth i [] 0)) by (rewrite length_map; exact Ht).
  rewrite (map_nth (fun row => nth i row 0) A [] t). reflexivity.
Qed.

Lemma rows_transpose (A : matrix) (m : nat) :
  Forall (fun row => length row = length A) (transpose m A).
Proof.
  unfold transpose. apply Forall_forall. intros row Hin.
  apply in_map_iff in Hin as (j & <- & _). apply length_map.
Qed.

Lemma length_matvec (A : matrix) (x : vec) : length (matvec A x) = length A.
Proof. apply length_map. Qed.

(** Entry [i] of [(T T^t) theta] for a matrix [T] with rows of length [n]. *)
Lemma nth_gram (T : matrix) (theta : vec) (n i : nat) :
  Forall (fun row => length row = n) T -> length theta = length T ->
  (i < length T)%nat ->
  nth i (matvec (map (matvec T) T) theta) 0 =
  sum (map (fun j =>
              sum (map (fun t => nth t (nth j T []) 0 * nth t (nth i T []) 0)
                       (seq 0 n)) * nth j theta 0)
           (seq 0 (length T))).
Proof.
  intros HT Hth Hi. unfold matvec at 1. rewrite map_map.
  rewrite (nth_map_in _ T i []) by exact Hi.
  assert (Hrow : forall k, (k < length T)%nat -> length (nth k T []) = n).
  { intros k Hk. rewrite Forall_forall in HT. apply HT. apply nth_In. exact Hk. }
  rewrite sum_map2_nth by (rewrite length_matvec; lia).
  rewrite length_matvec.
  apply sum_map_ext. intros j Hj. apply in_seq in Hj. f_equal.
  apply (nth_matvec T (nth i T []) n j HT); [apply Hrow; exact Hi|lia].
Qed.

(** The normal equations make the fitted vector the orthogonal projection of
    [y]: the residual is orthogonal to the fit. *)
Lemma normal_equations_orthogonal (X : matrix) (m : nat) (y theta : vec) :
  Forall (fun row => length row = m) X ->
  length y = length X -> length theta = m ->
  matvec (matmul m (transpose m X) X) theta = matvec (transpose m X) y ->
  sum (map2 Rmult (matvec X theta) (map2 Rminus y (matvec X theta))) = 0.
Proof.
  intros HX Hy Hth Hne.
  remember (length X) as n eqn:Hn.
  remember (matvec X theta) as v eqn:Ev.
  assert (Hv : length v = n) by (rewrite Ev, Hn; apply length_matvec).
  assert (Hrt : Forall (fun row => length row = n) (transpose m X))
    by (rewrite Hn; apply rows_transpose).
  assert (Hlt : length (transpose m X) = m) by apply length_transpose.
  assert (Hvt : forall t, (t < n)%nat ->
            nth t v 0 = sum (map (fun j => nth j (nth t X []) 0 * nth j theta 0)
                                 (seq 0 m))).
  { intros t Ht. rewrite Ev. apply nth_matvec; [exact HX|exact Hth|lia]. }
  (* entrywise form of the normal equations *)
  assert (Hent : forall i, (i < m)%nat ->
            sum (map (fun t => nth i (nth t X []) 0 * nth t v 0) (seq 0 n)) =
            sum (map (fun t => nth i (nth t X []) 0 * nth t y 0) (seq 0 n))).
  { intros i Hi.
    apply (f_equal (fun l => nth i l 0)) in Hne.
    rewrite (nth_matvec (transpose m X) y n i Hrt) in Hne by lia.
    assert (E : sum (map (fun t => nth i (nth t X []) 0 * nth t y 0) (seq 0 n)) =
                sum (map (fun j => nth j (nth i (transpose m X) []) 0 * nth j y 0)
                         (seq 0 n))).
    { apply sum_map_ext. intros t Ht. apply in_seq in Ht.
      rewrite nth_transpose by lia. reflexivity. }
    rewrite E, <- Hne. clear E Hne.
    unfold matmul.
    rewrite (nth_gram (transpose m X) theta n i Hrt) by lia.
    rewrite Hlt.
    transitivity
      (sum (map (fun t => sum (map (fun j => nth i (nth t X []) 0 *
                                             (nth j (nth t X []) 0 * nth j theta 0))
                                   (seq 0 m)))
                (seq 0 n))).
    { apply sum_map_ext. intros t Ht. apply in_seq in Ht.
      rewrite Hvt by lia. symmetry. apply sum_map_scal. }
    rewrite sum_map_swap. apply sum_map_ext. intros j Hj. apply in_seq in Hj.
    rewrite Rmult_comm, <- sum_map_scal.
    apply sum_map_ext. intros t Ht. apply in_seq in Ht.
    rewrite !nth_transpose by lia. ring. }
  rewrite sum_map2_nth by (rewrite length_map2; lia). rewrite Hv.
  transitivity
    (sum (map (fun i => nth i theta 0 *
                        (sum (map (fun t => nth i (nth t X []) 0 * nth t y 0) (seq 0 n)) -
                         sum (map (fun t => nth i (nth t X []) 0 * nth t v 0) (seq 0 n))))
              (seq 0 m))).
  2:{ transitivity (sum (map (fun _ : nat => 0) (seq 0 m))); [|apply sum_map_zero].
      apply sum_map_ext.
      intros i Hi. apply in_seq in Hi. cbv beta. rewrite (Hent i) by lia. ring. }
  transitivity
    (sum (map (fun t => sum (map (fun i => nth i theta 0 *
                                           (nth i (nth t X []) 0 *
                                            (nth t y 0 - nth t v 0)))
                                 (seq 0 m)))
              (seq 0 n))).
  { apply sum_map_ext. intros t Ht. apply in_seq in Ht.
    rewrite (nth_map2 _ _ _ _ 0 0 0) by lia.
    rewrite (Hvt t) at 1 by lia.
    rewrite Rmult_comm, <- sum_map_scal.
    apply sum_map_ext. intros i Hi. ring. }
  rewrite sum_map_swap. apply sum_map_ext. intros i Hi.
  cbv beta. rewrite sum_map_scal. f_equal.
  transitivity
    (sum (map (fun t => nth i (nth t X []) 0 * nth t y 0 +
                        (-1) * (nth i (nth t X []) 0 * nth t v 0)) (seq 0 n))).
  { apply sum_map_ext. intros t _. ring. }
  rewrite sum_map_plus, sum_map_scal. ring.
Qed.

Lemma energy_split (y v : list R) :
  length v = length y ->
  sum (map2 Rmult y y) =
  sum (map2 Rmult (map2 Rminus y v) (map2 Rminus y v)) +
  2 * sum (map2 Rmult v (map2 Rminus y v)) + sum (map2 Rmult v v).
Proof.
  revert v. induction y as [|a y IH]; intros [|b v] H; try discriminate.
  - cbn [map2 sum]. ring.
  - cbn [map2 sum]. rewrite (IH v) by (injection H as H; exact H). ring.
Qed.

(** The fit of [single_estimate] is the orthogonal projection of the block
    onto the harmonics. *)
Lemma single_estimate_orthogonal (sigin : list R) (f fs : R) (hmax : Z) (v : list R) :
  single_estimate sigin f fs hmax = Return v ->
  length v = length sigin /\
  sum (map2 Rmult v (map2 Rminus sigin v)) = 0.
Proof.
  unfold single_estimate.
  destruct (hmax <? 0)%Z; [discriminate|].
  destruct (Req_dec_T fs 0) as [?|_]; [discriminate|].
  set (n := length sigin). set (h := Z.to_nat hmax).
  set (X0 := map (fun a => map (fun t => a * t) (map INR (seq 0 n)))
                 (map (fun k => 2 * PI * f / fs * INR k) (seq 1 h))).
  set (X := map (map cos) (transpose n (X0 ++ map (map (fun x => x + PI / 2)) X0))).
  destruct (solve _ _) as [theta|e] eqn:Hs; [|discriminate]. cbn [bind].
  intros [= <-].
  apply solve_inv in Hs as (_ & _ & _ & Hlen & Hm).
  assert (HlX : length X = n) by (unfold X; rewrite length_map; apply length_transpose).
  assert (HX : Forall (fun row => length row = (h + h)%nat) X).
  { unfold X. apply Forall_forall. intros row Hin.
    apply in_map_iff in Hin as (row0 & <- & Hin). rewrite length_map.
    unfold transpose in Hin. apply in_map_iff in Hin as (j & <- & _).
    rewrite length_map, length_app, length_map. unfold X0.
    rewrite !length_map, length_seq. reflexivity. }
  unfold matmul in Hlen. rewrite length_map, length_transpose in Hlen.
  split; [rewrite length_matvec; exact HlX|].
  apply (normal_equations_orthogonal X (h + h)); try assumption.
  rewrite HlX. reflexivity.
Qed.

(** X6: the fit of [single_estimate] has the length of the block, the residual
    is orthogonal to it, and the energy of the block is the sum of the
    energies of the fit and of the residual. *)
Theorem single_estimate_projection (sigin : list R) (f fs : R) (hmax : Z)
  (v : list R) :
  single_estimate sigin f fs hmax = Return v ->
  length v = length sigin /\
  sum (map2 Rmult v (map2 Rminus sigin v)) = 0 /\
  sum (map2 Rmult sigin sigin) =
  sum (map2 Rmult (map2 Rminus sigin v) (map2 Rminus sigin v)) +
  sum (map2 Rmult v v).
Proof.
  intros H. apply single_estimate_orthogonal in H as [Hl Ho].
  split; [exact Hl|]. split; [exact Ho|].
  rewrite (energy_split sigin v Hl), Ho. ring.
Qed.

Lemma residual_inv (blk : list R) (f fs : R) (hmax : Z) (sigout : list R) (energy : R) :
  residual blk f fs hmax = Return (sigout, energy) ->
  exists v,
    single_estimate blk f fs hmax = Return v /\
    sigout = map2 Rminus blk v /\
    energy = sum (map2 Rmult sigout sigout).
Proof.
  unfold residual.
  destruct (single_estimate blk f fs hmax) as [v|e] eqn:Hv; [|discriminate].
  cbn [bind]. pose proof (single_estimate_orthogonal _ _ _ _ _ Hv) as [Hl _].
  rewrite binop_same_length by lia. cbn [bind].
  unfold dot. rewrite Nat.eqb_refl. cbn [bind].
  intros [= <- <-]. exists v. repeat split.
Qed.

Lemma residual_energy (blk : list R) (f fs : R) (hmax : Z) (sigout : list R)
  (energy : R) :
  residual blk f fs hmax = Return (sigout, energy) ->
  length sigout = length blk /\
  0 <= energy <= sum (map2 Rmult blk blk).
Proof.
  intros H. apply residual_inv in H as (v & Hv & -> & ->).
  apply single_estimate_orthogonal in Hv as [Hl Ho].
  split; [rewrite length_map2; lia|].
  split; [apply sum_squares_pos|].
  rewrite (energy_split blk v Hl), Ho.
  pose proof (sum_squares_pos v). lra.
Qed.

Lemma try_shift_kept (blk : list R) (fs : R) (hmax : Z) (f0 delta : R)
  (s s' : search_state) (shift : Z) :
  try_shift blk fs hmax f0 delta s shift = Return s' ->
  kept_residual blk fs hmax s -> kept_residual blk fs hmax s'.
Proof.
  unfold try_shift, kept_residual.
  destruct (residual blk (f0 + IZR shift * delta) fs hmax) as [[sigout energy]|e] eqn:Hr;
    [|discriminate].
  cbn [bind]. destruct (Rlt_dec energy (best_energy s)); intros [= <-] Hs;
    cbn [best_f best_sigout best_energy]; assumption.
Qed.

Lemma search_kept (blk : list R) (fs enf : R) (hmax : Z) (s : search_state) :
  search blk fs enf hmax = Return s -> kept_residual blk fs hmax s.
Proof.
  unfold search.
  destruct (residual blk enf fs hmax) as [[sigout energy]|e] eqn:Hr; [|discriminate].
  cbn [bind]. intros Hrun.
  apply (for_each_preserves _ (kept_residual blk fs hmax)) in Hrun.
  - exact Hrun.
  - intros delta s1 s2 Href H1. unfold refine in Href.
    apply (for_each_preserves _ (kept_residual blk fs hmax)) in Href.
    + exact Href.
    + intros shift s3 s4. apply try_shift_kept.
    + exact H1.
  - exact Hr.
Qed.

(** X7: the block that the search keeps is the residual of the fit at the
    frequency that it keeps; its energy is the recorded one, and it is no more
    than the energy of the block itself and than the residual energy at the
    nominal frequency. *)
Theorem search_keeps_residual (blk : list R) (fs enf : R) (hmax : Z)
  (s : search_state) :
  search blk fs enf hmax = Return s ->
  residual blk (best_f s) fs hmax = Return (best_sigout s, best_energy s) /\
  length (best_sigout s) = length blk /\
  best_energy s = sum (map2 Rmult (best_sigout s) (best_sigout s)) /\
  0 <= best_energy s <= sum (map2 Rmult blk blk) /\
  exists e0, energy_at blk fs hmax enf = Some e0 /\ best_energy s <= e0.
Proof.
  intros Hs. pose proof (search_kept _ _ _ _ _ Hs) as Hk. unfold kept_residual in Hk.
  split; [exact Hk|].
  pose proof (residual_energy _ _ _ _ _ _ Hk) as [Hl He].
  split; [exact Hl|].
  split.
  { apply residual_inv in Hk as (v & _ & _ & E). exact E. }
  split; [exact He|].
  destruct (search_inv_steps blk fs hmax enf s Hs) as (s1 & _ & T1 & (_ & _ & Hmin) & T).
  apply Hmin. rewrite T, T1. apply in_or_app. left. left. reflexivity.
Qed.

End LeastSquares.

(** ** The spectrum of the model *)

Section PsdFacts.

Import Np Linalg Arma Psd.
Open Scope R_scope.

Lemma np_abs_sqr (re im : R) : np_abs re im * np_abs re im = re * re + im * im.
Proof. unfold np_abs. apply sqrt_sqrt. nra. Qed.

Lemma map2_ext_seq {B : Type} (f g : nat -> R -> B) (a n : nat) (xs : list R) :
  (forall j x, (a <= j < a + n)%nat -> f j x = g j x) ->
  map2 f (seq a n) xs = map2 g (seq a n) xs.
Proof.
  revert a xs. induction n as [|n IH]; intros a xs H; [reflexivity|].
  destruct xs as [|x xs]; [reflexivity|]. cbn [seq map2].
  rewrite (H a x) by lia. f_equal. apply IH. intros j y Hj. apply H. lia.
Qed.

Lemma sum_map2_opp (f : nat -> R -> R) (l : list nat) (xs : list R) :
  sum (map2 (fun j x => - f j x) l xs) = - sum (map2 f l xs).
Proof.
  revert xs. induction l as [|j l IH]; intros [|x xs]; cbn [map2 sum]; try lra.
  rewrite IH. lra.
Qed.

Lemma length_fft_power (x : list R) (n : Z) (p : list R) :
  fft_power x n = Return p -> length p = Z.to_nat n /\ (1 <= n)%Z.
Proof.
  unfold fft_power. destruct (Z.ltb_spec n 1); [discriminate|].
  intros [= <-]. rewrite length_map, length_seq. split; [reflexivity|lia].
Qed.

Lemma fft_power_nonneg (x : list R) (n : Z) (p : list R) :
  fft_power x n = Return p -> Forall (fun v => 0 <= v) p.
Proof.
  unfold fft_power. destruct (Z.ltb_spec n 1); [discriminate|].
  intros [= <-]. apply Forall_forall. intros v Hv.
  apply in_map_iff in Hv as (k & <- & _). cbv zeta.
  rewrite np_abs_sqr. nra.
Qed.

(** The power spectrum of a real sequence is even: bin [N - k] holds what bin
    [k] holds. *)
Lemma fft_power_even (x : list R) (n : Z) (p : list R) (k : nat) :
  fft_power x n = Return p -> (0 < k < Z.to_nat n)%nat ->
  nth (Z.to_nat n - k) p 0 = nth k p 0.
Proof.
  unfold fft_power. destruct (Z.ltb_spec n 1); [discriminate|].
  intros [= <-] Hk. set (N := Z.to_nat n) in *.
  rewrite !nth_map_seq by lia. cbn [plus]. cbv zeta.
  rewrite !np_abs_sqr.
  set (xs := firstn N x ++ zeros (N - length x)).
  assert (HN : INR N <> 0) by (apply not_0_INR; lia).
  assert (Ec : map2 (fun j xj => xj * cos (2 * PI * INR j * INR (N - k) / INR N))
                    (seq 0 N) xs =
               map2 (fun j xj => xj * cos (2 * PI * INR j * INR k / INR N))
                    (seq 0 N) xs).
  { apply map2_ext_seq. intros j v _. f_equal.
    rewrite minus_INR by lia.
    replace (2 * PI * INR j * (INR N - INR k) / INR N)
      with (- (2 * PI * INR j * INR k / INR N) + 2 * INR j * PI) by (field; exact HN).
    rewrite cos_period. apply cos_neg. }
  assert (Es : map2 (fun j xj => xj * sin (2 * PI * INR j * INR (N - k) / INR N))
                    (seq 0 N) xs =
               map2 (fun j xj => - (xj * sin (2 * PI * INR j * INR k / INR N)))
                    (seq 0 N) xs).
  { apply map2_ext_seq. intros j v _.
    rewrite minus_INR by lia.
    replace (2 * PI * INR j * (INR N - INR k) / INR N)
      with (- (2 * PI * INR j * INR k / INR N) + 2 * INR j * PI) by (field; exact HN).
    rewrite sin_period, sin_neg. ring. }
  rewrite Ec, Es, sum_map2_opp. ring.
Qed.

Lemma no_zero_in (l : list R) :
  existsb (fun d => if Req_dec_T d 0 then true else false) l = false ->
  Forall (fun d => d <> 0) l.
Proof.
  induction l as [|d l IH]; cbn [existsb]; [constructor|].
  destruct (Req_dec_T d 0) as [?|N]; [discriminate|]. cbn [orb].
  intros H. constructor; [exact N|apply IH; exact H].
Qed.

(** X8: the spectrum that [arma2psd] stores.  It is appended to the history
    (which is emptied first unless [hold]) as one row of [fftlen] bins; no bin
    is negative, and bin [fftlen - k] holds what bin [k] holds.  Nothing else
    of the estimator changes. *)
Theorem arma2psd_spectrum (self self' : Arma.t) (hold : bool) :
  arma2psd self hold = Return (Updated self') ->
  exists row,
    Arma.psd self' = (if hold then Arma.psd self else []) ++ [[row]] /\
    Z.of_nat (length row) = fftlen self /\
    Forall (fun v => 0 <= v) row /\
    (forall k, (0 < k < length row)%nat ->
       nth (length row - k) row 0 = nth k row 0) /\
    ordar self' = ordar self /\ ordma self' = ordma self /\
    fftlen self' = fftlen self /\ AR_ self' = AR_ self /\ MA self' = MA self.
Proof.
  unfold arma2psd.
  destruct (AR_ self) as [AR|]; [|discriminate].
  destruct (fft_power (1 :: AR) (fftlen self)) as [psdar|] eqn:Har; [|discriminate].
  cbn [bind].
  destruct (MA self) as [ma|]; [|discriminate].
  destruct (reals _) as [b|]; [|discriminate].
  destruct (fft_power b (fftlen self)) as [psdma|] eqn:Hma; [|discriminate].
  cbn [bind].
  destruct (existsb _ psdar) eqn:Hz; [discriminate|].
  intros [= <-]. cbn [Arma.psd ordar ordma fftlen AR_ MA].
  exists (map2 Rdiv psdma psdar).
  pose proof (length_fft_power _ _ _ Har) as [Lar Hn].
  pose proof (length_fft_power _ _ _ Hma) as [Lma _].
  assert (Hlen : length (map2 Rdiv psdma psdar) = Z.to_nat (fftlen self))
    by (rewrite length_map2; lia).
  apply no_zero_in in Hz. rewrite Forall_forall in Hz.
  pose proof (fft_power_nonneg _ _ _ Har) as Nar.
  pose proof (fft_power_nonneg _ _ _ Hma) as Nma.
  rewrite Forall_forall in Nar, Nma.
  split; [reflexivity|]. split; [lia|]. split.
  - apply Forall_forall. intros v Hv.
    apply (In_nth _ _ 0) in Hv as (k & Hk & <-). rewrite Hlen in Hk.
    rewrite (nth_map2 _ _ _ _ 0 0 0) by lia.
    assert (Ia : In (nth k psdar 0) psdar) by (apply nth_In; lia).
    assert (Im : In (nth k psdma 0) psdma) by (apply nth_In; lia).
    pose proof (Hz _ Ia). pose proof (Nar _ Ia). pose proof (Nma _ Im).
    apply Rmult_le_pos; [assumption|].
    apply Rlt_le, Rinv_0_lt_compat. lra.
  - split; [|repeat split].
    intros k Hk. rewrite Hlen in *.
    rewrite !(nth_map2 _ _ _ _ 0 0 0) by lia.
    rewrite (fft_power_even _ _ _ k Har), (fft_power_even _ _ _ k Hma) by lia.
    reflexivity.
Qed.


Lemma sum_app (a b : list R) : sum (a ++ b) = sum a + sum b.
Proof. induction a as [|x a IH]; cbn [app sum]; [lra|]. rewrite IH. lra. Qed.

Lemma map2_const_seq (f : nat -> R -> R) (c : nat -> R) (a n : nat) (xs : list R) :
  (forall j x, (a <= j < a + n)%nat -> f j x = c j * x) ->
  (forall j, (a <= j < a + n)%nat -> c j = 1) ->
  length xs = n ->
  sum (map2 f (seq a n) xs) = sum xs.
Proof.
  revert a xs. induction n as [|n IH]; intros a [|x xs] Hf Hc Hl; try discriminate;
    [reflexivity|].
  cbn [seq map2 sum]. rewrite (Hf a x), (Hc a) by lia.
  rewrite (IH (S a) xs); [lra| | |injection Hl as Hl; exact Hl].
  - intros j y Hj. apply Hf. lia.
  - intros j Hj. apply Hc. lia.
Qed.

Lemma map2_null_seq (f : nat -> R -> R) (c : nat -> R) (a n : nat) (xs : list R) :
  (forall j x, (a <= j < a + n)%nat -> f j x = c j * x) ->
  (forall j, (a <= j < a + n)%nat -> c j = 0) ->
  sum (map2 f (seq a n) xs) = 0.
Proof.
  revert a xs. induction n as [|n IH]; intros a [|x xs] Hf Hc; try reflexivity.
  cbn [seq map2 sum]. rewrite (Hf a x), (Hc a) by lia.
  rewrite (IH (S a) xs); [lra| |].
  - intros j y Hj. apply Hf. lia.
  - intros j Hj. apply Hc. lia.
Qed.

(** Bin 0 of the power spectrum: the square of the sum of the samples. *)
Lemma fft_power_dc (x : list R) (n : Z) (p : list R) :
  fft_power x n = Return p ->
  nth 0 p 0 = sum (firstn (Z.to_nat n) x) * sum (firstn (Z.to_nat n) x).
Proof.
  unfold fft_power. destruct (Z.ltb_spec n 1); [discriminate|].
  intros [= <-]. set (N := Z.to_nat n).
  rewrite nth_map_seq by lia. cbn [plus]. cbv zeta. rewrite np_abs_sqr.
  set (xs := firstn N x ++ zeros (N - length x)).
  assert (Hl : length xs = N).
  { unfold xs. rewrite length_app, length_firstn, length_zeros. lia. }
  assert (Hs : sum xs = sum (firstn N x)).
  { unfold xs. rewrite sum_app, sum_zeros. lra. }
  rewrite (map2_const_seq _ (fun j => cos (2 * PI * INR j * INR 0 / INR N)));
    [ | intros; ring | | exact Hl ].
  2:{ intros j _. cbn [INR]. unfold Rdiv. rewrite Rmult_0_r, Rmult_0_l. apply cos_0. }
  rewrite (map2_null_seq _ (fun j => sin (2 * PI * INR j * INR 0 / INR N)));
    [ | intros; ring | ].
  2:{ intros j _. cbn [INR]. unfold Rdiv. rewrite Rmult_0_r, Rmult_0_l. apply sin_0. }
  rewrite Hs. ring.
Qed.

(** X9: at frequency zero the model spectrum is the squared gain of the
    filter: the sum of the MA coefficients over one plus the sum of the AR
    coefficients (of those within the transform length), squared. *)
Theorem arma2psd_dc_gain (self self' : Arma.t) (hold : bool) (AR b : list R) :
  arma2psd self hold = Return (Updated self') ->
  AR_ self = Some AR -> MA self = Some (map Real b) ->
  let N := Z.to_nat (fftlen self) in
  exists row,
    last (Arma.psd self') [] = [row] /\
    sum (firstn N (1 :: AR)) <> 0 /\
    nth 0 row 0 =
    (sum (firstn N b) / sum (firstn N (1 :: AR))) *
    (sum (firstn N b) / sum (firstn N (1 :: AR))).
Proof.
  intros H HAR HMA N. unfold arma2psd in H. rewrite HAR, HMA in H.
  destruct (fft_power (1 :: AR) (fftlen self)) as [psdar|] eqn:Har; [|discriminate].
  cbn [bind] in H.
  assert (Hr : reals (firstn N (map Real b)) = Some (firstn N b)).
  { rewrite firstn_map. induction (firstn N b) as [|v l IH]; [reflexivity|].
    cbn [map reals]. rewrite IH. reflexivity. }
  fold N in H. rewrite Hr in H.
  destruct (fft_power (firstn N b) (fftlen self)) as [psdma|] eqn:Hma; [|discriminate].
  cbn [bind] in H.
  destruct (existsb _ psdar) eqn:Hz; [discriminate|].
  injection H as <-. cbn [Arma.psd].
  exists (map2 Rdiv psdma psdar). rewrite last_last.
  pose proof (length_fft_power _ _ _ Har) as [Lar Hn].
  pose proof (length_fft_power _ _ _ Hma) as [Lma _].
  apply no_zero_in in Hz. rewrite Forall_forall in Hz.
  assert (Ia : In (nth 0 psdar 0) psdar) by (apply nth_In; lia).
  apply Hz in Ia.
  rewrite (fft_power_dc _ _ _ Har) in Ia. fold N in Ia.
  assert (Hne : sum (firstn N (1 :: AR)) <> 0) by (intros E; apply Ia; rewrite E; ring).
  split; [reflexivity|]. split; [exact Hne|].
  rewrite (nth_map2 _ _ _ _ 0 0 0) by lia.
  rewrite (fft_power_dc _ _ _ Har), (fft_power_dc _ _ _ Hma). fold N.
  rewrite firstn_firstn, Nat.min_id. field. exact Hne.
Qed.


Lemma sum_map2_seq_zeros (f : nat -> R -> R) (a n m : nat) :
  (forall j, f j 0 = 0) -> sum (map2 f (seq a n) (zeros m)) = 0.
Proof.
  intros Hf. revert a m. induction n as [|n IH]; intros a [|m]; try reflexivity.
  cbn [seq zeros repeat map2 sum]. rewrite Hf.
  change (repeat 0 m) with (zeros m). rewrite IH. lra.
Qed.

(** The power spectrum of a single coefficient is flat. *)
Lemma fft_power_impulse (c : R) (n : Z) :
  (1 <= n)%Z -> fft_power [c] n = Return (repeat (c * c) (Z.to_nat n)).
Proof.
  intros Hn. unfold fft_power. destruct (Z.ltb_spec n 1); [lia|].
  f_equal. set (N := Z.to_nat n).
  destruct N as [|N'] eqn:EN; [lia|].
  apply nth_ext with (d := 0) (d' := 0).
  - rewrite length_map, length_seq, repeat_length. reflexivity.
  - intros k Hk. rewrite length_map, length_seq in Hk.
    rewrite nth_map_seq by exact Hk. rewrite nth_repeat_lt by exact Hk.
    cbn [plus]. cbv zeta. rewrite np_abs_sqr.
    assert (Exs : firstn (S N') [c] ++ zeros (S N' - length [c]) = c :: zeros N').
    { cbn [firstn length]. rewrite firstn_nil. cbn [app]. do 2 f_equal. lia. }
    rewrite Exs. cbn [seq map2 sum].
    rewrite !sum_map2_seq_zeros by (intros; ring).
    cbn [INR]. unfold Rdiv. rewrite !Rmult_0_r, !Rmult_0_l, cos_0, sin_0. ring.
Qed.

(** The model of order zero with the gain [g]. *)
Lemma arma2psd_order_0 (self : Arma.t) (hold : bool) (g : R) :
  AR_ self = Some [] -> MA self = Some [Real g] -> (1 <= fftlen self)%Z ->
  arma2psd self hold =
  Return (Updated (mkArma (ordar self) (ordma self) (fftlen self)
                          ((if hold then Arma.psd self else []) ++
                           [[map2 Rdiv (repeat (g * g) (Z.to_nat (fftlen self)))
                                       (repeat (1 * 1) (Z.to_nat (fftlen self)))]])
                          (AR_ self) (MA self))).
Proof.
  intros HAR HMA Hn. unfold arma2psd. rewrite HAR, HMA. cbv beta iota zeta.
  rewrite fft_power_impulse by exact Hn. cbn [bind].
  assert (Hr : reals (firstn (Z.to_nat (fftlen self)) [Real g]) = Some [g]).
  { destruct (Z.to_nat (fftlen self)) as [|N'] eqn:EN; [lia|].
    cbn [firstn]. rewrite firstn_nil. reflexivity. }
  rewrite Hr.
  rewrite fft_power_impulse by exact Hn. cbn [bind].
  assert (Hz : existsb (fun d => if Req_dec_T d 0 then true else false)
                       (repeat (1 * 1) (Z.to_nat (fftlen self))) = false).
  { clear Hr. induction (Z.to_nat (fftlen self)) as [|m IH]; [reflexivity|].
    cbn [repeat existsb]. destruct (Req_dec_T (1 * 1) 0) as [E|_]; [lra|].
    exact IH. }
  rewrite Hz. reflexivity.
Qed.

End PsdFacts.

(** ** The inverse filter *)

Section InverseFilter.

Import Np Linalg Arma.
Open Scope R_scope.

Lemma sum_rev_seq (f : nat -> R) (K : nat) :
  sum (map f (seq 0 (S K))) = sum (map (fun i => f (K - i)%nat) (seq 0 (S K))).
Proof.
  revert f. induction K as [|K IH]; intros f; [reflexivity|].
  transitivity (f 0%nat + sum (map (fun j => f (S j)) (seq 0 (S K)))).
  { change (seq 0 (S (S K))) with (0%nat :: seq 1 (S K)). cbn [map sum].
    rewrite <- seq_shift, map_map. reflexivity. }
  rewrite (IH (fun j => f (S j))).
  rewrite (seq_S (S K) 0), map_app, sum_app.
  cbn [plus map sum]. rewrite Nat.sub_diag, Rplus_0_r, Rplus_comm. f_equal.
  apply sum_map_ext. intros i Hi. apply in_seq in Hi. f_equal. lia.
Qed.

Lemma sum_seq_zero_tail (h : nat -> R) (n e : nat) :
  (forall i, (n <= i)%nat -> h i = 0) ->
  sum (map h (seq 0 (n + e))) = sum (map h (seq 0 n)).
Proof.
  intros Hz. rewrite seq_app, map_app, sum_app.
  assert (E : sum (map h (seq (0 + n) e)) = 0).
  { rewrite (sum_map_ext h (fun _ => 0)); [apply sum_map_zero|].
    intros i Hi. apply in_seq in Hi. apply Hz. lia. }
  rewrite E. lra.
Qed.

Lemma convolution_flip (a b : nat -> R) (K p : nat) :
  (forall i, (p < i)%nat -> b i = 0) ->
  sum (map (fun j => a j * b (K - j)%nat) (seq 0 (S K))) =
  sum (map (fun i => if (i <=? K)%nat then b i * a (K - i)%nat else 0)
           (seq 0 (S p))).
Proof.
  intros Hb. rewrite sum_rev_seq.
  set (h := fun i => if (i <=? K)%nat then b i * a (K - i)%nat else 0).
  transitivity (sum (map h (seq 0 (S K)))).
  { apply sum_map_ext. intros i Hi. apply in_seq in Hi. unfold h.
    destruct (Nat.leb_spec i K); [|lia].
    replace (K - (K - i))%nat with i by lia. ring. }
  rewrite <- (sum_seq_zero_tail h (S K) (S p)).
  2:{ intros i Hi. unfold h. destruct (Nat.leb_spec i K); [lia|reflexivity]. }
  rewrite <- (sum_seq_zero_tail h (S p) (S K)).
  2:{ intros i Hi. unfold h. rewrite Hb by lia.
      destruct (i <=? K)%nat; ring. }
  f_equal. f_equal. f_equal. lia.
Qed.

(** X10: [Arma.inverse] is the filter [1, a(1), ..., a(p)] applied with an
    advance of [p // 2] samples, the samples outside the signal counting as
    zero; the output has the length of the input. *)
Theorem inverse_centred_filter (self : Arma.t) (sig AR : list R) :
  AR_ self = Some AR ->
  let p := length AR in
  exists out,
    inverse self sig = Return out /\
    length out = length sig /\
    forall t, (t < length sig)%nat ->
      nth t out 0 =
      sum (map (fun i => if (i <=? t + p / 2)%nat
                         then nth i (1 :: AR) 0 * nth (t + p / 2 - i) sig 0
                         else 0)
               (seq 0 (S p))).
Proof.
  intros HAR p. unfold inverse. rewrite HAR.
  eexists. split; [reflexivity|].
  split; [apply length_convolve_same; discriminate|].
  intros t Ht. unfold convolve_same.
  destruct sig as [|s0 sig']; [cbn in Ht; lia|].
  set (sig := s0 :: sig') in *.
  assert (Hfull : convolve_full sig (1 :: AR) =
            map (fun k => sum (map (fun j => nth j sig 0 * nth (k - j) (1 :: AR) 0)
                                   (seq 0 (S k))))
                (seq 0 (length sig + length (1 :: AR) - 1))) by reflexivity.
  rewrite Hfull. rewrite length_map, length_seq.
  cbn [length]. fold p.
  replace (length sig + S p - 1 - length sig)%nat with p.
  2:{ unfold sig. cbn [length]. lia. }
  rewrite nth_firstn_skipn by exact Ht.
  assert (Hd : (p / 2 <= p)%nat) by (apply Nat.Div0.div_le_upper_bound; lia).
  rewrite nth_map_seq by (unfold sig in *; cbn [length] in *; lia).
  cbn [plus].
  replace (p / 2 + t)%nat with (t + p / 2)%nat by lia.
  apply (convolution_flip (fun j => nth j sig 0) (fun i => nth i (1 :: AR) 0)
                          (t + p / 2) p).
  intros i Hi. apply nth_overflow. cbn [length]. fold p. lia.
Qed.

End InverseFilter.

(** ** The model of a white spectrum *)

Section WhiteSpectrum.

Import Np Linalg Arma Terms.
Open Scope R_scope.

(** The cosines of the multiples of [2 pi k / N] sum to zero. *)
Lemma cos_sum_telescope (theta : R) (n : nat) :
  2 * sin (theta / 2) * sum (map (fun j => cos (INR j * theta)) (seq 0 n)) =
  sin ((INR n - 1 / 2) * theta) + sin (theta / 2).
Proof.
  induction n as [|n IH].
  - cbn [seq map sum INR].
    replace ((0 - 1 / 2) * theta) with (- (theta / 2)) by field.
    rewrite sin_neg. ring.
  - rewrite seq_S, map_app, sum_app. cbn [plus map sum].
    rewrite Rmult_plus_distr_l, IH, S_INR.
    replace ((INR n + 1 - 1 / 2) * theta) with (INR n * theta + theta / 2) by field.
    replace ((INR n - 1 / 2) * theta) with (INR n * theta - theta / 2) by field.
    rewrite sin_plus, sin_minus. ring.
Qed.

Lemma cos_sum_zero (k N : nat) :
  (0 < k < N)%nat ->
  sum (map (fun j => cos (2 * PI * INR j * INR k / INR N)) (seq 0 N)) = 0.
Proof.
  intros Hk.
  assert (HN : 0 < INR N) by (apply lt_0_INR; lia).
  assert (Hk0 : 0 < INR k) by (apply lt_0_INR; lia).
  assert (HkN : INR k < INR N) by (apply lt_INR; lia).
  set (theta := 2 * PI * INR k / INR N).
  assert (Hs : 0 < sin (theta / 2)).
  { pose proof PI_RGT_0 as Hpi.
    assert (E : theta / 2 = PI * (INR k / INR N)) by (unfold theta; field; lra).
    assert (0 < INR k / INR N < 1).
    { split; [apply Rdiv_lt_0_compat; assumption|].
      apply (Rmult_lt_reg_r (INR N)); [exact HN|].
      unfold Rdiv. rewrite Rmult_assoc, Rinv_l by lra. lra. }
    rewrite E. apply sin_gt_0; nra. }
  assert (E : sum (map (fun j => cos (2 * PI * INR j * INR k / INR N)) (seq 0 N)) =
              sum (map (fun j => cos (INR j * theta)) (seq 0 N))).
  { apply sum_map_ext. intros j _. f_equal. unfold theta. field. lra. }
  rewrite E.
  pose proof (cos_sum_telescope theta N) as T.
  assert (Hend : sin ((INR N - 1 / 2) * theta) = - sin (theta / 2)).
  { replace ((INR N - 1 / 2) * theta) with (- (theta / 2) + 2 * INR k * PI)
      by (unfold theta; field; lra).
    rewrite sin_period. apply sin_neg. }
  rewrite Hend in T.
  assert (Z0 : sin (theta / 2) * sum (map (fun j => cos (INR j * theta)) (seq 0 N)) = 0)
    by lra.
  apply Rmult_integral in Z0 as [Z0|Z0]; [lra|exact Z0].
Qed.

Lemma sum_map2_seq_repeat (f : nat -> R) (c : R) (a n : nat) :
  sum (map2 (fun j xj => xj * f j) (seq a n) (repeat c n)) =
  c * sum (map f (seq a n)).
Proof.
  revert a. induction n as [|n IH]; intros a; cbn [seq repeat map2 map sum]; [ring|].
  rewrite IH. ring.
Qed.

(** The correlation of a white spectrum: [c] at lag 0, zero elsewhere. *)
Lemma ifft_real_flat (c : R) (n : Z) :
  (1 <= n)%Z ->
  exists correl,
    ifft_real (repeat c (Z.to_nat n)) n = Return correl /\
    length correl = Z.to_nat n /\
    nth 0 correl 0 = c /\
    forall k, (0 < k < Z.to_nat n)%nat -> nth k correl 0 = 0.
Proof.
  intros Hn. unfold ifft_real. destruct (Z.ltb_spec n 1); [lia|].
  set (N := Z.to_nat n).
  assert (HN : INR N <> 0) by (apply not_0_INR; lia).
  assert (Exs : firstn N (repeat c N) ++ zeros (N - length (repeat c N)) = repeat c N).
  { rewrite repeat_length, Nat.sub_diag. cbn [zeros repeat]. rewrite app_nil_r.
    apply firstn_all2. rewrite repeat_length. lia. }
  rewrite Exs.
  eexists. split; [reflexivity|].
  split; [rewrite length_map, length_seq; reflexivity|].
  split.
  - rewrite nth_map_seq by lia. cbn [plus].
    rewrite (sum_map2_seq_repeat (fun j => cos (2 * PI * INR j * INR 0 / INR N))).
    rewrite (sum_map_ext _ (fun _ => 1)).
    2:{ intros j _. cbn [INR]. unfold Rdiv. rewrite Rmult_0_r, Rmult_0_l. apply cos_0. }
    assert (E1 : forall m, sum (map (fun _ : nat => 1) (seq 0 m)) = INR m).
    { induction m as [|m IH]; [reflexivity|].
      rewrite seq_S, map_app, sum_app, IH, S_INR. cbn [map sum]. ring. }
    rewrite E1. field. exact HN.
  - intros k Hk. rewrite nth_map_seq by lia. cbn [plus].
    rewrite (sum_map2_seq_repeat (fun j => cos (2 * PI * INR j * INR k / INR N))).
    rewrite cos_sum_zero by exact Hk. unfold Rdiv. ring.
Qed.


Lemma sum_delta (h : nat -> R) (i a n : nat) :
  sum (map (fun j => if (j =? i)%nat then h j else 0) (seq a n)) =
  if ((a <=? i) && (i <? a + n))%nat then h i else 0.
Proof.
  revert a. induction n as [|n IH]; intros a.
  - cbn [seq map sum]. rewrite Nat.add_0_r.
    destruct (Nat.leb_spec a i); destruct (Nat.ltb_spec i a); cbn [andb];
      try lia; reflexivity.
  - cbn [seq map sum]. rewrite IH.
    destruct (Nat.eqb_spec a i) as [->|Hne].
    + destruct (Nat.leb_spec (S i) i); [lia|]. cbn [andb].
      destruct (Nat.leb_spec i i); [|lia].
      destruct (Nat.ltb_spec i (i + S n)); [|lia]. cbn [andb]. ring.
    + destruct (Nat.leb_spec (S a) i); destruct (Nat.leb_spec a i);
        destruct (Nat.ltb_spec i (S a + n)); destruct (Nat.ltb_spec i (a + S n));
        cbn [andb]; try lia; ring.
Qed.

(** The Toeplitz matrix of a white correlation is [c] times the identity. *)
Lemma white_matvec (correl : list R) (c : R) (p : nat) (v : vec) :
  nth 0 correl 0 = c ->
  (forall k, (0 < k <= p)%nat -> nth k correl 0 = 0) ->
  length v = p ->
  matvec (spec_matrix p correl) v = map (fun x => c * x) v.
Proof.
  intros H0 Hk Hv. unfold matvec, spec_matrix. rewrite map_map.
  apply nth_ext with (d := 0) (d' := 0).
  - rewrite !length_map, length_seq. lia.
  - intros i Hi. rewrite length_map, length_seq in Hi.
    rewrite nth_map_seq by exact Hi. cbn [plus].
    rewrite (nth_map_in (fun x => c * x) v i 0 0) by lia.
    rewrite sum_map2_nth by (rewrite length_map, length_seq; lia).
    rewrite length_map, length_seq.
    rewrite (sum_map_ext _ (fun j => if (j =? i)%nat then c * nth j v 0 else 0)).
    + rewrite sum_delta. cbn [Nat.leb plus andb].
      destruct (Nat.ltb_spec i p); [reflexivity|lia].
    + intros j Hj. apply in_seq in Hj.
      rewrite nth_map_seq by lia. cbn [plus].
      destruct (Nat.eqb_spec j i) as [->|Hne].
      * destruct (Nat.leb_spec i i); [|lia]. rewrite Nat.sub_diag, H0. reflexivity.
      * destruct (Nat.leb_spec j i); rewrite Hk by lia; ring.
Qed.

Lemma squareb_spec_matrix (p : nat) (correl : list R) :
  squareb (spec_matrix p correl) = true.
Proof.
  unfold squareb, spec_matrix. apply forallb_forall. intros row Hin.
  apply in_map_iff in Hin as (i & <- & _).
  rewrite !length_map, !length_seq. apply Nat.eqb_refl.
Qed.

Lemma white_solve (correl : list R) (c : R) (p : nat) :
  c <> 0 -> nth 0 correl 0 = c ->
  (forall k, (0 < k <= p)%nat -> nth k correl 0 = 0) ->
  solve (spec_matrix p correl) (spec_rhs p correl) = Return (zeros p).
Proof.
  intros Hc H0 Hk.
  assert (Hl : length (spec_matrix p correl) = p)
    by (unfold spec_matrix; rewrite length_map, length_seq; reflexivity).
  apply solve_returns.
  - apply squareb_spec_matrix.
  - unfold spec_rhs. rewrite length_map, length_seq, Hl. reflexivity.
  - intros v Hv Hm. rewrite Hl in *.
    rewrite (white_matvec correl c p v H0 Hk Hv) in Hm.
    apply nth_ext with (d := 0) (d' := 0); [rewrite length_zeros; exact Hv|].
    intros i Hi. apply (f_equal (fun l => nth i l 0)) in Hm.
    rewrite (nth_map_in (fun x => c * x) v i 0 0) in Hm by exact Hi.
    unfold zeros in *. rewrite nth_repeat_lt in Hm |- * by lia.
    apply Rmult_integral in Hm as [?|?]; [contradiction|assumption].
  - split; [rewrite length_zeros, Hl; reflexivity|].
    rewrite (white_matvec correl c p _ H0 Hk (length_zeros p)).
    unfold spec_rhs. apply nth_ext with (d := 0) (d' := 0).
    + rewrite !length_map, length_zeros, length_seq. reflexivity.
    + intros i Hi. rewrite length_map, length_zeros in Hi.
      rewrite (nth_map_in (fun x => c * x) (zeros p) i 0 0)
        by (rewrite length_zeros; exact Hi).
      rewrite nth_map_seq by exact Hi. cbn [plus].
      unfold zeros. rewrite nth_repeat_lt by exact Hi.
      rewrite Hk by lia. ring.
Qed.

Lemma py_index_last {A : Type} (l : list A) (x : A) :
  py_index (l ++ [x]) (-1) = Return x.
Proof.
  unfold py_index. cbv zeta.
  change (-1 <? 0)%Z with true. cbv iota.
  rewrite length_app. cbn [length].
  destruct (Z.ltb_spec (-1 + Z.of_nat (length l + 1)) 0) as [?|_]; [lia|].
  replace (Z.to_nat (-1 + Z.of_nat (length l + 1))) with (length l) by lia.
  rewrite nth_error_app2 by lia. rewrite Nat.sub_diag. reflexivity.
Qed.

(** X11: on a white spectrum the estimator finds the white model.  When the
    first row of the last PSD holds the same non-zero value [c] in all its
    [fftlen] bins, [estimate] (of an order from 1 to [fftlen - 1]) sets every
    AR coefficient to zero and the gain to [sqrt c] (NaN for a negative
    [c]). *)
Theorem estimate_white_spectrum (self : Arma.t) (c : R) (earlier : list matrix)
  (rows : matrix) :
  ordma self = 0%Z -> (1 <= ordar self < fftlen self)%Z ->
  Arma.psd self = earlier ++ [repeat c (Z.to_nat (fftlen self)) :: rows] ->
  c <> 0 ->
  estimate self None (-1) =
  (set_MA (set_AR_ self (zeros (Z.to_nat (ordar self)))) [np_sqrt c], Return tt).
Proof.
  intros Hma Hp Hpsd Hc.
  set (p := Z.to_nat (ordar self)).
  destruct (ifft_real_flat c (fftlen self)) as (correl & Hi & Hlen & H0 & Hk); [lia|].
  assert (Hcorr : correlation self (-1) = Return correl).
  { unfold correlation. rewrite Hpsd, py_index_last. cbn [bind].
    change (py_index (repeat c (Z.to_nat (fftlen self)) :: rows) 0)
      with (Return (repeat c (Z.to_nat (fftlen self)))).
    cbn [bind]. exact Hi. }
  assert (Hlt : (p < length correl)%nat) by (unfold p; lia).
  pose proof (yule_walker_spec self correl Hma ltac:(lia) Hlt) as Hy. fold p in Hy.
  pose proof (estimate_ar_unfold self correl _ _ Hcorr Hy) as Har.
  rewrite (white_solve correl c p Hc H0) in Har by (intros k Hk'; apply Hk; lia).
  cbn [bind] in Har.
  assert (Hv : noise_variance self correl (zeros p) = Return c).
  { rewrite noise_variance_spec; [|lia|exact Hlt|apply length_zeros].
    f_equal. unfold spec_variance. rewrite H0, length_zeros.
    rewrite (sum_map_ext _ (fun _ => 0)).
    - rewrite sum_map_zero. ring.
    - intros i Hin. apply in_seq in Hin. unfold zeros.
      rewrite nth_repeat_lt by lia. ring. }
  exact (estimate_returns self None (-1) correl (zeros p) c Har Hma Hv).
Qed.

End WhiteSpectrum.

(** ** The Levinson recursions *)

Section LevinsonFacts.

Import Np Linalg Levinson Notions.
Open Scope R_scope.

Lemma rect_nth (m : nat) (P : matrix) (i : nat) :
  rect m P -> (i < length P)%nat -> length (nth i P []) = m.
Proof.
  intros H Hi. unfold rect in H. rewrite Forall_forall in H.
  apply H. apply nth_In. exact Hi.
Qed.

Lemma length_flipud_update (op : R -> R -> R) (k : list R) (rows : matrix) :
  length (flipud_update op k rows) = length rows.
Proof.
  unfold flipud_update. rewrite length_map2, length_rev. apply Nat.min_id.
Qed.

Lemma length_scale_rows (factor : list R) (rows : matrix) :
  length (scale_rows factor rows) = length rows.
Proof. apply length_map. Qed.

Lemma nth_flipud_update (op : R -> R -> R) (k : list R) (rows : matrix) (j : nat) :
  (j < length rows)%nat ->
  nth j (flipud_update op k rows) [] =
  map2 op (nth j rows []) (map2 Rmult k (nth (length rows - S j) rows [])).
Proof.
  intros Hj. unfold flipud_update.
  rewrite (nth_map2 _ _ _ j [] [] []) by (rewrite ?length_rev; exact Hj).
  rewrite rev_nth by exact Hj. reflexivity.
Qed.

Lemma rect_flipud_update (op : R -> R -> R) (m : nat) (k : list R) (rows : matrix) :
  length k = m -> rect m rows -> rect m (flipud_update op k rows).
Proof.
  intros Hk Hr. unfold rect. apply Forall_forall. intros row Hin.
  apply (In_nth _ _ []) in Hin as (j & Hj & <-).
  rewrite length_flipud_update in Hj.
  rewrite nth_flipud_update by exact Hj.
  rewrite !length_map2, Hk.
  rewrite !(rect_nth m rows) by (assumption || lia). lia.
Qed.

Lemma rect_scale_rows (m : nat) (factor : list R) (rows : matrix) :
  length factor = m -> rect m rows -> rect m (scale_rows factor rows).
Proof.
  intros Hf Hr. unfold rect, scale_rows. apply Forall_map.
  eapply Forall_impl; [|exact Hr]. cbn. intros row H.
  rewrite length_map2. lia.
Qed.


Lemma nth_step_down (k : list R) (rows : matrix) (j : nat) :
  (j < length rows)%nat ->
  nth j (step_down k rows) [] =
  map2 Rmult
    (map2 Rminus (nth j rows []) (map2 Rmult k (nth (length rows - S j) rows [])))
    (map (fun d => 1 / d) (map (fun x => 1 - x * x) k)).
Proof.
  intros Hj. unfold step_down, scale_rows.
  rewrite (nth_map_in _ _ j []) by (rewrite length_flipud_update; exact Hj).
  rewrite nth_flipud_update by exact Hj. reflexivity.
Qed.

Ltac nth_entries m :=
  repeat first
    [ rewrite (nth_map2 _ _ _ _ 0 0 0)
        by (rewrite ?length_map2, ?length_map; lia)
    | rewrite (nth_map_in _ _ _ 0 0) by (rewrite ?length_map; lia) ].

Lemma up_down (m : nat) (k : list R) (rows : matrix) :
  length k = m -> rect m rows ->
  Forall (fun x => 1 - x * x <> 0) k ->
  flipud_update Rplus k (step_down k rows) = rows.
Proof.
  intros Hk Hr Hne.
  assert (Hl : length (step_down k rows) = length rows)
    by (unfold step_down; rewrite length_scale_rows, length_flipud_update; reflexivity).
  apply nth_ext with (d := []) (d' := []).
  - rewrite length_flipud_update. exact Hl.
  - intros j Hj. rewrite length_flipud_update, Hl in Hj.
    rewrite nth_flipud_update by lia. rewrite Hl.
    rewrite !nth_step_down by lia.
    replace (length rows - S (length rows - S j))%nat with j by lia.
    pose proof (rect_nth m rows j Hr Hj) as Ha.
    pose proof (rect_nth m rows (length rows - S j) Hr ltac:(lia)) as Hb.
    set (a := nth j rows []) in *.
    set (b := nth (length rows - S j) rows []) in *.
    apply nth_ext with (d := 0) (d' := 0).
    + repeat (rewrite length_map2 || rewrite length_map). lia.
    + intros c Hc. repeat (rewrite length_map2 in Hc || rewrite length_map in Hc).
      nth_entries m.
      rewrite Forall_forall in Hne.
      specialize (Hne (nth c k 0) ltac:(apply nth_In; lia)).
      field. exact Hne.
Qed.

Lemma down_up (m : nat) (k : list R) (rows : matrix) :
  length k = m -> rect m rows ->
  Forall (fun x => 1 - x * x <> 0) k ->
  step_down k (flipud_update Rplus k rows) = rows.
Proof.
  intros Hk Hr Hne.
  assert (Hl : length (flipud_update Rplus k rows) = length rows)
    by apply length_flipud_update.
  apply nth_ext with (d := []) (d' := []).
  - unfold step_down. rewrite length_scale_rows, length_flipud_update. exact Hl.
  - intros j Hj. unfold step_down in Hj.
    rewrite length_scale_rows, length_flipud_update, Hl in Hj.
    rewrite nth_step_down by lia. rewrite Hl.
    rewrite !nth_flipud_update by lia.
    replace (length rows - S (length rows - S j))%nat with j by lia.
    pose proof (rect_nth m rows j Hr Hj) as Ha.
    pose proof (rect_nth m rows (length rows - S j) Hr ltac:(lia)) as Hb.
    set (a := nth j rows []) in *.
    set (b := nth (length rows - S j) rows []) in *.
    apply nth_ext with (d := 0) (d' := 0).
    + repeat (rewrite length_map2 || rewrite length_map). lia.
    + intros c Hc. repeat (rewrite length_map2 in Hc || rewrite length_map in Hc).
      nth_entries m.
      rewrite Forall_forall in Hne.
      specialize (Hne (nth c k 0) ltac:(apply nth_In; lia)).
      field. exact Hne.
Qed.


Lemma firstn_app_l {A : Type} (i : nat) (B t : list A) :
  (i <= length B)%nat -> firstn i (B ++ t) = firstn i B.
Proof.
  intros H. rewrite firstn_app.
  replace (i - length B)%nat with 0%nat by lia.
  rewrite firstn_O. apply app_nil_r.
Qed.

Lemma skipn_app_l {A : Type} (i : nat) (B t : list A) :
  (i <= length B)%nat -> skipn i (B ++ t) = skipn i B ++ t.
Proof.
  intros H. rewrite skipn_app.
  replace (i - length B)%nat with 0%nat by lia. reflexivity.
Qed.

Lemma length_head_tail {A : Type} (X : list A) (i : nat) (B : list A) :
  length X = i -> (i <= length B)%nat -> length (X ++ skipn i B) = length B.
Proof. intros H1 H2. rewrite length_app, length_skipn. lia. Qed.

Lemma length_ai2ki_subtract (B : matrix) (i : nat) :
  (i <= length B)%nat -> length (ai2ki_subtract B i) = length B.
Proof.
  intros H. unfold ai2ki_subtract. apply length_head_tail; [|exact H].
  rewrite length_flipud_update, length_firstn. lia.
Qed.

Lemma ai2ki_subtract_frame (B t : matrix) (i : nat) :
  (i < length B)%nat ->
  ai2ki_subtract (B ++ t) i = ai2ki_subtract B i ++ t.
Proof.
  intros H. unfold ai2ki_subtract.
  rewrite app_nth1, firstn_app_l, skipn_app_l by lia.
  apply app_assoc.
Qed.

Lemma ai2ki_scale_frame (B t : matrix) (i : nat) :
  (i < length B)%nat ->
  ai2ki_scale (B ++ t) i = lift_app (ai2ki_scale B i) t.
Proof.
  intros H. unfold ai2ki_scale.
  rewrite app_nth1, firstn_app_l, skipn_app_l by lia.
  destruct (existsb _ _); cbn [lift_app]; [reflexivity|].
  rewrite app_assoc. reflexivity.
Qed.

Lemma ai2ki_step_frame (B t : matrix) (i : nat) :
  (i < length B)%nat ->
  ai2ki_step (B ++ t) i = lift_app (ai2ki_step B i) t.
Proof.
  intros H. unfold ai2ki_step.
  destruct (0 <? i)%nat; [|reflexivity].
  rewrite ai2ki_subtract_frame by exact H.
  apply ai2ki_scale_frame. rewrite length_ai2ki_subtract; lia.
Qed.

Lemma length_ai2ki_step (B K : matrix) (i : nat) :
  (i <= length B)%nat -> ai2ki_step B i = Finite K -> length K = length B.
Proof.
  intros H. unfold ai2ki_step, ai2ki_scale.
  destruct (0 <? i)%nat; [|intros [= <-]; reflexivity].
  destruct (existsb _ _); [discriminate|]. intros [= <-].
  rewrite <- (length_ai2ki_subtract B i) by exact H.
  apply length_head_tail.
  - rewrite length_scale_rows, length_firstn, length_ai2ki_subtract; lia.
  - rewrite length_ai2ki_subtract; lia.
Qed.

Lemma ai2ki_loop_frame (l : list nat) (B t : matrix) :
  Forall (fun i => (i < length B)%nat) l ->
  ai2ki_loop (B ++ t) l = lift_app (ai2ki_loop B l) t.
Proof.
  revert B. induction l as [|i l IH]; intros B Hl; [reflexivity|].
  inversion Hl as [|? ? Hi Hl']; subst. cbn [ai2ki_loop].
  rewrite ai2ki_step_frame by exact Hi.
  destruct (ai2ki_step B i) as [K|] eqn:E; cbn [lift_app]; [|reflexivity].
  apply IH. apply length_ai2ki_step in E; [|lia]. rewrite E. exact Hl'.
Qed.

Lemma length_ai2ki_loop (l : list nat) (B K : matrix) :
  Forall (fun i => (i < length B)%nat) l ->
  ai2ki_loop B l = Finite K -> length K = length B.
Proof.
  revert B. induction l as [|i l IH]; intros B Hl; cbn [ai2ki_loop].
  - intros [= <-]. reflexivity.
  - inversion Hl as [|? ? Hi Hl']; subst.
    destruct (ai2ki_step B i) as [K'|] eqn:E; [|discriminate].
    apply length_ai2ki_step in E; [|lia]. intros H.
    apply IH in H; [lia|]. rewrite E. exact Hl'.
Qed.

Lemma indices_below (n : nat) : Forall (fun i => (i < n)%nat) (rev (seq 0 n)).
Proof.
  apply Forall_forall. intros i Hi. apply in_rev, in_seq in Hi. lia.
Qed.

(** The recursion that the loop of [ai2ki] performs: the last row is kept, it
    is the reflection coefficient with which the rows above are stepped down,
    and these are converted in turn. *)
Lemma ai2ki_snoc (A : matrix) (r : list R) :
  A <> [] ->
  ai2ki (A ++ [r]) =
  if existsb (fun d => if Req_dec_T d 0 then true else false)
             (map (fun x => 1 - x * x) r)
  then ParcorNotFinite
  else lift_app (ai2ki (step_down r A)) [r].
Proof.
  intros HA. unfold ai2ki.
  rewrite length_app. cbn [length].
  replace (length A + 1)%nat with (S (length A)) by lia.
  rewrite seq_S, rev_app_distr. cbn [rev app ai2ki_loop plus].
  unfold ai2ki_step.
  destruct (Nat.ltb_spec 0 (length A)) as [Hpos|Hz].
  2:{ destruct A; [contradiction|cbn in Hz; lia]. }
  assert (Es : ai2ki_subtract (A ++ [r]) (length A) = flipud_update Rminus r A ++ [r]).
  { unfold ai2ki_subtract.
    rewrite app_nth2, Nat.sub_diag by lia. cbn [nth].
    rewrite firstn_app_l, firstn_all by lia.
    rewrite skipn_app, skipn_all, Nat.sub_diag. reflexivity. }
  rewrite Es. unfold ai2ki_scale.
  rewrite app_nth2 by (rewrite length_flipud_update; lia).
  rewrite length_flipud_update, Nat.sub_diag. cbn [nth].
  destruct (existsb _ _); [reflexivity|].
  rewrite firstn_app_l by (rewrite length_flipud_update; lia).
  rewrite firstn_all2 by (rewrite length_flipud_update; lia).
  rewrite skipn_app, length_flipud_update, Nat.sub_diag.
  rewrite skipn_all2 by (rewrite length_flipud_update; lia).
  cbn [skipn app]. fold (step_down r A).
  assert (Hl : length (step_down r A) = length A)
    by (unfold step_down; rewrite length_scale_rows, length_flipud_update; reflexivity).
  rewrite <- Hl. apply ai2ki_loop_frame. apply indices_below.
Qed.

Lemma length_ki2ai_step (K a : matrix) (i : nat) :
  (i < length a)%nat -> length (ki2ai_step K a i) = length a.
Proof.
  intros H. unfold ki2ai_step.
  assert (Hl : length (if (0 <? i)%nat
                       then flipud_update Rplus (nth i K []) (firstn i a) ++ skipn i a
                       else a) = length a).
  { destruct (0 <? i)%nat; [|reflexivity].
    apply length_head_tail; [|lia].
    rewrite length_flipud_update, length_firstn. lia. }
  set (a' := (if (0 <? i)%nat
              then flipud_update Rplus (nth i K []) (firstn i a) ++ skipn i a
              else a)) in *.
  rewrite length_app, length_firstn. cbn [length]. rewrite length_skipn. lia.
Qed.

Lemma ki2ai_step_frame (K t' a t : matrix) (i : nat) :
  (i < length K)%nat -> (i < length a)%nat ->
  ki2ai_step (K ++ t') (a ++ t) i = ki2ai_step K a i ++ t.
Proof.
  intros HK Ha. unfold ki2ai_step.
  rewrite app_nth1 by exact HK.
  assert (E : (if (0 <? i)%nat
               then flipud_update Rplus (nth i K []) (firstn i (a ++ t)) ++ skipn i (a ++ t)
               else a ++ t) =
              (if (0 <? i)%nat
               then flipud_update Rplus (nth i K []) (firstn i a) ++ skipn i a
               else a) ++ t).
  { destruct (0 <? i)%nat; [|reflexivity].
    rewrite firstn_app_l, skipn_app_l by lia. apply app_assoc. }
  rewrite E.
  assert (Hl : length (if (0 <? i)%nat
                       then flipud_update Rplus (nth i K []) (firstn i a) ++ skipn i a
                       else a) = length a).
  { destruct (0 <? i)%nat; [|reflexivity].
    apply length_head_tail; [|lia].
    rewrite length_flipud_update, length_firstn. lia. }
  set (a' := (if (0 <? i)%nat
              then flipud_update Rplus (nth i K []) (firstn i a) ++ skipn i a
              else a)) in *.
  rewrite firstn_app_l, skipn_app_l by lia.
  rewrite <- app_assoc. reflexivity.
Qed.

Lemma ki2ai_fold_frame (l : list nat) (K t' a t : matrix) :
  Forall (fun i => (i < length K)%nat /\ (i < length a)%nat) l ->
  fold_left (ki2ai_step (K ++ t')) l (a ++ t) =
  fold_left (ki2ai_step K) l a ++ t.
Proof.
  revert a. induction l as [|i l IH]; intros a Hl; [reflexivity|].
  inversion Hl as [|? ? [HK Ha] Hl']; subst. cbn [fold_left].
  rewrite ki2ai_step_frame by assumption.
  apply IH. eapply Forall_impl; [|exact Hl'].
  cbn. intros j [? ?]. rewrite length_ki2ai_step by exact Ha. split; assumption.
Qed.

Lemma length_ki2ai_fold (l : list nat) (K a : matrix) :
  Forall (fun i => (i < length a)%nat) l ->
  length (fold_left (ki2ai_step K) l a) = length a.
Proof.
  revert a. induction l as [|i l IH]; intros a Hl; [reflexivity|].
  inversion Hl as [|? ? Ha Hl']; subst. cbn [fold_left].
  rewrite IH; [apply length_ki2ai_step; exact Ha|].
  eapply Forall_impl; [|exact Hl'].
  cbn. intros j ?. rewrite length_ki2ai_step by exact Ha. assumption.
Qed.

Lemma length_ki2ai (K : matrix) : length (ki2ai K) = length K.
Proof.
  unfold ki2ai. rewrite length_ki2ai_fold; [apply length_map|].
  apply Forall_forall. intros i Hi. apply in_seq in Hi.
  rewrite length_map. lia.
Qed.

(** The recursion that the loop of [ki2ai] performs. *)
Lemma ki2ai_snoc (K : matrix) (r : list R) :
  ki2ai (K ++ [r]) = flipud_update Rplus r (ki2ai K) ++ [r].
Proof.
  unfold ki2ai at 1. rewrite length_app. cbn [length].
  replace (length K + 1)%nat with (S (length K)) by lia.
  rewrite seq_S, fold_left_app, map_app. cbn [plus map fold_left].
  rewrite ki2ai_fold_frame.
  2:{ apply Forall_forall. intros i Hi. apply in_seq in Hi.
      rewrite length_map. lia. }
  fold (ki2ai K).
  pose proof (length_ki2ai K) as Hl.
  unfold ki2ai_step.
  rewrite app_nth2, Nat.sub_diag by lia. cbn [nth].
  destruct (Nat.ltb_spec 0 (length K)) as [Hpos|Hz].
  - set (z := map (fun _ : R => 0) r).
    assert (E1 : firstn (length K) (ki2ai K ++ [z]) = ki2ai K).
    { rewrite firstn_app_l by lia. apply firstn_all2. lia. }
    assert (E2 : skipn (length K) (ki2ai K ++ [z]) = [z]).
    { rewrite skipn_app, skipn_all2, Hl, Nat.sub_diag by lia. reflexivity. }
    rewrite E1, E2.
    rewrite firstn_app_l by (rewrite length_flipud_update; lia).
    rewrite firstn_all2 by (rewrite length_flipud_update; lia).
    f_equal.
    rewrite skipn_all2; [reflexivity|].
    rewrite length_app, length_flipud_update. cbn [length]. lia.
  - assert (K = []) by (destruct K; [reflexivity|cbn in Hz; lia]). subst K.
    reflexivity.
Qed.


Lemma no_zero_divisor (k : list R) :
  existsb (fun d => if Req_dec_T d 0 then true else false)
          (map (fun x => 1 - x * x) k) = false <->
  Forall (fun x => 1 - x * x <> 0) k.
Proof.
  induction k as [|x k IH]; cbn [map existsb].
  - split; [constructor|reflexivity].
  - destruct (Req_dec_T (1 - x * x) 0) as [E|N]; cbn [orb].
    + split; [discriminate|]. intros H. inversion H; contradiction.
    + rewrite IH. split.
      * intros H. constructor; assumption.
      * intros H. inversion H; assumption.
Qed.

Lemma rect_app (m : nat) (A B : matrix) :
  rect m (A ++ B) <-> rect m A /\ rect m B.
Proof. apply Forall_app. Qed.

Lemma rect_step_down (m : nat) (k : list R) (rows : matrix) :
  length k = m -> rect m rows -> rect m (step_down k rows).
Proof.
  intros Hk Hr. unfold step_down. apply rect_scale_rows.
  - rewrite !length_map. exact Hk.
  - apply rect_flipud_update; assumption.
Qed.

Lemma ai2ki_one_row (r : list R) : ai2ki [r] = Finite [r].
Proof. reflexivity. Qed.

Lemma ki2ai_one_row (r : list R) : ki2ai [r] = [r].
Proof. reflexivity. Qed.

Lemma rect_ki2ai (m : nat) (K : matrix) : rect m K -> rect m (ki2ai K).
Proof.
  induction K as [|r K IH] using rev_ind; intros H; [constructor|].
  apply rect_app in H as [HK Hr]. rewrite ki2ai_snoc. apply rect_app. split.
  - apply rect_flipud_update; [inversion Hr; assumption|apply IH; exact HK].
  - exact Hr.
Qed.

(** X12: converting AR models to partial correlations and back gives the models
    again, whenever [ai2ki] returned an array of real numbers. *)
Theorem ki2ai_ai2ki (m : nat) (ar parcor : matrix) :
  rect m ar -> ai2ki ar = Finite parcor -> ki2ai parcor = ar.
Proof.
  remember (length ar) as n eqn:Hn. revert ar parcor Hn.
  induction n as [|n IH]; intros ar parcor Hn Hr Hp.
  - destruct ar; [|discriminate]. injection Hp as <-. reflexivity.
  - destruct (exists_last (l := ar)) as (A & r & ->);
      [intros ->; discriminate|].
    rewrite length_app in Hn. cbn [length] in Hn.
    apply rect_app in Hr as [HA Hrow].
    assert (Hk : length r = m) by (inversion Hrow; assumption).
    destruct A as [|a A'].
    + cbn [app] in *. rewrite ai2ki_one_row in Hp. injection Hp as <-.
      apply ki2ai_one_row.
    + set (A := a :: A') in *.
      rewrite ai2ki_snoc in Hp by discriminate.
      destruct (existsb _ _) eqn:Ez; [discriminate|].
      apply no_zero_divisor in Ez.
      destruct (ai2ki (step_down r A)) as [K|] eqn:EK; [|discriminate].
      injection Hp as <-.
      apply IH in EK.
      * rewrite ki2ai_snoc, EK. f_equal. apply (up_down m); assumption.
      * unfold step_down. rewrite length_scale_rows, length_flipud_update. lia.
      * apply rect_step_down; assumption.
Qed.

(** X13: converting partial correlations to AR models and back gives the partial
    correlations again, when no coefficient after the first row is 1 or -1. *)
Theorem ai2ki_ki2ai (m : nat) (parcor : matrix) :
  rect m parcor ->
  (forall i, (1 <= i < length parcor)%nat ->
     Forall (fun x => x * x <> 1) (nth i parcor [])) ->
  ai2ki (ki2ai parcor) = Finite parcor.
Proof.
  induction parcor as [|r K IH] using rev_ind; intros Hr Hne; [reflexivity|].
  apply rect_app in Hr as [HK Hrow].
  assert (Hk : length r = m) by (inversion Hrow; assumption).
  rewrite ki2ai_snoc.
  destruct K as [|a K'].
  - reflexivity.
  - set (K := a :: K') in *.
    assert (HlK : length (ki2ai K) = length K) by apply length_ki2ai.
    assert (Hz : Forall (fun x => 1 - x * x <> 0) r).
    { specialize (Hne (length K)).
      rewrite app_nth2, Nat.sub_diag in Hne by lia. cbn [nth] in Hne.
      eapply Forall_impl; [|apply Hne].
      - cbn. intros x Hx. lra.
      - rewrite length_app. cbn [length]. unfold K. cbn [length]. lia. }
    rewrite ai2ki_snoc.
    2:{ intros E. apply (f_equal (@length _)) in E.
        rewrite length_flipud_update, HlK in E. discriminate. }
    apply no_zero_divisor in Hz. rewrite Hz.
    apply no_zero_divisor in Hz.
    rewrite (down_up m) by (try assumption; apply rect_ki2ai; exact HK).
    rewrite IH; [reflexivity|exact HK|].
    intros i Hi. specialize (Hne i).
    rewrite app_nth1 in Hne by lia. apply Hne.
    rewrite length_app. cbn [length]. lia.
Qed.

Lemma ai2ki_shape (m : nat) (ar parcor : matrix) :
  rect m ar -> ai2ki ar = Finite parcor ->
  length parcor = length ar /\ rect m parcor /\ last parcor [] = last ar [].
Proof.
  remember (length ar) as n eqn:Hn. revert ar parcor Hn.
  induction n as [|n IH]; intros ar parcor Hn Hr Hp.
  - destruct ar; [|discriminate]. injection Hp as <-.
    split; [reflexivity|]. split; [constructor|reflexivity].
  - destruct (exists_last (l := ar)) as (A & r & ->);
      [intros ->; discriminate|].
    rewrite length_app in Hn. cbn [length] in Hn.
    apply rect_app in Hr as [HA Hrow].
    assert (Hk : length r = m) by (inversion Hrow; assumption).
    destruct A as [|a A'].
    + cbn [app] in *. rewrite ai2ki_one_row in Hp. injection Hp as <-.
      split; [cbn [length] in *; lia|]. split; [exact Hrow|reflexivity].
    + set (A := a :: A') in *.
      rewrite ai2ki_snoc in Hp by discriminate.
      destruct (existsb _ _) eqn:Ez; [discriminate|].
      destruct (ai2ki (step_down r A)) as [K|] eqn:EK; [|discriminate].
      injection Hp as <-.
      assert (Hl : length (step_down r A) = length A)
        by (unfold step_down; rewrite length_scale_rows, length_flipud_update;
            reflexivity).
      apply IH in EK as (HlK & HrK & _);
        [ | lia | apply rect_step_down; assumption ].
      rewrite !length_app, !last_last. cbn [length].
      split; [lia|]. split; [|reflexivity].
      apply rect_app. split; assumption.
Qed.

(** X14: both conversions keep the shape of the array and its last row: the
    last coefficient of an AR model is its last partial correlation. *)
Theorem levinson_last_row (m : nat) (ar : matrix) :
  rect m ar ->
  (length (ki2ai ar) = length ar /\ rect m (ki2ai ar) /\
   last (ki2ai ar) [] = last ar []) /\
  (forall parcor, ai2ki ar = Finite parcor ->
     length parcor = length ar /\ rect m parcor /\
     last parcor [] = last ar []).
Proof.
  intros Hr. split.
  - split; [apply length_ki2ai|]. split; [apply rect_ki2ai; exact Hr|].
    destruct ar as [|a ar']; [reflexivity|].
    destruct (exists_last (l := a :: ar')) as (A & r & ->); [discriminate|].
    rewrite ki2ai_snoc, !last_last. reflexivity.
  - intros parcor Hp. apply ai2ki_shape; assumption.
Qed.

Lemma ai2ki_example :
  ai2ki [[1; 0]; [2; 3]] =
  Finite [[(1 - 2 * 1) * (1 / (1 - 2 * 2)); (0 - 3 * 0) * (1 / (1 - 3 * 3))]; [2; 3]].
Proof.
  unfold ai2ki. cbn [length seq rev app ai2ki_loop].
  unfold ai2ki_step. cbn [Nat.ltb Nat.leb].
  unfold ai2ki_subtract. cbn [nth firstn skipn].
  unfold flipud_update. cbn [rev app map2].
  unfold ai2ki_scale. cbn [nth map existsb firstn skipn app].
  destruct (Req_dec_T (1 - 2 * 2) 0) as [E|_]; [lra|].
  destruct (Req_dec_T (1 - 3 * 3) 0) as [E|_]; [lra|].
  reflexivity.
Qed.

Lemma ki2ai_ai2ki_witness :
  ki2ai [[(1 - 2 * 1) * (1 / (1 - 2 * 2)); (0 - 3 * 0) * (1 / (1 - 3 * 3))]; [2; 3]]
  = [[1; 0]; [2; 3]].
Proof.
  apply (ki2ai_ai2ki 2).
  - repeat constructor.
  - exact ai2ki_example.
Defined.

Lemma ai2ki_ki2ai_witness :
  ai2ki (ki2ai [[1; 0]; [2; 3]]) = Finite [[1; 0]; [2; 3]].
Proof.
  apply (ai2ki_ki2ai 2).
  - repeat constructor.
  - intros i Hi. cbn [length] in Hi.
    assert (i = 1%nat) as -> by lia. cbn [nth].
    repeat constructor; lra.
Defined.

Lemma levinson_last_row_witness :
  (length (ki2ai [[1; 0]; [2; 3]]) = 2%nat /\ rect 2 (ki2ai [[1; 0]; [2; 3]]) /\
   last (ki2ai [[1; 0]; [2; 3]]) [] = [2; 3]) /\
  (forall parcor, ai2ki [[1; 0]; [2; 3]] = Finite parcor ->
     length parcor = 2%nat /\ rect 2 parcor /\ last parcor [] = [2; 3]).
Proof.
  apply (levinson_last_row 2 [[1; 0]; [2; 3]]). repeat constructor.
Defined.

End LevinsonFacts.

(** ** The end of the notch loop *)

Section NotchLoop.

Import Np Linalg Arma Preprocess Terms.
Open Scope R_scope.

Lemma notch_loop_stuck (fuel : nat) (fftlen : Z) (fs enf d_enf : R) (k : Z)
  (P : matrix) :
  enf - d_enf <= 0 -> 0 < fs -> (1 <= k)%Z ->
  notch_loop fuel fftlen fs enf d_enf k P = None \/
  exists e, notch_loop fuel fftlen fs enf d_enf k P = Some (Raise e).
Proof.
  intros Hd Hfs. revert k P. induction fuel as [|fuel IH]; intros k P Hk.
  - left. cbn [notch_loop].
    destruct (Rlt_dec (IZR k * (enf - d_enf)) (fs / 2)) as [_|N]; [reflexivity|].
    exfalso. apply N. apply IZR_le in Hk. nra.
  - cbn [notch_loop].
    destruct (Rlt_dec (IZR k * (enf - d_enf)) (fs / 2)) as [_|N].
    + destruct (notch fftlen fs enf d_enf k P) as [P'|e].
      * apply IH. lia.
      * right. exists e. reflexivity.
    + exfalso. apply N. apply IZR_le in Hk. nra.
Qed.

Lemma notch_loop_ends (fuel : nat) (fftlen : Z) (fs enf d_enf : R) (k : Z)
  (P : matrix) :
  0 < enf - d_enf -> (1 <= k)%Z ->
  fs / 2 <= IZR (k + Z.of_nat fuel) * (enf - d_enf) ->
  notch_loop fuel fftlen fs enf d_enf k P <> None.
Proof.
  intros Hd. revert k P. induction fuel as [|fuel IH]; intros k P Hk Hb.
  - cbn [notch_loop].
    destruct (Rlt_dec (IZR k * (enf - d_enf)) (fs / 2)) as [Hlt|_]; [|discriminate].
    exfalso. rewrite Z.add_0_r in Hb. lra.
  - cbn [notch_loop].
    destruct (Rlt_dec (IZR k * (enf - d_enf)) (fs / 2)) as [_|_]; [|discriminate].
    destruct (notch fftlen fs enf d_enf k P) as [P'|e]; [|discriminate].
    apply IH; [lia|].
    replace (k + 1 + Z.of_nat fuel)%Z with (k + Z.of_nat (S fuel))%Z by lia.
    exact Hb.
Qed.

Lemma notch_loop_more_fuel (fuel : nat) (fftlen : Z) (fs enf d_enf : R) (k : Z)
  (P : matrix) (r : outcome matrix) :
  notch_loop fuel fftlen fs enf d_enf k P = Some r ->
  notch_loop (S fuel) fftlen fs enf d_enf k P = Some r.
Proof.
  revert k P. induction fuel as [|fuel IH]; intros k P.
  - cbn [notch_loop].
    destruct (Rlt_dec (IZR k * (enf - d_enf)) (fs / 2)); [discriminate|].
    intros H; exact H.
  - intros H. cbn [notch_loop] in H.
    change (notch_loop (S (S fuel)) fftlen fs enf d_enf k P)
      with (if Rlt_dec (IZR k * (enf - d_enf)) (fs / 2)
            then match notch fftlen fs enf d_enf k P with
                 | Raise e => Some (Raise e)
                 | Return P' => notch_loop (S fuel) fftlen fs enf d_enf (k + 1) P'
                 end
            else Some (Return P)).
    destruct (Rlt_dec (IZR k * (enf - d_enf)) (fs / 2)); [|exact H].
    destruct (notch fftlen fs enf d_enf k P) as [P'|e]; [|exact H].
    apply IH. exact H.
Qed.

Variable periodogram : R -> list R -> outcome (Z * matrix).

(** X15: with a tolerance [d_enf] that is not less than [enf] (and a positive
    sampling frequency) the loop of lines 205-220 has no end: [whiten] never
    returns a signal, it raises or runs for ever. *)
Theorem whiten_wide_tolerance (fuel : nat) (sig : list R) (fs : R) (ordar : Z)
  (enf d_enf : R) (zero_phase : bool) :
  enf <= d_enf -> 0 < fs ->
  whiten periodogram fuel sig fs ordar enf d_enf zero_phase = None \/
  exists e, whiten periodogram fuel sig fs ordar enf d_enf zero_phase = Some (Raise e).
Proof.
  intros Hd Hfs. unfold whiten.
  destruct (periodogram fs sig) as [[fftlen P]|e]; [|right; exists e; reflexivity].
  destruct (notch_loop_stuck fuel fftlen fs enf d_enf 1 P) as [H|[e H]];
    try lra; try lia; rewrite H.
  - left. reflexivity.
  - right. exists e. reflexivity.
Qed.

(** X16: with a tolerance below [enf] the loop ends: after at most
    [fs / (2 (enf - d_enf))] harmonics [whiten] goes on to the fit, and more
    iterations allowed do not change what it returns. *)
Theorem whiten_terminates (sig : list R) (fs : R) (ordar : Z)
  (enf d_enf : R) (zero_phase : bool) :
  d_enf < enf ->
  let bound := Z.to_nat (up (fs / (2 * (enf - d_enf)))) in
  exists r,
    forall fuel, (bound <= fuel)%nat ->
      whiten periodogram fuel sig fs ordar enf d_enf zero_phase = Some r.
Proof.
  intros Hd bound.
  assert (Hb : fs / 2 <= IZR (1 + Z.of_nat bound) * (enf - d_enf)).
  { pose proof (archimed (fs / (2 * (enf - d_enf)))) as [Hup _].
    assert (Hle : IZR (up (fs / (2 * (enf - d_enf)))) <= IZR (1 + Z.of_nat bound)).
    { apply IZR_le. unfold bound. lia. }
    assert (Hx : fs / (2 * (enf - d_enf)) * (enf - d_enf) = fs / 2) by (field; lra).
    rewrite <- Hx. apply Rmult_le_compat_r; lra. }
  assert (Hmono : forall n fftlen P r,
            notch_loop bound fftlen fs enf d_enf 1 P = Some r ->
            notch_loop (bound + n) fftlen fs enf d_enf 1 P = Some r).
  { induction n as [|n IH]; intros fftlen P r H.
    - rewrite Nat.add_0_r. exact H.
    - rewrite Nat.add_succ_r. apply notch_loop_more_fuel. apply IH. exact H. }
  unfold whiten.
  destruct (periodogram fs sig) as [[fftlen P]|e].
  2:{ exists (Raise e). intros fuel _. reflexivity. }
  destruct (notch_loop bound fftlen fs enf d_enf 1 P) as [r|] eqn:Hr.
  2:{ exfalso. revert Hr. apply notch_loop_ends; [lra|lia|exact Hb]. }
  exists (match r with
          | Raise e => Raise e
          | Return Plast => whiten_fit sig ordar zero_phase fftlen P Plast
          end).
  intros fuel Hf.
  replace fuel with (bound + (fuel - bound))%nat by lia.
  rewrite (Hmono _ _ _ _ Hr). destruct r; reflexivity.
Qed.

End NotchLoop.

(** ** The values that a notch writes *)

Section NotchValues.

Import Np Linalg Arma Preprocess Terms.
Open Scope R_scope.

Lemma py_index_In {A : Type} (l : list A) (i : Z) (x : A) :
  py_index l i = Return x -> In x l.
Proof.
  unfold py_index.
  destruct (_ <? 0)%Z; [discriminate|].
  destruct (nth_error l _) as [y|] eqn:E; [|discriminate].
  intros [= <-]. eapply nth_error_In. exact E.
Qed.

Lemma Forall_firstn_skipn {A : Type} (P : A -> Prop) (n : nat) (l : list A) :
  Forall P l -> Forall P (firstn n l) /\ Forall P (skipn n l).
Proof.
  intros H. rewrite <- (firstn_skipn n l) in H. apply Forall_app in H. exact H.
Qed.

Lemma slice_assign_Forall (P : R -> Prop) (l : list R) (a b : Z) (src l' : list R) :
  slice_assign l a b src = Return l' ->
  Forall P l -> Forall P src -> Forall P l'.
Proof.
  unfold slice_assign, broadcast_to.
  destruct (length src =? slice_len l a b)%nat.
  - cbn [bind]. intros [= <-] Hl Hs.
    apply Forall_app. split; [apply Forall_firstn_skipn; exact Hl|].
    apply Forall_app. split; [exact Hs|apply Forall_firstn_skipn; exact Hl].
  - destruct src as [|x [|? ?]]; try discriminate.
    cbn [bind]. intros [= <-] Hl Hs.
    apply Forall_app. split; [apply Forall_firstn_skipn; exact Hl|].
    apply Forall_app. split; [|apply Forall_firstn_skipn; exact Hl].
    apply Forall_forall. intros y Hy. apply repeat_spec in Hy. subst y.
    inversion Hs; assumption.
Qed.

Lemma interpolated_nonneg (Amin Amax : R) (n : Z) :
  0 <= Amin -> 0 <= Amax -> Forall (fun x => 0 <= x) (interpolated Amin Amax n).
Proof.
  intros Hmin Hmax. unfold interpolated. apply Forall_forall. intros x Hx.
  apply in_map_iff in Hx as (i & <- & Hi). apply in_seq in Hi.
  assert (Hn : 0 < IZR n) by (apply IZR_lt; lia).
  assert (Hin : 0 <= INR i < IZR n).
  { split; [apply pos_INR|]. rewrite INR_IZR_INZ. apply IZR_lt. lia. }
  assert (H1 : 0 <= INR i * ((0 - 1) / IZR n) + 1).
  { replace (INR i * ((0 - 1) / IZR n) + 1) with ((IZR n - INR i) / IZR n)
      by (field; lra).
    apply Rmult_le_pos; [lra|]. apply Rlt_le, Rinv_0_lt_compat. exact Hn. }
  assert (H2 : 0 <= INR i * ((1 - 0) / IZR n) + 0).
  { replace (INR i * ((1 - 0) / IZR n) + 0) with (INR i / IZR n) by (field; lra).
    apply Rmult_le_pos; [lra|]. apply Rlt_le, Rinv_0_lt_compat. exact Hn. }
  apply Rplus_le_le_0_compat; apply Rmult_le_pos; assumption.
Qed.

Lemma interpolation_inv (Amin Amax : R) (n : Z) (interpol : list R) :
  interpolation Amin Amax n = Return interpol ->
  (0 <= n)%Z /\ interpol = interpolated Amin Amax n.
Proof.
  intros H. destruct (Z.ltb_spec n 0) as [Hneg|Hpos].
  - unfold interpolation, linspace in H.
    destruct (Z.ltb_spec n 0) as [_|?]; [discriminate|lia].
  - rewrite interpolation_interpolated in H by exact Hpos.
    injection H as <-. split; [exact Hpos|reflexivity].
Qed.

Lemma notch_row_nonneg (fftlen : Z) (fs enf d_enf : R) (k : Z) (row row' : list R) :
  notch_row fftlen fs enf d_enf k row = Return row' ->
  Forall (fun x => 0 <= x) row ->
  Forall (fun x => 0 <= x) row' /\ length row' = length row.
Proof.
  unfold notch_row.
  destruct (notch_bounds fftlen fs enf d_enf k) as [kmin kmax].
  destruct (py_index row kmin) as [Amin|] eqn:Hmin; [|discriminate]. cbn [bind].
  destruct (py_index row kmax) as [Amax|] eqn:Hmax; [|discriminate]. cbn [bind].
  destruct (interpolation Amin Amax (kmax - kmin)) as [interpol|] eqn:Hi;
    [|discriminate]. cbn [bind].
  destruct (slice_assign row kmin kmax interpol) as [row1|] eqn:H1; [|discriminate].
  cbn [bind]. intros H2 Hrow.
  apply py_index_In in Hmin, Hmax.
  rewrite Forall_forall in Hrow.
  pose proof (Hrow _ Hmin) as Pmin. pose proof (Hrow _ Hmax) as Pmax.
  apply interpolation_inv in Hi as [_ ->].
  pose proof (interpolated_nonneg Amin Amax (kmax - kmin) Pmin Pmax) as Hint.
  split.
  - eapply slice_assign_Forall; [exact H2| |apply Forall_rev; exact Hint].
    eapply slice_assign_Forall; [exact H1| |exact Hint].
    apply Forall_forall. exact Hrow.
  - apply length_slice_assign_any in H1, H2. lia.
Qed.

End NotchValues.

(** ** Shapes *)

Section NotchShape.

Import Np Linalg Arma Preprocess Terms.
Open Scope R_scope.

Lemma notch_nonneg (fftlen : Z) (fs enf d_enf : R) (k : Z) (P P' : matrix) :
  notch fftlen fs enf d_enf k P = Return P' ->
  Forall (Forall (fun x => 0 <= x)) P ->
  Forall (Forall (fun x => 0 <= x)) P' /\ map (@length R) P' = map (@length R) P.
Proof.
  unfold notch. destruct (Req_dec_T fs 0); [discriminate|].
  destruct P as [|row rows]; [discriminate|].
  destruct (notch_row fftlen fs enf d_enf k row) as [row'|] eqn:Hr; [|discriminate].
  cbn [bind]. intros [= <-] HP. inversion HP as [|? ? Hrow Hrows]; subst.
  apply notch_row_nonneg in Hr as [Hn Hl]; [|exact Hrow].
  split; [constructor; assumption|]. cbn [map]. rewrite Hl. reflexivity.
Qed.

(** X17: the notches keep the PSD a PSD: when the loop of lines 205-220 ends, the
    array has the shape it had, and if no entry was negative before, none is
    afterwards (line 224 takes square roots of the entries). *)
Theorem notch_loop_keeps_psd (fuel : nat) (fftlen : Z) (fs enf d_enf : R) (k : Z)
  (P P' : matrix) :
  notch_loop fuel fftlen fs enf d_enf k P = Some (Return P') ->
  Forall (Forall (fun x => 0 <= x)) P ->
  Forall (Forall (fun x => 0 <= x)) P' /\ map (@length R) P' = map (@length R) P.
Proof.
  revert k P. induction fuel as [|fuel IH]; intros k P; cbn [notch_loop].
  - destruct (Rlt_dec _ _); [discriminate|]. intros [= <-] HP.
    split; [exact HP|reflexivity].
  - destruct (Rlt_dec _ _).
    + destruct (notch fftlen fs enf d_enf k P) as [P1|] eqn:Hn; [|discriminate].
      intros Hl HP. apply notch_nonneg in Hn as [H1 L1]; [|exact HP].
      apply IH in Hl as [H2 L2]; [|exact H1].
      split; [exact H2|]. rewrite L2. exact L1.
    + intros [= <-] HP. split; [exact HP|reflexivity].
Qed.

Variable periodogram : R -> list R -> outcome (Z * matrix).

(** X18: the whitened signal has as many samples as the input. *)
Theorem whiten_keeps_length (fuel : nat) (sig : list R) (fs : R) (ordar : Z)
  (enf d_enf : R) (zero_phase : bool) (out : list R) :
  whiten periodogram fuel sig fs ordar enf d_enf zero_phase
  = Some (Return (Signal out)) ->
  length out = length sig.
Proof.
  unfold whiten.
  destruct (periodogram fs sig) as [[fftlen P]|]; [|discriminate].
  destruct (notch_loop fuel fftlen fs enf d_enf 1 P) as [[Plast|]|];
    [|discriminate|discriminate].
  intros [= H]. unfold whiten_fit in H.
  destruct (estimate _ None (-1)) as [ar [[]|e]]; [|discriminate].
  destruct (apply_inverse ar zero_phase sig) as [sigout|] eqn:Hi; cbn [bind] in H;
    [|discriminate].
  injection H as Hr.
  apply rescale_length in Hr. apply length_apply_inverse in Hi. lia.
Qed.

End NotchShape.

(** ** A notch away from bin 0 *)

Section NotchInterior.

Import Np Linalg Arma Preprocess Terms.
Open Scope R_scope.

Lemma nth_assigned (l src : list R) (x y t : nat) :
  (x <= y <= length l)%nat -> length src = (y - x)%nat ->
  nth t (firstn x l ++ src ++ skipn y l) 0 =
  if ((x <=? t) && (t <? y))%nat then nth (t - x) src 0 else nth t l 0.
Proof.
  intros Hxy Hs.
  assert (Hf : length (firstn x l) = x) by (rewrite length_firstn; lia).
  destruct (Nat.leb_spec x t) as [Hxt|Hxt]; cbn [andb].
  - rewrite app_nth2 by lia. rewrite Hf.
    destruct (Nat.ltb_spec t y) as [Hty|Hty].
    + rewrite app_nth1 by lia. reflexivity.
    + rewrite app_nth2 by lia. rewrite Hs, nth_skipn. f_equal. lia.
  - rewrite app_nth1 by lia.
    rewrite <- (firstn_skipn x l) at 2. rewrite app_nth1 by lia. reflexivity.
Qed.

(** X19: the notch of a harmonic whose first bin is not bin 0.  The bins
    [kmin .. kmax-1] receive the interpolation between the values at [kmin]
    and [kmax]; bin [len-1-t] receives the value of bin [t]; every other bin
    keeps its value. *)
Theorem notch_row_interior (fftlen : Z) (fs enf d_enf : R) (k : Z)
  (row : list R) (kmin kmax : Z) :
  notch_bounds fftlen fs enf d_enf k = (kmin, kmax) ->
  (1 <= kmin <= kmax)%Z -> (2 * kmax <= Z.of_nat (length row))%Z ->
  let a := Z.to_nat kmin in
  let b := Z.to_nat kmax in
  let len := length row in
  let interpol := interpolated (nth a row 0) (nth b row 0) (kmax - kmin) in
  exists row',
    notch_row fftlen fs enf d_enf k row = Return row' /\
    length row' = len /\
    (forall t, (a <= t < b)%nat ->
       nth t row' 0 = nth (t - a) interpol 0 /\
       nth (len - 1 - t) row' 0 = nth (t - a) interpol 0) /\
    (forall t, (t < a \/ b <= t < len - b \/ len - a <= t)%nat ->
       nth t row' 0 = nth t row 0).
Proof.
  intros Hb Hk Hlen a b len interpol.
  unfold notch_row. rewrite Hb. cbv beta iota.
  assert (Hmin : py_index row kmin = Return (nth a row 0)).
  { rewrite <- (Z2Nat.id kmin) at 1 by lia. apply py_index_nth. lia. }
  assert (Hmax : py_index row kmax = Return (nth b row 0)).
  { rewrite <- (Z2Nat.id kmax) at 1 by lia. apply py_index_nth. lia. }
  rewrite Hmin, Hmax. cbn [bind].
  rewrite interpolation_interpolated by lia. cbn [bind]. fold interpol.
  assert (Hi : length interpol = (b - a)%nat)
    by (unfold interpol; rewrite length_interpolated; lia).
  rewrite slice_assign_in_range by (lia || (rewrite Hi; lia)).
  cbn [bind]. fold a. fold b.
  set (row1 := firstn a row ++ interpol ++ skipn b row).
  assert (H1 : length row1 = len).
  { unfold row1. rewrite !length_app, length_firstn, length_skipn. fold len. lia. }
  assert (Hassign : slice_assign row1 (- kmax) (- kmin) (rev interpol) =
            Return (firstn (len - b) row1 ++ rev interpol ++ skipn (len - a) row1)).
  { unfold slice_assign, slice_len, slice_lo. rewrite H1.
    rewrite !py_norm_mirror by lia.
    rewrite broadcast_to_same_length by (rewrite length_rev, Hi; lia).
    cbn [bind]. f_equal. f_equal; [f_equal; lia|]. f_equal. f_equal. lia. }
  rewrite Hassign.
  eexists. split; [reflexivity|].
  split.
  { rewrite !length_app, length_firstn, length_skipn, length_rev, H1. lia. }
  assert (Hnth : forall t,
            nth t (firstn (len - b) row1 ++ rev interpol ++ skipn (len - a) row1) 0 =
            if ((len - b <=? t) && (t <? len - a))%nat
            then nth (len - 1 - a - t) interpol 0
            else if ((a <=? t) && (t <? b))%nat then nth (t - a) interpol 0
                 else nth t row 0).
  { intros t. rewrite nth_assigned by (rewrite ?length_rev, ?H1; lia).
    destruct ((len - b <=? t)%nat && (t <? len - a)%nat) eqn:E.
    - apply andb_prop in E as [E1 E2].
      apply Nat.leb_le in E1. apply Nat.ltb_lt in E2.
      rewrite rev_nth by lia. rewrite Hi. f_equal. lia.
    - unfold row1. apply nth_assigned; fold len; lia. }
  split.
  - intros t Ht. rewrite !Hnth.
    destruct (Nat.leb_spec (len - b) t) as [?|_]; [lia|]. cbn [andb].
    destruct (Nat.leb_spec a t) as [_|?]; [|lia].
    destruct (Nat.ltb_spec t b) as [_|?]; [|lia]. cbn [andb].
    split; [reflexivity|].
    destruct (Nat.leb_spec (len - b) (len - 1 - t)) as [_|?]; [|lia].
    destruct (Nat.ltb_spec (len - 1 - t) (len - a)) as [_|?]; [|lia]. cbn [andb].
    f_equal. lia.
  - intros t Ht. rewrite Hnth.
    destruct (Nat.leb_spec (len - b) t); destruct (Nat.ltb_spec t (len - a));
      cbn [andb]; try lia;
      destruct (Nat.leb_spec a t); destruct (Nat.ltb_spec t b);
      cbn [andb]; try lia; reflexivity.
Qed.

End NotchInterior.

(** ** Decimation *)

Section DecimateFacts.

Import Np Decimation.
Open Scope R_scope.

Lemma py_index_bound {A : Type} (l : list A) (i : Z) (x : A) :
  py_index l i = Return x ->
  (- Z.of_nat (length l) <= i < Z.of_nat (length l))%Z.
Proof.
  unfold py_index.
  destruct (Z.ltb_spec i 0) as [Hneg|Hpos].
  - destruct (Z.ltb_spec (i + Z.of_nat (length l)) 0); [discriminate|]. lia.
  - destruct (Z.ltb_spec i 0); [lia|].
    destruct (nth_error l (Z.to_nat i)) eqn:E; [|discriminate].
    intros _. assert (Z.to_nat i < length l)%nat
      by (apply nth_error_Some; rewrite E; discriminate).
    lia.
Qed.

(** The table of lines 60-63: an accepted factor is the product of its two
    stages. *)
Lemma decimation_stages (factor d1 d2 : Z) :
  (0 <= factor)%Z ->
  py_index dec_1st factor = Return d1 -> d1 <> 0%Z ->
  py_index dec_2nd factor = Return d2 ->
  (2 <= d1)%Z /\ (d2 = 0 \/ 2 <= d2)%Z /\
  (factor = d1 * (if (0 <? d2) then d2 else 1))%Z.
Proof.
  intros Hpos H1 Hne H2.
  pose proof (py_index_bound _ _ _ H1) as Hb. cbn [dec_1st length] in Hb.
  assert (Hc : In factor (map Z.of_nat (seq 0 31))).
  { apply in_map_iff. exists (Z.to_nat factor). split; [lia|].
    apply in_seq. lia. }
  cbn in Hc.
  repeat (destruct Hc as [<-|Hc];
          [vm_compute in H1; vm_compute in H2;
           injection H1 as <-; injection H2 as <-;
           first [contradiction Hne; reflexivity | cbn; lia]|]).
  contradiction.
Qed.

Lemma ceil_ceil (n a b : Z) :
  (0 <= n)%Z -> (0 < a)%Z -> (0 < b)%Z ->
  (((n + a - 1) / a + b - 1) / b = (n + a * b - 1) / (a * b))%Z.
Proof.
  intros Hn Ha Hb.
  replace (n + a - 1)%Z with ((n - 1) + 1 * a)%Z by lia.
  rewrite Z.div_add by lia.
  replace ((n - 1) / a + 1 + b - 1)%Z with ((n - 1) / a + 1 * b)%Z by lia.
  rewrite Z.div_add by lia.
  replace (n + a * b - 1)%Z with ((n - 1) + 1 * (a * b))%Z by lia.
  rewrite Z.div_add by lia.
  rewrite Z.div_div by lia. reflexivity.
Qed.

Lemma length_py_stride (y z : list R) (q : Z) :
  py_stride y q = Return z -> (0 < q)%Z ->
  Z.of_nat (length z) = ((Z.of_nat (length y) + q - 1) / q)%Z.
Proof.
  unfold py_stride. destruct (Z.eqb_spec q 0); [discriminate|].
  intros [= <-] Hq. rewrite length_map, length_seq.
  rewrite Z.abs_eq by lia. rewrite Z2Nat.id; [reflexivity|].
  apply Z.div_pos; lia.
Qed.

Variable lowpass : Z -> list R -> outcome (list R).
Variable float32 : R -> R.

Lemma length__decimate (x y : list R) (q : Z) :
  (forall q x y, lowpass q x = Return y -> length y = length x) ->
  _decimate lowpass x q = Return y -> (0 < q)%Z ->
  Z.of_nat (length y) = ((Z.of_nat (length x) + q - 1) / q)%Z.
Proof.
  intros Hlow. unfold _decimate.
  destruct (lowpass q x) as [v|] eqn:Hv; [|discriminate]. cbn [bind].
  intros Hs Hq. apply length_py_stride in Hs; [|exact Hq].
  rewrite (Hlow _ _ _ Hv) in Hs. exact Hs.
Qed.

(** X20: whenever [decimate] returns for a non-negative factor, the two stages
    of the table together decimate by that factor: the factor is between 2
    and 30, the result has [ceil(len(sig) / factor)] samples and the new
    sampling frequency is [fs / factor].  The filter is assumed to keep the
    length of its input. *)
Theorem decimate_by_factor (sig out : list R) (fs fs' : R) (factor : Z) :
  (forall q x y, lowpass q x = Return y -> length y = length x) ->
  (0 <= factor)%Z ->
  decimate lowpass float32 sig fs factor = Done (out, fs') ->
  (2 <= factor <= 30)%Z /\
  fs' = fs / IZR factor /\
  Z.of_nat (length out) = ((Z.of_nat (length sig) + factor - 1) / factor)%Z.
Proof.
  intros Hlow Hpos. unfold decimate.
  destruct (py_index dec_1st factor) as [d1|] eqn:H1; [|discriminate].
  cbn [lift and_then].
  destruct (Z.eqb_spec d1 0) as [|Hne]; [discriminate|].
  destruct (_decimate lowpass _ d1) as [s1|] eqn:E1; [|discriminate].
  cbn [lift and_then].
  destruct (py_index dec_2nd factor) as [d2|] eqn:H2; [|discriminate].
  cbn [lift and_then].
  destruct (decimation_stages factor d1 d2 Hpos H1 Hne H2) as (Hd1 & Hd2 & Hf).
  pose proof (py_index_bound _ _ _ H1) as Hb. cbn [dec_1st length] in Hb.
  apply length__decimate in E1; [|exact Hlow|lia].
  rewrite length_map in E1.
  destruct (Z.ltb_spec 0 d2) as [Hgt|Hle].
  - destruct (_decimate lowpass (map float32 s1) d2) as [s2|] eqn:E2; [|discriminate].
    cbn [lift and_then]. intros [= <- <-].
    apply length__decimate in E2; [|exact Hlow|lia].
    rewrite length_map in E2. rewrite length_map, E2, E1, Hf.
    split; [nia|]. split; [reflexivity|].
    apply ceil_ceil; lia.
  - cbn [and_then]. intros [= <- <-]. rewrite length_map, E1, Hf.
    split; [lia|]. split; [reflexivity|].
    rewrite Z.mul_1_r. reflexivity.
Qed.


Lemma py_index_outside {A : Type} (l : list A) (i : Z) :
  (Z.of_nat (length l) <= i \/ i < - Z.of_nat (length l))%Z ->
  py_index l i = Raise IndexError.
Proof.
  intros H. unfold py_index.
  destruct (Z.ltb_spec i 0) as [Hneg|Hpos].
  - destruct (Z.ltb_spec (i + Z.of_nat (length l)) 0); [reflexivity|lia].
  - destruct (Z.ltb_spec i 0); [lia|].
    destruct (nth_error l (Z.to_nat i)) eqn:E; [|reflexivity].
    assert (Z.to_nat i < length l)%nat
      by (apply nth_error_Some; rewrite E; discriminate).
    lia.
Qed.

Lemma py_index_wraps {A : Type} (l : list A) (i : Z) :
  (- Z.of_nat (length l) <= i < 0)%Z ->
  py_index l i = py_index l (i + Z.of_nat (length l)).
Proof.
  intros H. unfold py_index. cbv zeta.
  assert (E1 : (i <? 0)%Z = true) by (apply Z.ltb_lt; lia).
  assert (E2 : (i + Z.of_nat (length l) <? 0)%Z = false) by (apply Z.ltb_ge; lia).
  rewrite E1, !E2. reflexivity.
Qed.

(** X21: the factors that [decimate] rejects.  For 0, 1 and the factors up to
    30 that the table marks with 0, the [raise] of line 67 has a tuple for
    operand and the call ends in a [TypeError], not in the [ValueError] that is
    written there; a factor above 30 or below -31 is outside the table, an
    [IndexError]. *)
Theorem decimate_rejects (sig : list R) (fs : R) (factor : Z) :
  (In factor [0; 1; 11; 13; 17; 19; 22; 23; 26; 29]%Z ->
   decimate lowpass float32 sig fs factor = Raised TypeError) /\
  ((30 < factor \/ factor < -31)%Z ->
   decimate lowpass float32 sig fs factor = Raised (Builtin IndexError)).
Proof.
  split.
  - intros Hin. unfold decimate.
    assert (H1 : py_index dec_1st factor = Return 0%Z).
    { cbn [In] in Hin.
      repeat (destruct Hin as [<-|Hin]; [reflexivity|]). contradiction. }
    rewrite H1. reflexivity.
  - intros Hout. unfold decimate.
    rewrite py_index_outside by (cbn [dec_1st length]; lia). reflexivity.
Qed.

(** X22: a negative factor indexes the table from its end.  For
    [-31 <= factor < 0] the call raises, or decimates the signal, as for
    [factor + 31]: it ends in the [TypeError] of line 67 when the table marks
    [factor + 31] with 0, and when it returns for a positive [fs] the
    sampling frequency returned is [fs / factor], a negative number. *)
Theorem decimate_negative_factor (sig : list R) (fs : R) (factor : Z) :
  (-31 <= factor < 0)%Z ->
  decimate lowpass float32 sig fs factor =
    match decimate lowpass float32 sig fs (factor + 31) with
    | Done (out, _) => Done (out, fs / IZR factor)
    | Raised r => Raised r
    end /\
  (In (factor + 31)%Z [0; 1; 11; 13; 17; 19; 22; 23; 26; 29]%Z ->
   decimate lowpass float32 sig fs factor = Raised TypeError) /\
  (forall out fs',
     decimate lowpass float32 sig fs factor = Done (out, fs') ->
     fs' = fs / IZR factor /\ (0 < fs -> fs' < 0)).
Proof.
  intros H.
  assert (E : decimate lowpass float32 sig fs factor =
              match decimate lowpass float32 sig fs (factor + 31) with
              | Done (out, _) => Done (out, fs / IZR factor)
              | Raised r => Raised r
              end).
  { unfold decimate.
    rewrite (py_index_wraps dec_1st factor), (py_index_wraps dec_2nd factor)
      by (cbn [dec_1st dec_2nd length]; lia).
    cbn [dec_1st dec_2nd length].
    change (Z.of_nat 31) with 31%Z.
    destruct (py_index _ (factor + 31)) as [d1|]; [|reflexivity].
    cbn [lift and_then].
    destruct (d1 =? 0)%Z; [reflexivity|].
    destruct (_decimate lowpass _ d1) as [s1|]; [|reflexivity].
    cbn [lift and_then].
    destruct (py_index _ (factor + 31)) as [d2|]; [|reflexivity].
    cbn [lift and_then].
    destruct (0 <? d2)%Z; [|reflexivity].
    destruct (_decimate lowpass _ d2) as [s2|]; reflexivity. }
  split; [exact E|]. split.
  - intros Hin. rewrite E. unfold decimate.
    assert (H1 : py_index dec_1st (factor + 31) = Return 0%Z).
    { cbn [In] in Hin.
      repeat (destruct Hin as [<-|Hin]; [reflexivity|]). contradiction. }
    rewrite H1. reflexivity.
  - intros out fs' Hd. rewrite E in Hd.
    destruct (decimate lowpass float32 sig fs (factor + 31)) as [[o f]|r];
      [|discriminate].
    injection Hd as _ <-. split; [reflexivity|].
    intros Hfs. assert (Hf : IZR factor < 0) by (apply IZR_lt; lia).
    unfold Rdiv. apply Rinv_neg in Hf. nra.
Qed.

End DecimateFacts.

(** ** Homogeneity of [dehummer] *)

Section Homogeneous.

Import Np Linalg Dehumming Terms Notions.
Open Scope R_scope.

Lemma length_scaled (a : R) (x : list R) : length (scaled a x) = length x.
Proof. apply length_map. Qed.

Lemma sum_map2_scaled (a : R) (row x : list R) :
  sum (map2 Rmult row (scaled a x)) = a * sum (map2 Rmult row x).
Proof.
  revert x. induction row as [|r row IH]; intros [|v x]; cbn [scaled map map2 sum];
    try lra.
  fold (scaled a x). rewrite IH. ring.
Qed.

Lemma matvec_scaled (A : matrix) (a : R) (x : vec) :
  matvec A (scaled a x) = scaled a (matvec A x).
Proof.
  unfold matvec, scaled at 2. rewrite map_map.
  apply map_ext. intros row. apply sum_map2_scaled.
Qed.

Lemma scaled_scaled (a b : R) (x : list R) :
  scaled a (scaled b x) = scaled (a * b) x.
Proof.
  unfold scaled. rewrite map_map. apply map_ext. intros v. ring.
Qed.

Lemma scaled_1 (x : list R) : scaled 1 x = x.
Proof.
  unfold scaled. rewrite <- (map_id x) at 2. apply map_ext. intros v. ring.
Qed.

(** The solution of a linear system is homogeneous in the right-hand side. *)
Lemma solve_scaled (A : matrix) (a : R) (b : vec) :
  a <> 0 -> solve A (scaled a b) = scaled_outcome a (solve A b).
Proof.
  intros Ha.
  destruct (solve A b) as [x|e] eqn:Hs; cbn [scaled_outcome].
  - apply solve_inv in Hs as (Hsq & Hb & Hns & Hx & Hm).
    apply solve_returns; try assumption.
    + rewrite length_scaled. exact Hb.
    + split; [rewrite length_scaled; exact Hx|].
      rewrite matvec_scaled, Hm. reflexivity.
  - destruct (solve A (scaled a b)) as [x|e'] eqn:Hs'.
    + exfalso. apply solve_inv in Hs' as (Hsq & Hb & Hns & Hx & Hm).
      rewrite length_scaled in Hb.
      assert (Hret : solve A b = Return (scaled (/ a) x)).
      { apply solve_returns; try assumption.
        split; [rewrite length_scaled; exact Hx|].
        rewrite matvec_scaled, Hm, scaled_scaled.
        rewrite Rinv_l by exact Ha. apply scaled_1. }
      rewrite Hret in Hs. discriminate.
    + unfold solve in *. rewrite length_scaled in Hs'. revert Hs Hs'.
      assert (Hraise : forall u v : exn,
                 @Raise vec u = Raise e -> @Raise vec v = Raise e' ->
                 u = v -> @Raise vec e' = Raise e).
      { intros u v Hu Hv Huv. rewrite <- Hu, <- Hv, Huv. reflexivity. }
      destruct (negb (squareb A)); [intros H1 H2; exact (Hraise _ _ H1 H2 eq_refl)|].
      destruct (negb (length b =? length A)%nat);
        [intros H1 H2; exact (Hraise _ _ H1 H2 eq_refl)|].
      destruct (excluded_middle_informative (nonsingular A));
        [|intros H1 H2; exact (Hraise _ _ H1 H2 eq_refl)].
      destruct (excluded_middle_informative (exists x, Linalg.solves A b x));
        [intros H1; discriminate H1|].
      destruct (excluded_middle_informative (exists x, Linalg.solves A (scaled a b) x));
        [intros _ H2; discriminate H2|].
      intros H1 H2; exact (Hraise _ _ H1 H2 eq_refl).
Qed.

(** The fit, the residual and its energy for a block [a] times as large. *)
Lemma single_estimate_scaled (a : R) (sigin : list R) (f fs : R) (hmax : Z) :
  a <> 0 ->
  single_estimate (scaled a sigin) f fs hmax =
  scaled_outcome a (single_estimate sigin f fs hmax).
Proof.
  intros Ha. unfold single_estimate. rewrite length_scaled.
  destruct (hmax <? 0)%Z; [reflexivity|].
  destruct (Req_dec_T fs 0); [reflexivity|].
  rewrite matvec_scaled, solve_scaled by exact Ha.
  destruct (solve _ _) as [theta|e]; cbn [scaled_outcome bind]; [|reflexivity].
  rewrite matvec_scaled. reflexivity.
Qed.

Lemma map2_minus_scaled (a : R) (x y : list R) :
  map2 Rminus (scaled a x) (scaled a y) = scaled a (map2 Rminus x y).
Proof.
  revert y. induction x as [|u x IH]; intros [|v y]; cbn [scaled map map2];
    try reflexivity.
  fold (scaled a x) (scaled a y) (scaled a (map2 Rminus x y)).
  rewrite IH. f_equal. ring.
Qed.

Lemma sum_squares_scaled (a : R) (x : list R) :
  sum (map2 Rmult (scaled a x) (scaled a x)) = a * a * sum (map2 Rmult x x).
Proof.
  induction x as [|v x IH]; cbn [scaled map map2 sum]; [ring|].
  fold (scaled a x). rewrite IH. ring.
Qed.

Lemma residual_scaled (a : R) (blk : list R) (f fs : R) (hmax : Z) :
  a <> 0 ->
  residual (scaled a blk) f fs hmax =
  match residual blk f fs hmax with
  | Return (sigout, energy) => Return (scaled a sigout, a * a * energy)
  | Raise e => Raise e
  end.
Proof.
  intros Ha. unfold residual. rewrite single_estimate_scaled by exact Ha.
  destruct (single_estimate blk f fs hmax) as [v|e] eqn:Hv;
    cbn [scaled_outcome bind]; [|reflexivity].
  apply single_estimate_orthogonal in Hv as [Hl _].
  rewrite !binop_same_length by (rewrite ?length_scaled; lia). cbn [bind].
  unfold dot. rewrite !Nat.eqb_refl. cbn [bind].
  rewrite map2_minus_scaled, sum_squares_scaled. reflexivity.
Qed.


Lemma for_each_scaled {A St : Type} (phi : St -> St)
  (body body' : St -> A -> outcome St) :
  (forall s x, body' (phi s) x = scaled_run phi (body s x)) ->
  forall l s, for_each body' l (phi s) = scaled_run phi (for_each body l s).
Proof.
  intros Hb l. induction l as [|x l IH]; intros s; cbn [for_each]; [reflexivity|].
  rewrite Hb. destruct (body s x) as [s'|e]; cbn [scaled_run bind]; [|reflexivity].
  apply IH.
Qed.

(** Lines 64-85: the search on a block [a] times as large visits the same
    frequencies and keeps the same one. *)
Lemma try_shift_scaled (a : R) (blk : list R) (fs : R) (hmax : Z) (f0 delta : R)
  (s : search_state) (shift : Z) :
  a <> 0 ->
  try_shift (scaled a blk) fs hmax f0 delta (scaled_search a s) shift =
  scaled_run (scaled_search a) (try_shift blk fs hmax f0 delta s shift).
Proof.
  intros Ha. unfold try_shift. rewrite residual_scaled by exact Ha.
  destruct (residual blk _ fs hmax) as [[sigout energy]|e]; cbn [bind scaled_run];
    [|reflexivity].
  cbn [scaled_search best_energy best_f best_sigout tried].
  assert (Ha2 : 0 < a * a) by nra.
  destruct (Rlt_dec energy (best_energy s)) as [Hlt|Hge];
    destruct (Rlt_dec (a * a * energy) (a * a * best_energy s)) as [Hlt'|Hge'];
    cbn [scaled_run scaled_search best_energy best_f best_sigout tried];
    try reflexivity; exfalso.
  - apply Hge'. apply Rmult_lt_compat_l; assumption.
  - apply Hge. apply Rmult_lt_reg_l with (a * a); assumption.
Qed.

Lemma refine_scaled (a : R) (blk : list R) (fs : R) (hmax : Z)
  (s : search_state) (delta : PySet.pyfloat) :
  a <> 0 ->
  refine (scaled a blk) fs hmax (scaled_search a s) delta =
  scaled_run (scaled_search a) (refine blk fs hmax s delta).
Proof.
  intros Ha. unfold refine. cbn [scaled_search best_f].
  apply for_each_scaled. intros s' x. apply try_shift_scaled. exact Ha.
Qed.

Lemma search_scaled (a : R) (blk : list R) (fs enf : R) (hmax : Z) :
  a <> 0 ->
  search (scaled a blk) fs enf hmax =
  scaled_run (scaled_search a) (search blk fs enf hmax).
Proof.
  intros Ha. unfold search. rewrite residual_scaled by exact Ha.
  destruct (residual blk enf fs hmax) as [[sigout energy]|e];
    cbn [bind scaled_run]; [|reflexivity].
  change (mkSearch enf (scaled a sigout) (a * a * energy) [enf])
    with (scaled_search a (mkSearch enf sigout energy [enf])).
  apply for_each_scaled. intros s' x. apply refine_scaled. exact Ha.
Qed.

(** Slices and elementwise operations on scaled arrays. *)
Lemma py_slice_scaled (a : R) (l : list R) (start stop : Z) :
  py_slice (scaled a l) start stop = scaled a (py_slice l start stop).
Proof.
  unfold py_slice, slice_len, slice_lo. rewrite length_scaled.
  unfold scaled. rewrite skipn_map, firstn_map. reflexivity.
Qed.

Lemma map2_mult_scaled (a : R) (x w : list R) :
  map2 Rmult (scaled a x) w = scaled a (map2 Rmult x w).
Proof.
  revert w. induction x as [|u x IH]; intros [|v w]; cbn [scaled map map2];
    try reflexivity.
  fold (scaled a x) (scaled a (map2 Rmult x w)). rewrite IH. f_equal. ring.
Qed.

Lemma map2_plus_scaled (a : R) (x y : list R) :
  map2 Rplus (scaled a x) (scaled a y) = scaled a (map2 Rplus x y).
Proof.
  revert y. induction x as [|u x IH]; intros [|v y]; cbn [scaled map map2];
    try reflexivity.
  fold (scaled a x) (scaled a y) (scaled a (map2 Rplus x y)).
  rewrite IH. f_equal. ring.
Qed.

Lemma binop_mult_scaled (a : R) (x w : list R) :
  binop Rmult (scaled a x) w = scaled_outcome a (binop Rmult x w).
Proof.
  unfold binop. rewrite length_scaled.
  destruct (length x =? length w)%nat.
  - cbn [scaled_outcome]. rewrite map2_mult_scaled. reflexivity.
  - destruct x as [|u [|u' x]]; cbn [scaled map].
    + destruct w as [|v [|v' w]]; reflexivity.
    + cbn [scaled_outcome]. unfold scaled. rewrite map_map. f_equal.
      apply map_ext. intros v. ring.
    + destruct w as [|v [|v' w]]; cbn [scaled_outcome]; try reflexivity.
      cbn [scaled map]. f_equal. f_equal; [ring|]. f_equal; [ring|].
      rewrite !map_map. apply map_ext. intros t. ring.
Qed.

Lemma binop_plus_scaled (a : R) (x y : list R) :
  binop Rplus (scaled a x) (scaled a y) = scaled_outcome a (binop Rplus x y).
Proof.
  unfold binop. rewrite !length_scaled.
  destruct (length x =? length y)%nat.
  - cbn [scaled_outcome]. rewrite map2_plus_scaled. reflexivity.
  - destruct x as [|u [|u' x]]; cbn [scaled map].
    + destruct y as [|v [|v' y]]; reflexivity.
    + cbn [scaled_outcome]. unfold scaled. rewrite !map_map. f_equal.
      apply map_ext. intros v. ring.
    + destruct y as [|v [|v' y]]; cbn [scaled_outcome scaled map]; try reflexivity.
      f_equal. f_equal; [ring|]. f_equal; [ring|].
      rewrite !map_map. apply map_ext. intros t. ring.
Qed.

Lemma broadcast_to_scaled (a : R) (src : list R) (n : nat) :
  broadcast_to (scaled a src) n = scaled_outcome a (broadcast_to src n).
Proof.
  unfold broadcast_to. rewrite length_scaled.
  destruct (length src =? n)%nat; [reflexivity|].
  destruct src as [|u [|u' src]]; cbn [scaled map scaled_outcome]; try reflexivity.
  f_equal. unfold scaled. rewrite map_repeat. reflexivity.
Qed.

Lemma slice_assign_scaled (a : R) (l : list R) (start stop : Z) (src : list R) :
  slice_assign (scaled a l) start stop (scaled a src) =
  scaled_outcome a (slice_assign l start stop src).
Proof.
  unfold slice_assign, slice_len, slice_lo. rewrite length_scaled.
  rewrite broadcast_to_scaled.
  destruct (broadcast_to src _) as [v|e]; cbn [scaled_outcome bind]; [|reflexivity].
  unfold scaled. rewrite !map_app, firstn_map, skipn_map. reflexivity.
Qed.

Lemma slice_iop_plus_scaled (a : R) (l : list R) (start stop : Z) (v : list R) :
  slice_iop Rplus (scaled a l) start stop (scaled a v) =
  scaled_outcome a (slice_iop Rplus l start stop v).
Proof.
  unfold slice_iop. rewrite py_slice_scaled, binop_plus_scaled.
  destruct (binop Rplus _ v) as [r|e]; cbn [scaled_outcome bind]; [|reflexivity].
  rewrite !length_scaled.
  destruct (length r =? length (py_slice l start stop))%nat; [|reflexivity].
  apply slice_assign_scaled.
Qed.

(** Lines 50-95: one block of a signal [a] times as large. *)
Lemma process_block_scaled (a : R) (sig window : list R) (fs enf : R)
  (hmax blklen : Z) (st : dehum_state) (tmid : Z) :
  a <> 0 ->
  process_block (scaled a sig) window fs enf hmax blklen (scaled_state a st) tmid =
  scaled_run (scaled_state a)
    (process_block sig window fs enf hmax blklen st tmid).
Proof.
  intros Ha. unfold process_block. rewrite length_scaled.
  destruct (block_bounds _ blklen tmid) as [[[tstart tstop] wstart] wstop].
  rewrite py_slice_scaled, search_scaled by exact Ha.
  destruct (search _ fs enf hmax) as [s|e]; cbn [scaled_run bind]; [|reflexivity].
  cbn [scaled_search best_sigout best_f tried].
  rewrite binop_mult_scaled.
  destruct (binop Rmult (best_sigout s) _) as [weighted|e];
    cbn [scaled_outcome bind]; [|reflexivity].
  cbn [scaled_state result freq kf Dehumming.solves].
  rewrite slice_iop_plus_scaled.
  destruct (slice_iop Rplus (result st) tstart tstop weighted) as [result'|e];
    cbn [scaled_outcome bind]; [|reflexivity].
  destruct (py_setitem (freq st) (kf st) (best_f s)) as [freq'|e];
    cbn [bind scaled_run scaled_state result freq kf Dehumming.solves]; reflexivity.
Qed.

(** X24: [dehummer] is homogeneous.  On a signal multiplied by a non-zero
    constant [a] it raises the same exception or returns the output
    multiplied by [a], with the same frequency track and the same
    frequencies tried in every block. *)
Theorem dehummer_homogeneous (a : R) (sig : list R) (fs enf : R) (hmax blklen : Z) :
  a <> 0 ->
  dehummer (scaled a sig) fs enf hmax blklen =
  scaled_run (scaled_state a) (dehummer sig fs enf hmax blklen).
Proof.
  intros Ha. unfold dehummer.
  destruct (Req_dec_T enf 0); [reflexivity|].
  destruct (make_window blklen) as [window|e]; cbn [bind]; [|reflexivity].
  destruct (Z.min hmax _ =? 0)%Z; [reflexivity|].
  rewrite length_scaled.
  destruct (blklen =? 0)%Z; [reflexivity|].
  destruct (freq_len _ blklen <? 0)%Z; [reflexivity|].
  destruct (block_centres _ blklen) as [centres|e]; cbn [bind]; [|reflexivity].
  assert (E : mkDehum (zeros (length sig))
                (zeros (Z.to_nat (freq_len (Z.of_nat (length sig)) blklen))) 0 [] =
              scaled_state a
                (mkDehum (zeros (length sig))
                   (zeros (Z.to_nat (freq_len (Z.of_nat (length sig)) blklen))) 0 [])).
  { unfold scaled_state. cbn [result freq kf Dehumming.solves]. f_equal.
    unfold scaled, zeros. rewrite map_repeat. f_equal. ring. }
  rewrite E at 1.
  apply for_each_scaled. intros st tmid. apply process_block_scaled. exact Ha.
Qed.

End Homogeneous.

(** ** The scale of the PSD and of the signal *)

Section ScaleFree.

Import Np Linalg Arma Preprocess Terms Notions.
Open Scope R_scope.

Lemma nth_scaled (a : R) (l : list R) (i : nat) :
  nth i (scaled a l) 0 = a * nth i l 0.
Proof.
  unfold scaled. replace 0 with (a * 0) at 1 by ring.
  apply (map_nth (fun v => a * v)).
Qed.

Lemma scaled_zeros (a : R) (n : nat) : scaled a (zeros n) = zeros n.
Proof. unfold scaled, zeros. rewrite map_repeat. f_equal. ring. Qed.

Lemma scaled_inj (a : R) (x y : list R) :
  a <> 0 -> scaled a x = scaled a y -> x = y.
Proof.
  intros Ha H. apply (f_equal (scaled (/ a))) in H.
  rewrite !scaled_scaled, Rinv_l, !scaled_1 in H by exact Ha. exact H.
Qed.

Lemma py_index_map {A B : Type} (f : A -> B) (l : list A) (i : Z) :
  py_index (map f l) i = on_return f (py_index l i).
Proof.
  unfold py_index. rewrite length_map.
  destruct (_ <? 0)%Z; [reflexivity|].
  rewrite nth_error_map. destruct (nth_error l _); reflexivity.
Qed.

Lemma sum_map2_left_scaled (a : R) (row x : list R) :
  sum (map2 Rmult (scaled a row) x) = a * sum (map2 Rmult row x).
Proof.
  rewrite map2_mult_scaled. unfold scaled.
  induction (map2 Rmult row x) as [|v l IH]; cbn [map sum]; [ring|].
  rewrite IH. ring.
Qed.

Lemma matvec_scaled_rows (a : R) (A : matrix) (v : vec) :
  matvec (scaled_rows a A) v = scaled a (matvec A v).
Proof.
  unfold matvec, scaled_rows, scaled at 2. rewrite !map_map.
  apply map_ext. intros row. apply sum_map2_left_scaled.
Qed.

Lemma length_scaled_rows (a : R) (A : matrix) :
  length (scaled_rows a A) = length A.
Proof. apply length_map. Qed.

Lemma squareb_scaled_rows (a : R) (A : matrix) :
  squareb (scaled_rows a A) = squareb A.
Proof.
  unfold squareb. rewrite length_scaled_rows. unfold scaled_rows.
  generalize (length A). intros n.
  induction A as [|row A' IH]; cbn [map forallb]; [reflexivity|].
  rewrite length_scaled, IH. reflexivity.
Qed.

Lemma nonsingular_scaled_rows (a : R) (A : matrix) :
  a <> 0 -> nonsingular (scaled_rows a A) <-> nonsingular A.
Proof.
  intros Ha. unfold nonsingular. rewrite length_scaled_rows.
  split; intros H v Hl Hv; apply H; try exact Hl.
  - rewrite matvec_scaled_rows, Hv. apply scaled_zeros.
  - rewrite matvec_scaled_rows, <- (scaled_zeros a) in Hv.
    exact (scaled_inj a _ _ Ha Hv).
Qed.

Lemma solves_scaled_rows (a : R) (A : matrix) (b x : vec) :
  a <> 0 -> Linalg.solves (scaled_rows a A) (scaled a b) x <-> Linalg.solves A b x.
Proof.
  intros Ha. unfold Linalg.solves. rewrite length_scaled_rows, matvec_scaled_rows.
  split; intros [Hl Hm]; split; try exact Hl.
  - exact (scaled_inj a _ _ Ha Hm).
  - rewrite Hm. reflexivity.
Qed.

(** A linear system and the same system with both sides multiplied by a
    non-zero constant have the same solution. *)
Lemma solve_scaled_rows (a : R) (A : matrix) (b : vec) :
  a <> 0 -> solve (scaled_rows a A) (scaled a b) = solve A b.
Proof.
  intros Ha.
  destruct (solve A b) as [x|e] eqn:Hs.
  - apply solve_inv in Hs as (Hsq & Hb & Hns & Hx).
    apply solve_returns.
    + rewrite squareb_scaled_rows. exact Hsq.
    + rewrite length_scaled, length_scaled_rows. exact Hb.
    + apply nonsingular_scaled_rows; assumption.
    + apply solves_scaled_rows; assumption.
  - destruct (solve (scaled_rows a A) (scaled a b)) as [x|e'] eqn:Hs'.
    + exfalso. apply solve_inv in Hs' as (Hsq & Hb & Hns & Hx).
      rewrite squareb_scaled_rows in Hsq.
      rewrite length_scaled, length_scaled_rows in Hb.
      apply nonsingular_scaled_rows in Hns; [|exact Ha].
      apply solves_scaled_rows in Hx; [|exact Ha].
      rewrite (solve_returns A b x Hsq Hb Hns Hx) in Hs. discriminate.
    + unfold solve in Hs, Hs'.
      rewrite squareb_scaled_rows, length_scaled, length_scaled_rows in Hs'.
      revert Hs Hs'.
      assert (Hraise : forall u v : exn,
                 @Raise vec u = Raise e -> @Raise vec v = Raise e' ->
                 u = v -> @Raise vec e' = Raise e).
      { intros u v Hu Hv Huv. rewrite <- Hu, <- Hv, Huv. reflexivity. }
      destruct (negb (squareb A)); [intros H1 H2; exact (Hraise _ _ H1 H2 eq_refl)|].
      destruct (negb (length b =? length A)%nat);
        [intros H1 H2; exact (Hraise _ _ H1 H2 eq_refl)|].
      destruct (excluded_middle_informative (nonsingular A)) as [Hn|Hn];
        destruct (excluded_middle_informative (nonsingular (scaled_rows a A)))
          as [Hn'|Hn'].
      * destruct (excluded_middle_informative (exists x, Linalg.solves A b x));
          [intros H1; discriminate H1|].
        destruct (excluded_middle_informative
                    (exists x, Linalg.solves (scaled_rows a A) (scaled a b) x));
          [intros _ H2; discriminate H2|].
        intros H1 H2; exact (Hraise _ _ H1 H2 eq_refl).
      * exfalso. apply Hn'. apply nonsingular_scaled_rows; assumption.
      * exfalso. apply Hn. apply (nonsingular_scaled_rows a); assumption.
      * intros H1 H2; exact (Hraise _ _ H1 H2 eq_refl).
Qed.


(** Lines 42-50 on a PSD multiplied by [a]. *)
Lemma sum_weighted_scaled {A : Type} (g : A -> R) (a : R) (js : list A)
  (xs : list R) :
  sum (map2 (fun j xj => xj * g j) js (scaled a xs)) =
  a * sum (map2 (fun j xj => xj * g j) js xs).
Proof.
  revert xs. induction js as [|j js IH]; intros [|x xs]; cbn [scaled map map2 sum];
    try ring.
  fold (scaled a xs). rewrite IH. ring.
Qed.

Lemma ifft_real_scaled (a : R) (x : list R) (n : Z) :
  ifft_real (scaled a x) n = scaled_outcome a (ifft_real x n).
Proof.
  unfold ifft_real. destruct (n <? 1)%Z; [reflexivity|].
  cbn [scaled_outcome]. f_equal. rewrite length_scaled.
  assert (E : firstn (Z.to_nat n) (scaled a x) ++ zeros (Z.to_nat n - length x) =
              scaled a (firstn (Z.to_nat n) x ++ zeros (Z.to_nat n - length x))).
  { unfold scaled at 2. rewrite map_app. fold (scaled a (zeros (Z.to_nat n - length x))).
    rewrite scaled_zeros. unfold scaled. rewrite firstn_map. reflexivity. }
  rewrite E. unfold scaled at 2. rewrite map_map. apply map_ext. intros k.
  rewrite sum_weighted_scaled. unfold Rdiv. ring.
Qed.

Lemma py_index_scaled (a : R) (l : list R) (i : Z) :
  py_index (scaled a l) i = on_return (Rmult a) (py_index l i).
Proof. apply py_index_map. Qed.

Lemma take_scaled (a : R) (c : list R) (idx : list Z) :
  take (scaled a c) idx = scaled_outcome a (take c idx).
Proof.
  induction idx as [|i idx IH]; cbn [take]; [reflexivity|].
  rewrite py_index_scaled, IH.
  destruct (py_index c i) as [x|e]; cbn [on_return bind]; [|reflexivity].
  destruct (take c idx) as [xs|e]; reflexivity.
Qed.

Lemma toeplitz_scaled (a : R) (c r : vec) :
  toeplitz (scaled a c) (scaled a r) = scaled_rows a (toeplitz c r).
Proof.
  unfold toeplitz, scaled_rows. rewrite !length_scaled, map_map.
  apply map_ext. intros i. unfold scaled at 3. rewrite map_map.
  apply map_ext. intros j. destruct (j <=? i)%nat; apply nth_scaled.
Qed.

Lemma yule_walker_scaled (a : R) (self self' : Arma.t) (nbcorr : Z)
  (correl : list R) :
  ordar self' = ordar self -> ordma self' = ordma self ->
  yule_walker self' nbcorr (scaled a correl) =
  on_return (fun '(R, r) => (scaled_rows a R, scaled a r))
            (yule_walker self nbcorr correl).
Proof.
  intros Hp Hq. unfold yule_walker. rewrite Hp, Hq, take_scaled.
  destruct (take correl _) as [row1|e]; cbn [scaled_outcome bind on_return];
    [|reflexivity].
  rewrite !py_slice_scaled, toeplitz_scaled. f_equal. f_equal.
  unfold scaled. rewrite !map_map. apply map_ext. intros v. ring.
Qed.

Lemma correlation_scaled (a : R) (self self' : Arma.t) (numpsd : Z) :
  fftlen self' = fftlen self ->
  py_index (Arma.psd self') numpsd =
    on_return (scaled_rows a) (py_index (Arma.psd self) numpsd) ->
  correlation self' numpsd = scaled_outcome a (correlation self numpsd).
Proof.
  intros Hn Hpsd. unfold correlation. rewrite Hpsd, Hn.
  destruct (py_index (Arma.psd self) numpsd) as [p|e]; cbn [on_return bind];
    [|reflexivity].
  unfold scaled_rows. rewrite py_index_map.
  destruct (py_index p 0) as [p0|e]; cbn [on_return bind]; [|reflexivity].
  apply ifft_real_scaled.
Qed.

Lemma estimate_ar_scaled (a : R) (self self' : Arma.t) (nbcorr : option Z)
  (numpsd : Z) :
  a <> 0 ->
  ordar self' = ordar self -> ordma self' = ordma self ->
  fftlen self' = fftlen self ->
  py_index (Arma.psd self') numpsd =
    on_return (scaled_rows a) (py_index (Arma.psd self) numpsd) ->
  estimate_ar self' nbcorr numpsd =
  on_return (fun '(correl, AR) => (scaled a correl, AR))
            (estimate_ar self nbcorr numpsd).
Proof.
  intros Ha Hp Hq Hn Hpsd. unfold estimate_ar.
  rewrite (correlation_scaled a self self') by assumption.
  destruct (correlation self numpsd) as [correl|e];
    cbn [scaled_outcome bind on_return]; [|reflexivity].
  rewrite (yule_walker_scaled a self self') by assumption. rewrite Hp.
  destruct (yule_walker self _ correl) as [[R r]|e]; cbn [on_return bind];
    [|reflexivity].
  rewrite solve_scaled_rows by exact Ha.
  destruct (solve R r) as [AR|e]; reflexivity.
Qed.

Lemma noise_variance_scaled (a : R) (self self' : Arma.t) (correl AR : list R) :
  ordar self' = ordar self ->
  noise_variance self' (scaled a correl) AR =
  on_return (Rmult a) (noise_variance self correl AR).
Proof.
  intros Hp. unfold noise_variance. rewrite Hp, py_index_scaled.
  destruct (py_index correl 0) as [c0|e]; cbn [on_return bind]; [|reflexivity].
  rewrite py_slice_scaled. unfold dot. rewrite length_scaled.
  destruct (length AR =? _)%nat; cbn [bind on_return]; [|reflexivity].
  rewrite sum_map2_scaled. f_equal. ring.
Qed.

Lemma np_sqrt_scaled (a x : R) :
  0 < a -> np_sqrt (a * x) = scaled_gain (sqrt a) (np_sqrt x).
Proof.
  intros Ha. unfold np_sqrt.
  destruct (Rlt_dec x 0) as [Hx|Hx]; destruct (Rlt_dec (a * x) 0) as [Hax|Hax];
    cbn [scaled_gain]; try reflexivity.
  - exfalso. apply Hax. nra.
  - exfalso. apply Hx. nra.
  - f_equal. apply sqrt_mult_alt. lra.
Qed.

(** The fit on a PSD multiplied by [a > 0]: the same outcome and the same AR
    coefficients, and a gain multiplied by [sqrt a]. *)
Lemma estimate_scaled_psd (a : R) (self self' : Arma.t) (nbcorr : option Z)
  (numpsd : Z) :
  0 < a ->
  ordar self' = ordar self -> ordma self' = ordma self ->
  fftlen self' = fftlen self -> AR_ self' = AR_ self ->
  py_index (Arma.psd self') numpsd =
    on_return (scaled_rows a) (py_index (Arma.psd self) numpsd) ->
  snd (estimate self' nbcorr numpsd) = snd (estimate self nbcorr numpsd) /\
  AR_ (fst (estimate self' nbcorr numpsd)) = AR_ (fst (estimate self nbcorr numpsd)) /\
  (snd (estimate self nbcorr numpsd) = Return tt ->
   MA (fst (estimate self' nbcorr numpsd)) =
   option_map (map (scaled_gain (sqrt a))) (MA (fst (estimate self nbcorr numpsd)))).
Proof.
  intros Ha Hp Hq Hn HAR Hpsd. unfold estimate.
  rewrite (estimate_ar_scaled a self self') by (assumption || lra).
  destruct (estimate_ar self nbcorr numpsd) as [[correl AR]|e];
    cbn [on_return fst snd].
  2:{ repeat split; [exact HAR|discriminate]. }
  cbn [set_AR_ ordma]. rewrite Hq.
  destruct (ordma self =? 0)%Z.
  2:{ cbn [fst snd AR_]. repeat split. discriminate. }
  rewrite (noise_variance_scaled a (set_AR_ self AR) (set_AR_ self' AR))
    by exact Hp.
  destruct (noise_variance (set_AR_ self AR) correl AR) as [sigma2|e];
    cbn [on_return fst snd set_MA set_AR_ AR_ MA].
  - repeat split. intros _. cbn [option_map map].
    rewrite np_sqrt_scaled by exact Ha. reflexivity.
  - repeat split. discriminate.
Qed.

(** X25: the AR coefficients that [Arma.estimate] fits do not depend on the
    scale of the PSD.  With every PSD of the history multiplied by [a > 0]
    the call ends the same way and stores the same [AR_], and a gain
    multiplied by [sqrt a]. *)
Theorem estimate_psd_scale (a : R) (self : Arma.t) (nbcorr : option Z) (numpsd : Z) :
  0 < a ->
  snd (estimate (scaled_psd a self) nbcorr numpsd) = snd (estimate self nbcorr numpsd) /\
  AR_ (fst (estimate (scaled_psd a self) nbcorr numpsd)) =
    AR_ (fst (estimate self nbcorr numpsd)) /\
  (snd (estimate self nbcorr numpsd) = Return tt ->
   MA (fst (estimate (scaled_psd a self) nbcorr numpsd)) =
   option_map (map (scaled_gain (sqrt a))) (MA (fst (estimate self nbcorr numpsd)))).
Proof.
  intros Ha. apply estimate_scaled_psd; try reflexivity; [exact Ha|].
  unfold scaled_psd. cbn [Arma.psd]. apply py_index_map.
Qed.


(** Lines 206-218: the notch is linear in the PSD. *)
Lemma interpolation_scaled (a Amin Amax : R) (n : Z) :
  interpolation (a * Amin) (a * Amax) n =
  scaled_outcome a (interpolation Amin Amax n).
Proof.
  unfold interpolation.
  destruct (linspace 1 0 n) as [down|e]; cbn [bind]; [|reflexivity].
  destruct (linspace 0 1 n) as [up|e]; cbn [bind]; [|reflexivity].
  assert (E : forall (A : R) (l : list R),
             map (Rmult (a * A)) l = scaled a (map (Rmult A) l)).
  { intros A l. unfold scaled. rewrite map_map. apply map_ext. intros v.
    apply Rmult_assoc. }
  rewrite !E. apply binop_plus_scaled.
Qed.

Lemma notch_row_scaled (a : R) (fftlen : Z) (fs enf d_enf : R) (k : Z)
  (row : list R) :
  notch_row fftlen fs enf d_enf k (scaled a row) =
  scaled_outcome a (notch_row fftlen fs enf d_enf k row).
Proof.
  unfold notch_row.
  destruct (notch_bounds fftlen fs enf d_enf k) as [kmin kmax].
  rewrite !py_index_scaled.
  destruct (py_index row kmin) as [Amin|e]; cbn [on_return bind]; [|reflexivity].
  destruct (py_index row kmax) as [Amax|e]; cbn [on_return bind]; [|reflexivity].
  rewrite interpolation_scaled.
  destruct (interpolation Amin Amax _) as [interpol|e];
    cbn [scaled_outcome bind]; [|reflexivity].
  rewrite slice_assign_scaled.
  destruct (slice_assign row kmin kmax interpol) as [row'|e];
    cbn [scaled_outcome bind]; [|reflexivity].
  assert (E : rev (scaled a interpol) = scaled a (rev interpol)).
  { unfold scaled. symmetry. apply map_rev. }
  rewrite E. apply slice_assign_scaled.
Qed.

Lemma notch_scaled (a : R) (fftlen : Z) (fs enf d_enf : R) (k : Z) (P : matrix) :
  notch fftlen fs enf d_enf k (scaled_rows a P) =
  on_return (scaled_rows a) (notch fftlen fs enf d_enf k P).
Proof.
  unfold notch. destruct (Req_dec_T fs 0); [reflexivity|].
  destruct P as [|row rows]; [reflexivity|]. cbn [scaled_rows map].
  rewrite notch_row_scaled.
  destruct (notch_row fftlen fs enf d_enf k row); reflexivity.
Qed.

Lemma notch_loop_scaled (a : R) (fuel : nat) (fftlen : Z) (fs enf d_enf : R)
  (k : Z) (P : matrix) :
  notch_loop fuel fftlen fs enf d_enf k (scaled_rows a P) =
  option_map (on_return (scaled_rows a)) (notch_loop fuel fftlen fs enf d_enf k P).
Proof.
  revert k P. induction fuel as [|fuel IH]; intros k P; cbn [notch_loop];
    destruct (Rlt_dec _ _); try reflexivity.
  rewrite notch_scaled.
  destruct (notch fftlen fs enf d_enf k P) as [P'|e]; cbn [on_return];
    [apply IH|reflexivity].
Qed.

(** Lines 222-239 use of the fitted model its AR coefficients only. *)
Lemma apply_inverse_AR (s s' : Arma.t) (zero_phase : bool) (sig : list R) :
  AR_ s' = AR_ s -> apply_inverse s' zero_phase sig = apply_inverse s zero_phase sig.
Proof.
  intros H. unfold apply_inverse, inverse. rewrite H. reflexivity.
Qed.

Lemma sqrt_scaled_rows (a : R) (P : matrix) :
  0 < a -> map (map sqrt) (scaled_rows a P) = scaled_rows (sqrt a) (map (map sqrt) P).
Proof.
  intros Ha. unfold scaled_rows, scaled. rewrite !map_map.
  apply map_ext. intros row. rewrite !map_map. apply map_ext. intros v.
  apply sqrt_mult_alt. lra.
Qed.

Lemma whiten_fit_scaled (a b : R) (sig : list R) (ordar : Z) (zero_phase : bool)
  (fftlen : Z) (P Plast : matrix) :
  0 < a ->
  whiten_fit sig ordar zero_phase fftlen (scaled_rows b P) (scaled_rows a Plast) =
  whiten_fit sig ordar zero_phase fftlen P Plast.
Proof.
  intros Ha. unfold whiten_fit.
  assert (Hgen : forall (c : R) (Q : matrix), 0 < c ->
            match estimate (mkArma ordar 0 fftlen [scaled_rows b P; scaled_rows c Q]
                              None None) None (-1) with
            | (_, Raise e) => Raise e
            | (ar, Return _) =>
                let! sigout := apply_inverse ar zero_phase sig in
                Return (rescale sig sigout)
            end =
            match estimate (mkArma ordar 0 fftlen [P; Q] None None) None (-1) with
            | (_, Raise e) => Raise e
            | (ar, Return _) =>
                let! sigout := apply_inverse ar zero_phase sig in
                Return (rescale sig sigout)
            end).
  { intros c Q Hc.
    destruct (estimate_scaled_psd c (mkArma ordar 0 fftlen [P; Q] None None)
                (mkArma ordar 0 fftlen [scaled_rows b P; scaled_rows c Q] None None)
                None (-1) Hc eq_refl eq_refl eq_refl eq_refl eq_refl)
      as (Hr & HAR & _).
    destruct (estimate (mkArma ordar 0 fftlen [scaled_rows b P; scaled_rows c Q]
                          None None) None (-1)) as [s' r'].
    destruct (estimate (mkArma ordar 0 fftlen [P; Q] None None) None (-1)) as [s r].
    cbn [fst snd] in Hr, HAR. subst r'.
    destruct r as [u|e]; [|reflexivity].
    rewrite (apply_inverse_AR s s') by exact HAR. reflexivity. }
  destruct zero_phase.
  - rewrite sqrt_scaled_rows by exact Ha. apply Hgen. apply sqrt_lt_R0. exact Ha.
  - apply Hgen. exact Ha.
Qed.

(** X26: the result of [whiten] does not depend on the normalisation of the
    periodogram: with a periodogram whose PSD is [a > 0] times as large,
    [whiten] returns the same signal or raises the same exception. *)
Theorem whiten_periodogram_scale (periodogram : R -> list R -> outcome (Z * matrix))
  (a : R) (fuel : nat) (sig : list R) (fs : R) (ordar : Z) (enf d_enf : R)
  (zero_phase : bool) :
  0 < a ->
  whiten (scaled_periodogram a periodogram) fuel sig fs ordar enf d_enf zero_phase =
  whiten periodogram fuel sig fs ordar enf d_enf zero_phase.
Proof.
  intros Ha. unfold whiten, scaled_periodogram.
  destruct (periodogram fs sig) as [[fftlen P]|e]; cbn [on_return]; [|reflexivity].
  rewrite notch_loop_scaled.
  destruct (notch_loop fuel fftlen fs enf d_enf 1 P) as [[Plast|e]|];
    cbn [option_map on_return]; try reflexivity.
  f_equal. apply whiten_fit_scaled. exact Ha.
Qed.


(** [Arma.inverse] and lines 229-239 on a signal multiplied by [c]. *)
Lemma convolve_full_scaled (c : R) (x b : list R) :
  convolve_full (scaled c x) b = scaled c (convolve_full x b).
Proof.
  unfold convolve_full.
  destruct x as [|u x]; [reflexivity|].
  destruct b as [|v b]; [reflexivity|].
  change (scaled c (u :: x)) with (c * u :: scaled c x) at 1.
  cbv beta iota.
  change (c * u :: scaled c x) with (scaled c (u :: x)).
  rewrite length_scaled. unfold scaled at 2. rewrite map_map.
  apply map_ext. intros k.
  rewrite <- sum_scale.
  rewrite map_map. f_equal. apply map_ext. intros j.
  rewrite nth_scaled. ring.
Qed.

Lemma convolve_same_scaled (c : R) (x b : list R) :
  convolve_same (scaled c x) b = scaled c (convolve_same x b).
Proof.
  unfold convolve_same. rewrite convolve_full_scaled, !length_scaled.
  unfold scaled. rewrite skipn_map, firstn_map. reflexivity.
Qed.

Lemma inverse_scaled (c : R) (self : Arma.t) (sig : list R) :
  inverse self (scaled c sig) = scaled_outcome c (inverse self sig).
Proof.
  unfold inverse. destruct (AR_ self) as [AR|]; [|reflexivity].
  cbn [scaled_outcome]. rewrite convolve_same_scaled. reflexivity.
Qed.

Lemma rev_scaled (c : R) (x : list R) : rev (scaled c x) = scaled c (rev x).
Proof. unfold scaled. symmetry. apply map_rev. Qed.

Lemma apply_inverse_scaled (c : R) (self : Arma.t) (zero_phase : bool)
  (sig : list R) :
  apply_inverse self zero_phase (scaled c sig) =
  scaled_outcome c (apply_inverse self zero_phase sig).
Proof.
  unfold apply_inverse. destruct zero_phase; [|apply inverse_scaled].
  rewrite inverse_scaled.
  destruct (inverse self sig) as [y|e]; cbn [scaled_outcome bind]; [|reflexivity].
  rewrite rev_scaled, inverse_scaled.
  destruct (inverse self (rev y)) as [z|e]; cbn [scaled_outcome bind];
    [|reflexivity].
  rewrite rev_scaled. reflexivity.
Qed.

Lemma sum_scaled (c : R) (x : list R) : sum (scaled c x) = c * sum x.
Proof.
  induction x as [|v x IH]; cbn [scaled map sum]; [ring|].
  fold (scaled c x). rewrite IH. ring.
Qed.

Lemma mean_scaled (c : R) (x : list R) : mean (scaled c x) = c * mean x.
Proof.
  unfold mean. rewrite sum_scaled, length_scaled. unfold Rdiv. ring.
Qed.

Lemma std_scaled (c : R) (x : list R) : std (scaled c x) = Rabs c * std x.
Proof.
  unfold std. rewrite mean_scaled.
  assert (E : map (fun v => (v - c * mean x) * (v - c * mean x)) (scaled c x) =
              scaled (c * c) (map (fun v => (v - mean x) * (v - mean x)) x)).
  { unfold scaled. rewrite !map_map. apply map_ext. intros v. ring. }
  rewrite E, mean_scaled.
  rewrite sqrt_mult_alt by nra.
  f_equal. apply sqrt_Rsqr_abs.
Qed.

Lemma rescale_scaled (c : R) (sig sigout : list R) :
  c <> 0 ->
  rescale (scaled c sig) (scaled c sigout) = scaled_whitened c (rescale sig sigout).
Proof.
  intros Hc. unfold rescale.
  destruct sigout as [|v sigout]; [reflexivity|].
  change (scaled c (v :: sigout)) with (c * v :: scaled c sigout) at 1.
  cbv iota.
  change (c * v :: scaled c sigout) with (scaled c (v :: sigout)).
  rewrite !std_scaled.
  assert (Habs : Rabs c <> 0) by (apply Rabs_no_R0; exact Hc).
  destruct (Req_dec_T (std (v :: sigout)) 0) as [Hz|Hz];
    destruct (Req_dec_T (Rabs c * std (v :: sigout)) 0) as [Hz'|Hz'];
    cbn [scaled_whitened]; try reflexivity.
  - exfalso. apply Hz'. rewrite Hz. ring.
  - exfalso. apply Rmult_integral in Hz'. tauto.
  - f_equal. unfold scaled. rewrite !map_map. apply map_ext. intros t.
    field. split; assumption.
Qed.

Lemma whiten_fit_signal_scaled (c : R) (sig : list R) (ordar : Z)
  (zero_phase : bool) (fftlen : Z) (P Plast : matrix) :
  c <> 0 ->
  whiten_fit (scaled c sig) ordar zero_phase fftlen P Plast =
  on_return (scaled_whitened c) (whiten_fit sig ordar zero_phase fftlen P Plast).
Proof.
  intros Hc. unfold whiten_fit.
  destruct (estimate _ None (-1)) as [s [u|e]]; [|reflexivity].
  rewrite apply_inverse_scaled.
  destruct (apply_inverse s zero_phase sig) as [y|e];
    cbn [scaled_outcome bind on_return]; [|reflexivity].
  rewrite rescale_scaled by exact Hc. reflexivity.
Qed.

(** X27: [whiten] is homogeneous.  When the periodogram of [c] times the
    signal is [c * c] times the periodogram of the signal, as it is for a
    squared magnitude, [whiten] of [c] times the signal is [c] times [whiten]
    of the signal, for [c <> 0], and ends the same way. *)
Theorem whiten_homogeneous (periodogram : R -> list R -> outcome (Z * matrix))
  (c : R) (fuel : nat) (sig : list R) (fs : R) (ordar : Z) (enf d_enf : R)
  (zero_phase : bool) :
  c <> 0 ->
  periodogram fs (scaled c sig) = scaled_periodogram (c * c) periodogram fs sig ->
  whiten periodogram fuel (scaled c sig) fs ordar enf d_enf zero_phase =
  option_map (on_return (scaled_whitened c))
             (whiten periodogram fuel sig fs ordar enf d_enf zero_phase).
Proof.
  intros Hc Hper. unfold whiten. rewrite Hper. unfold scaled_periodogram.
  destruct (periodogram fs sig) as [[fftlen P]|e]; cbn [on_return]; [|reflexivity].
  rewrite notch_loop_scaled.
  destruct (notch_loop fuel fftlen fs enf d_enf 1 P) as [[Plast|e]|];
    cbn [option_map on_return]; try reflexivity.
  f_equal. rewrite whiten_fit_scaled by nra.
  apply whiten_fit_signal_scaled. exact Hc.
Qed.


Lemma energy_periodogram_quadratic (c fs : R) (sig : list R) :
  energy_periodogram fs (scaled c sig) =
  scaled_periodogram (c * c) energy_periodogram fs sig.
Proof.
  unfold scaled_periodogram, energy_periodogram. cbn [on_return].
  rewrite sum_squares_scaled. cbn [scaled_rows map]. unfold scaled.
  rewrite map_repeat. reflexivity.
Qed.

End ScaleFree.

(** ** Instances *)

Section Instances.

Import Np Linalg Dehumming Arma Preprocess Terms Notions Psd Decimation.
Open Scope R_scope.

Lemma dehummer_frequency_track_witness :
  Z.of_nat (length (freq (zero_state 2 50 3 2))) = freq_len 2 4 /\
  kf (zero_state 2 50 3 2) = 2%Z /\
  (forall i, (0 <= i < kf (zero_state 2 50 3 2))%Z ->
     exists f, py_index (freq (zero_state 2 50 3 2)) i = Return f /\
               Rabs (f - 50) < 1) /\
  (forall i, (kf (zero_state 2 50 3 2) <= i < freq_len 2 4)%Z ->
     py_index (freq (zero_state 2 50 3 2)) i = Return 0).
Proof.
  apply (dehummer_frequency_track (zeros 2) 400 50 1 4).
  - exact dehummer_two_zeros.
  - rewrite py_int_4. lia.
  - lia.
  - reflexivity.
Defined.

Lemma two_zeros_clean_to_zeros :
  blocks_clean_to (zeros 2) (zeros 2) 400 50 1 4.
Proof.
  unfold blocks_clean_to. cbn [zeros repeat length]. intros centres tmid Hc Hin.
  change (block_centres (Z.of_nat 2) 4) with (Return [0%Z; 2%Z]) in Hc.
  injection Hc as <-.
  assert (Hs : search (zeros 2) 400 50 1 =
               Return (mkSearch 50 (zeros 2) 0 (candidates 50)))
    by (apply search_zeros; exact two_sample_blocks_solvable).
  destruct Hin as [<-|[<-|[]]]; cbn [block_bounds];
    (eexists; split; [exact Hs|reflexivity]).
Qed.

Lemma dehummer_overlap_add_witness :
  exists st, dehummer (zeros 2) 400 50 1 4 = Return st /\ result st = zeros 2.
Proof.
  apply (dehummer_overlap_add (zeros 2) (zeros 2) 400 50 1 4).
  - lra.
  - lia.
  - reflexivity.
  - rewrite py_int_4. lia.
  - reflexivity.
  - rewrite py_int_4. exact two_zeros_clean_to_zeros.
Defined.


Lemma single_estimate_two_zeros_50 :
  single_estimate (zeros 2) 50 400 1 = Return (zeros 2).
Proof.
  destruct (two_sample_blocks_solvable 50) as [v Hv].
  - unfold candidates. left. reflexivity.
  - rewrite Hv. f_equal. eapply single_estimate_zeros. exact Hv.
Qed.

Lemma single_estimate_projection_witness :
  length (zeros 2) = length (zeros 2) /\
  sum (map2 Rmult (zeros 2) (map2 Rminus (zeros 2) (zeros 2))) = 0 /\
  sum (map2 Rmult (zeros 2) (zeros 2)) =
  sum (map2 Rmult (map2 Rminus (zeros 2) (zeros 2)) (map2 Rminus (zeros 2) (zeros 2))) +
  sum (map2 Rmult (zeros 2) (zeros 2)).
Proof.
  apply (single_estimate_projection (zeros 2) 50 400 1).
  exact single_estimate_two_zeros_50.
Defined.

Lemma search_keeps_residual_witness :
  residual (zeros 2) 50 400 1 = Return (zeros 2, 0) /\
  length (zeros 2) = length (zeros 2) /\
  0 = sum (map2 Rmult (zeros 2) (zeros 2)) /\
  0 <= 0 <= sum (map2 Rmult (zeros 2) (zeros 2)) /\
  exists e0, energy_at (zeros 2) 400 1 50 = Some e0 /\ 0 <= e0.
Proof.
  apply (search_keeps_residual (zeros 2) 400 50 1
           (mkSearch 50 (zeros 2) 0 (candidates 50))).
  apply search_zeros. exact two_sample_blocks_solvable.
Defined.

Lemma whiten_wide_tolerance_witness :
  whiten periodogram_dc 3 [1; 3; 2] 1 1 50 60 false = None \/
  exists e, whiten periodogram_dc 3 [1; 3; 2] 1 1 50 60 false = Some (Raise e).
Proof.
  apply (whiten_wide_tolerance periodogram_dc); lra.
Defined.

Lemma whiten_terminates_witness :
  exists r,
    forall fuel, (Z.to_nat (up (1 / (2 * (50 - 1)))) <= fuel)%nat ->
      whiten periodogram_dc fuel [1; 3; 2] 1 1 50 1 false = Some r.
Proof.
  apply (whiten_terminates periodogram_dc [1; 3; 2] 1 1 50 1 false). lra.
Defined.

Lemma notch_bounds_16 : notch_bounds 16 160 50 1 1 = (4%Z, 6%Z).
Proof.
  unfold notch_bounds. f_equal.
  - rewrite (py_int_nonneg _ 4) by (simpl; lra). reflexivity.
  - rewrite (py_int_nonneg _ 5) by (simpl; lra). reflexivity.
Qed.

Lemma notch_loop_keeps_psd_witness :
  exists P',
    notch_loop 2 16 160 50 1 1 [repeat 1 16] = Some (Return P') /\
    Forall (Forall (fun x => 0 <= x)) P' /\
    map (@length R) P' = [16%nat].
Proof.
  destruct (notch_row_mirrors 16 160 50 1 1 (repeat 1 16) 4 6 notch_bounds_16)
    as (row' & Hrow & _); [lia|cbn [repeat length]; lia|].
  assert (Hrun : notch_loop 2 16 160 50 1 1 [repeat 1 16] = Some (Return [row'])).
  { cbn [notch_loop].
    destruct (Rlt_dec (1 * (50 - 1)) (160 / 2)) as [_|N]; [|exfalso; lra].
    unfold notch. destruct (Req_dec_T 160 0) as [?|_]; [lra|].
    rewrite Hrow. cbn [bind].
    destruct (Rlt_dec (IZR (1 + 1) * (50 - 1)) (160 / 2)) as [Hlt|_];
      [|reflexivity].
    exfalso. simpl in Hlt. lra. }
  exists [row']. split; [exact Hrun|].
  apply (notch_loop_keeps_psd 2 16 160 50 1 1 [repeat 1 16] [row'] Hrun).
  repeat constructor; lra.
Defined.

Lemma whiten_keeps_length_witness :
  length (map (fun x => x * (std [1; 3; 2] / std [1; 2; -1])) [1; 2; -1]) =
  length [1; 3; 2].
Proof.
  apply (whiten_keeps_length periodogram_dc 0 [1; 3; 2] 1 1 50 1 false).
  exact whiten_dc_example.
Defined.

Lemma notch_row_interior_witness :
  exists row',
    notch_row 16 160 50 1 1 (repeat 1 16) = Return row' /\
    length row' = 16%nat /\
    (forall t, (4 <= t < 6)%nat ->
       nth t row' 0 = nth (t - 4) (interpolated 1 1 2) 0 /\
       nth (16 - 1 - t) row' 0 = nth (t - 4) (interpolated 1 1 2) 0) /\
    (forall t, (t < 4 \/ 6 <= t < 16 - 6 \/ 16 - 4 <= t)%nat ->
       nth t row' 0 = nth t (repeat 1 16) 0).
Proof.
  apply (notch_row_interior 16 160 50 1 1 (repeat 1 16) 4 6 notch_bounds_16);
    [lia|cbn [repeat length]; lia].
Defined.

Lemma arma2psd_example :
  arma2psd order0_example true = Return (Updated order0_after).
Proof.
  apply (arma2psd_order_0 order0_example true 2);
    [reflexivity|reflexivity|cbn; lia].
Qed.

Lemma arma2psd_spectrum_witness :
  exists row,
    Arma.psd order0_after = Arma.psd order0_example ++ [[row]] /\
    Z.of_nat (length row) = fftlen order0_example /\
    Forall (fun v => 0 <= v) row /\
    (forall k, (0 < k < length row)%nat ->
       nth (length row - k) row 0 = nth k row 0) /\
    ordar order0_after = ordar order0_example /\
    ordma order0_after = ordma order0_example /\
    fftlen order0_after = fftlen order0_example /\
    AR_ order0_after = AR_ order0_example /\ MA order0_after = MA order0_example.
Proof.
  apply (arma2psd_spectrum order0_example order0_after true).
  exact arma2psd_example.
Defined.

Lemma arma2psd_dc_gain_witness :
  exists row,
    last (Arma.psd order0_after) [] = [row] /\
    sum (firstn 4 [1]) <> 0 /\
    nth 0 row 0 = (sum (firstn 4 [2]) / sum (firstn 4 [1])) *
                  (sum (firstn 4 [2]) / sum (firstn 4 [1])).
Proof.
  apply (arma2psd_dc_gain order0_example order0_after true [] [2]).
  - exact arma2psd_example.
  - reflexivity.
  - reflexivity.
Defined.

Lemma inverse_centred_filter_witness :
  exists out,
    inverse (mkArma 2 0 4 [dc_psd] (Some [-1; 0.5]) None) [1; 3; 2] = Return out /\
    length out = 3%nat /\
    forall t, (t < 3)%nat ->
      nth t out 0 =
      sum (map (fun i => if (i <=? t + 2 / 2)%nat
                         then nth i [1; -1; 0.5] 0 * nth (t + 2 / 2 - i) [1; 3; 2] 0
                         else 0)
               (seq 0 3)).
Proof.
  apply (inverse_centred_filter (mkArma 2 0 4 [dc_psd] (Some [-1; 0.5]) None)
           [1; 3; 2] [-1; 0.5]).
  reflexivity.
Defined.

Lemma decimate_by_factor_witness :
  exists out fs',
    decimate (fun _ x => Return x) (fun v => v) [1; 2; 3; 4; 5] 100 2
    = Done (out, fs') /\
    (2 <= 2 <= 30)%Z /\ fs' = 100 / IZR 2 /\
    Z.of_nat (length out) = ((Z.of_nat 5 + 2 - 1) / 2)%Z.
Proof.
  eexists. eexists. split; [reflexivity|].
  apply (decimate_by_factor (fun _ x => Return x) (fun v => v) [1; 2; 3; 4; 5]).
  - intros q x y [= <-]. reflexivity.
  - lia.
  - reflexivity.
Defined.

Lemma decimate_rejects_witness :
  decimate (fun _ x => Return x) (fun v => v) [1; 2; 3] 100 11 = Raised TypeError /\
  decimate (fun _ x => Return x) (fun v => v) [1; 2; 3] 100 31
  = Raised (Builtin IndexError).
Proof.
  split.
  - apply (decimate_rejects (fun _ x => Return x) (fun v => v) [1; 2; 3] 100 11).
    cbn [In]. auto 12.
  - apply (decimate_rejects (fun _ x => Return x) (fun v => v) [1; 2; 3] 100 31).
    lia.
Defined.

Lemma decimate_negative_factor_witness :
  decimate (fun _ x => Return x) (fun v => v) [1; 2; 3] 100 (-1) =
    match decimate (fun _ x => Return x) (fun v => v) [1; 2; 3] 100 (-1 + 31) with
    | Done (out, _) => Done (out, 100 / IZR (-1))
    | Raised r => Raised r
    end /\
  (In (-1 + 31)%Z [0; 1; 11; 13; 17; 19; 22; 23; 26; 29]%Z ->
   decimate (fun _ x => Return x) (fun v => v) [1; 2; 3] 100 (-1) =
   Raised TypeError) /\
  (forall out fs',
     decimate (fun _ x => Return x) (fun v => v) [1; 2; 3] 100 (-1) =
     Done (out, fs') ->
     fs' = 100 / IZR (-1) /\ (0 < 100 -> fs' < 0)).
Proof.
  apply (decimate_negative_factor (fun _ x => Return x) (fun v => v)). lia.
Defined.

Lemma estimate_white_spectrum_witness :
  estimate white_example None (-1) =
  (set_MA (set_AR_ white_example (zeros 2)) [np_sqrt 3], Return tt).
Proof.
  apply (estimate_white_spectrum white_example 3 [] []).
  - reflexivity.
  - cbn. lia.
  - reflexivity.
  - lra.
Defined.

Lemma whiten_without_harmonic_witness :
  whiten periodogram_dc 0 [1; 3; 2] 1 1 50 1 false =
  Some (plain_whiten periodogram_dc [1; 3; 2] 1 1 false).
Proof.
  apply (whiten_without_harmonic periodogram_dc). lra.
Defined.

Lemma dehummer_homogeneous_witness :
  2 <> 0 /\
  dehummer (scaled 2 [1; 3]) 1000 50 1 4 =
  scaled_run (scaled_state 2) (dehummer [1; 3] 1000 50 1 4).
Proof.
  split; [lra|]. apply dehummer_homogeneous. lra.
Defined.

Lemma estimate_psd_scale_witness :
  0 < 4 /\
  snd (estimate (scaled_psd 4 white_example) None (-1)) =
    snd (estimate white_example None (-1)) /\
  AR_ (fst (estimate (scaled_psd 4 white_example) None (-1))) =
    AR_ (fst (estimate white_example None (-1))) /\
  (snd (estimate white_example None (-1)) = Return tt ->
   MA (fst (estimate (scaled_psd 4 white_example) None (-1))) =
   option_map (map (scaled_gain (sqrt 4)))
              (MA (fst (estimate white_example None (-1))))).
Proof.
  split; [lra|]. apply (estimate_psd_scale 4 white_example None (-1)). lra.
Defined.

Lemma whiten_periodogram_scale_witness :
  0 < 4 /\
  whiten (scaled_periodogram 4 periodogram_dc) 0 [1; 3; 2] 1 1 50 1 false =
  whiten periodogram_dc 0 [1; 3; 2] 1 1 50 1 false.
Proof.
  split; [lra|]. apply whiten_periodogram_scale. lra.
Defined.

Lemma whiten_homogeneous_witness :
  2 <> 0 /\
  energy_periodogram 1 (scaled 2 [1; 3; 2]) =
    scaled_periodogram (2 * 2) energy_periodogram 1 [1; 3; 2] /\
  whiten energy_periodogram 0 (scaled 2 [1; 3; 2]) 1 1 50 1 false =
  option_map (on_return (scaled_whitened 2))
             (whiten energy_periodogram 0 [1; 3; 2] 1 1 50 1 false).
Proof.
  split; [lra|]. split; [apply energy_periodogram_quadratic|].
  apply whiten_homogeneous; [lra|apply energy_periodogram_quadratic].
Defined.

End Instances.
